(** * newsletter-narrator: the summarise / compose / synthesise pipeline

    A shallow embedding of [src/index.js] (class
    [EnhancedNewsletterSummarizer] and the bucket loop of
    [runEnhancedSummarizer]) together with the properties its
    specification states about it.

    Conventions of the embedding.
    - A JavaScript string is the list of its UTF-16 code units ([N]).
    - The services the program talks to (chat completion, text-to-speech,
      the file system, ffmpeg, the console) live in a [World] that every
      asynchronous method threads through; a rejected promise or a thrown
      exception is the [Throw] result.
    - An object used as an ordered dictionary ([summariesByTopic]) is the
      list of its entries in [Object.entries] order. *)

From Stdlib Require Import List NArith PeanoNat Lia Bool String Ascii DecimalNat.
From Stdlib Require Import Permutation.
Import ListNotations.

(* ================================================================== *)
(** ** JavaScript strings *)

Module JS.

Definition JSString := list N.

(** A literal of the source, given by its (ASCII) characters. *)
Definition js (s : string) : JSString :=
  map N_of_ascii (list_ascii_of_string s).

Definition LF : JSString := [10%N].

Fixpoint eqb (a b : JSString) : bool :=
  match a, b with
  | [], [] => true
  | x :: a', y :: b' => N.eqb x y && eqb a' b'
  | _, _ => false
  end.

(** [WhiteSpace] and [LineTerminator] of ECMAScript: what [\s] matches and
    what [trim] strips. *)
Definition isSpace (c : N) : bool :=
  existsb (N.eqb c)
    [9; 10; 11; 12; 13; 32; 160; 5760; 8232; 8233; 8239; 8287; 12288; 65279]%N
  || ((8192 <=? c) && (c <=? 8202))%N.

Definition isUpperAZ (c : N) : bool := ((65 <=? c) && (c <=? 90))%N.
Definition isLowerAZ (c : N) : bool := ((97 <=? c) && (c <=? 122))%N.

(** Case mapping of one code unit.  The program applies [toUpperCase] only
    to a capture of [[A-Z_]+] under the [i] flag and [toLowerCase] only to
    the bucket keys; on code units below 128 the two functions below are
    the JavaScript ones, above they leave the unit alone. *)
Definition upper1 (c : N) : N := if isLowerAZ c then (c - 32)%N else c.
Definition lower1 (c : N) : N := if isUpperAZ c then (c + 32)%N else c.

Definition toUpperCase (s : JSString) : JSString := map upper1 s.
Definition toLowerCase (s : JSString) : JSString := map lower1 s.

Fixpoint dropWhile (p : N -> bool) (s : JSString) : JSString :=
  match s with
  | c :: t => if p c then dropWhile p t else s
  | [] => []
  end.

Definition trimStart (s : JSString) : JSString := dropWhile isSpace s.
Definition trimEnd (s : JSString) : JSString := rev (dropWhile isSpace (rev s)).
Definition trim (s : JSString) : JSString := trimEnd (trimStart s).

(** [arr.join(sep)] *)
Fixpoint join (sep : JSString) (parts : list JSString) : JSString :=
  match parts with
  | [] => []
  | [p] => p
  | p :: ps => p ++ sep ++ join sep ps
  end.

(** [s.replace(/_/g, ' ')] *)
Definition replaceUnderscores (s : JSString) : JSString :=
  map (fun c => if (c =? 95)%N then 32%N else c) s.

(** Decimal rendering of a non-negative integer in a template literal. *)
Fixpoint digitsOf (u : Decimal.uint) : JSString :=
  match u with
  | Decimal.Nil => []
  | Decimal.D0 u' => 48%N :: digitsOf u'
  | Decimal.D1 u' => 49%N :: digitsOf u'
  | Decimal.D2 u' => 50%N :: digitsOf u'
  | Decimal.D3 u' => 51%N :: digitsOf u'
  | Decimal.D4 u' => 52%N :: digitsOf u'
  | Decimal.D5 u' => 53%N :: digitsOf u'
  | Decimal.D6 u' => 54%N :: digitsOf u'
  | Decimal.D7 u' => 55%N :: digitsOf u'
  | Decimal.D8 u' => 56%N :: digitsOf u'
  | Decimal.D9 u' => 57%N :: digitsOf u'
  end.

Definition numberToString (n : nat) : JSString := digitsOf (Nat.to_uint n).

End JS.
Import JS.

(* ================================================================== *)
(** ** Regular expressions

    A backtracking matcher for the fragment the three pattern literals of
    the source use: character classes, sequencing, greedy [*] and [+] on a
    class, one capturing group and a one-character look-behind.  The
    matcher follows the ECMAScript semantics: continuation passing, greedy
    quantifiers that give characters back when the continuation fails, the
    leftmost start position wins. *)

Module RegExp.

Inductive Regex : Type :=
| Chr (p : N -> bool)
| Seq (a b : Regex)
| Star (p : N -> bool)
| Plus (p : N -> bool)
| Group (r : Regex)
| LookBehind (p : N -> bool).

(** A position of the matcher: the code unit before it, the input from it
    on, and the value of capture 1 ([None] is [undefined]). *)
Record MState : Type := mkMState {
  prev : option N;
  rest : JSString;
  cap1 : option JSString
}.

Definition Cont := MState -> option MState.

Fixpoint star (p : N -> bool) (k : Cont)
         (pv : option N) (s : JSString) (c1 : option JSString) : option MState :=
  match s with
  | c :: t =>
      if p c then
        match star p k (Some c) t c1 with
        | Some m => Some m
        | None => k (mkMState pv s c1)
        end
      else k (mkMState pv s c1)
  | [] => k (mkMState pv s c1)
  end.

Fixpoint rmatch (r : Regex) (st : MState) (k : Cont) : option MState :=
  match r with
  | Chr p =>
      match rest st with
      | c :: t => if p c then k (mkMState (Some c) t (cap1 st)) else None
      | [] => None
      end
  | Seq a b => rmatch a st (fun st' => rmatch b st' k)
  | Star p => star p k (prev st) (rest st) (cap1 st)
  | Plus p =>
      match rest st with
      | c :: t => if p c then star p k (Some c) t (cap1 st) else None
      | [] => None
      end
  | Group r' =>
      rmatch r' st (fun st' =>
        k (mkMState (prev st') (rest st')
             (Some (firstn (List.length (rest st) - List.length (rest st')) (rest st)))))
  | LookBehind p =>
      match prev st with
      | Some c => if p c then k st else None
      | None => None
      end
  end.

(** A match attempt anchored at one position (what a sticky [exec] does). *)
Definition matchAt (re : Regex) (pv : option N) (s : JSString) : option MState :=
  rmatch re (mkMState pv s None) Some.

(** [RegExpBuiltinExec] without the [g]/[y] flags: the first position, from
    the left, at which the pattern matches. *)
Fixpoint exec (re : Regex) (pv : option N) (s : JSString) : option MState :=
  match matchAt re pv s with
  | Some m => Some m
  | None =>
      match s with
      | c :: t => exec re (Some c) t
      | [] => None
      end
  end.

(** [str.match(re)] for a pattern without [g]: [null] or the match. *)
Definition str_match (re : Regex) (s : JSString) : option MState :=
  exec re None s.

(** [Canonicalize] under the [i] flag (no [u] flag): a code unit of 128 or
    more is never folded onto one below 128, so against the ASCII letters
    of the patterns only the ASCII folding matters. *)
Definition canonicalize (c : N) : N := upper1 c.

Definition chr_i (c : N) : N -> bool :=
  fun x => (canonicalize x =? canonicalize c)%N.

(** A literal run of characters under [i], followed by [r]. *)
Definition lit_i (s : JSString) (r : Regex) : Regex :=
  fold_right (fun c acc => Seq (Chr (chr_i c)) acc) r s.

(** [[A-Z_]] under [i]. *)
Definition class_AZ_underscore_i (x : N) : bool :=
  let u := canonicalize x in isUpperAZ u || (u =? 95)%N.

(** [[\s\S]] *)
Definition class_any (x : N) : bool := true.

(** [\.] *)
Definition class_dot (x : N) : bool := (x =? 46)%N.

(** [/CATEGORY:\s*([A-Z_]+)/i] *)
Definition re_CATEGORY : Regex :=
  lit_i (js "CATEGORY:") (Seq (Star isSpace) (Group (Plus class_AZ_underscore_i))).

(** [/SUMMARY:\s*([\s\S]+)/i] *)
Definition re_SUMMARY : Regex :=
  lit_i (js "SUMMARY:") (Seq (Star isSpace) (Group (Plus class_any))).

(** [/(?<=\.)\s+/] *)
Definition re_sentence_gap : Regex :=
  Seq (LookBehind class_dot) (Plus isSpace).

(** [str.split(re)], following [RegExp.prototype[Symbol.split]] with no
    limit: [cur] is the text from the last cut [p] to the position [q]
    under inspection, [skip] counts the characters of a separator matched
    at an earlier [q] that are still to be stepped over. A match that ends
    where the last cut was ([e = p], an empty match right after a cut)
    does not cut. *)
Fixpoint splitFrom (re : Regex) (skip : nat) (pv : option N)
         (cur : JSString) (s : JSString) : list JSString :=
  match s with
  | [] => [cur]
  | c :: t =>
      match skip with
      | S n => splitFrom re n (Some c) [] t
      | O =>
          match matchAt re pv s with
          | None => splitFrom re O (Some c) (cur ++ [c]) t
          | Some m =>
              match List.length s - List.length (rest m) with
              | O =>
                  match cur with
                  | [] => splitFrom re O (Some c) [c] t
                  | _ => cur :: splitFrom re O (Some c) [c] t
                  end
              | S n => cur :: splitFrom re n (Some c) [] t
              end
          end
      end
  end.

Definition split (re : Regex) (s : JSString) : list JSString :=
  match s with
  | [] => match matchAt re None [] with Some _ => [] | None => [[]] end
  | _ => splitFrom re O None [] s
  end.

End RegExp.
Import RegExp.

(* ================================================================== *)
(** ** The world the program runs in *)

Definition Bytes := list Byte.byte.

(** What a [catch] clause can receive.  [Rejection] is a promise rejected
    by an external service, [TypeError] the engine's own.  [FuelExhausted]
    is not a JavaScript error: it is what a loop of the embedding returns
    when its fuel runs out, and [summarizeNewsletter_never_out_of_fuel]
    shows that the program never produces it. *)
Inductive Error : Type :=
| Rejection (reason : JSString)
| TypeError (message : JSString)
| FuelExhausted.

Inductive Res (A : Type) : Type :=
| Ok (a : A)
| Throw (e : Error).
Arguments Ok {A} a.
Arguments Throw {A} e.

(** How a call to an external service settles. *)
Inductive Outcome (A : Type) : Type :=
| Resolve (a : A)
| Reject (reason : JSString).
Arguments Resolve {A} a.
Arguments Reject {A} reason.

Record ChatMessage : Type := {
  role : JSString;
  content : JSString
}.

(** [temperature] is kept in tenths (7 is 0.7). *)
Record ChatRequest : Type := {
  model : JSString;
  messages : list ChatMessage;
  temperature_tenths : N;
  max_tokens : N
}.

Inductive Speaker : Type := host | guest.

Record VoiceConfig : Type := {
  languageCode : JSString;
  name : JSString;
  ssmlGender : JSString
}.

(** [speakingRate] and [pitch] are kept in tenths (11 is 1.1). *)
Record TTSRequest : Type := {
  input_text : JSString;
  voice : VoiceConfig;
  audioEncoding : JSString;
  speakingRate_tenths : N;
  pitch_tenths : N
}.

(** The module [gpt-tokenizer]. *)
Record Tokenizer : Type := {
  encode : JSString -> Outcome (list N);
  decode : list N -> JSString
}.

Inductive ConsoleEntry : Type :=
| ConsoleLog (text : JSString)
| ConsoleWarn (text : JSString) (err : Error)
| ConsoleError (text : JSString) (err : Error).

(** The chat-completion and text-to-speech services are tapes of the
    outcomes their coming calls will have, next call first, and a log of
    the requests received, oldest first.  Quantifying over the tape covers
    every behaviour of the service, whatever it makes its answers depend
    on. *)
Record World : Type := {
  gptTokenizer : Outcome Tokenizer;           (* import('gpt-tokenizer') *)
  chatTape : list (Outcome JSString);
  chatLog : list ChatRequest;
  ttsTape : list (Outcome Bytes);
  ttsLog : list TTSRequest;
  files : list (JSString * Bytes);            (* path, content *)
  mkdirFault : option JSString;
  writeFault : JSString -> option JSString;   (* per path *)
  unlinkFault : JSString -> option JSString;  (* per path *)
  unlinkLog : list JSString;                  (* paths unlink was called on *)
  ffmpegFault : option JSString;
  ffmpegLog : list (list JSString * JSString);(* inputs in order, output *)
  markReadFault : JSString -> option JSString;(* per message id *)
  markedRead : list JSString;                 (* ids that lost the UNREAD label *)
  console : list ConsoleEntry;
  cwd : JSString;                             (* process.cwd() *)
  localTime : JSString;                       (* toLocaleTimeString(...) now *)
  isoDate : JSString                          (* toISOString().split('T')[0] now *)
}.

Definition set_chat (tape : list (Outcome JSString)) (log : list ChatRequest)
           (w : World) : World :=
  {| gptTokenizer := gptTokenizer w; chatTape := tape; chatLog := log;
     ttsTape := ttsTape w; ttsLog := ttsLog w; files := files w;
     mkdirFault := mkdirFault w; writeFault := writeFault w;
     unlinkFault := unlinkFault w; unlinkLog := unlinkLog w;
     ffmpegFault := ffmpegFault w; ffmpegLog := ffmpegLog w;
     markReadFault := markReadFault w; markedRead := markedRead w;
     console := console w; cwd := cwd w; localTime := localTime w;
     isoDate := isoDate w |}.

Definition set_tts (tape : list (Outcome Bytes)) (log : list TTSRequest)
           (w : World) : World :=
  {| gptTokenizer := gptTokenizer w; chatTape := chatTape w; chatLog := chatLog w;
     ttsTape := tape; ttsLog := log; files := files w;
     mkdirFault := mkdirFault w; writeFault := writeFault w;
     unlinkFault := unlinkFault w; unlinkLog := unlinkLog w;
     ffmpegFault := ffmpegFault w; ffmpegLog := ffmpegLog w;
     markReadFault := markReadFault w; markedRead := markedRead w;
     console := console w; cwd := cwd w; localTime := localTime w;
     isoDate := isoDate w |}.

Definition set_files (fs : list (JSString * Bytes)) (w : World) : World :=
  {| gptTokenizer := gptTokenizer w; chatTape := chatTape w; chatLog := chatLog w;
     ttsTape := ttsTape w; ttsLog := ttsLog w; files := fs;
     mkdirFault := mkdirFault w; writeFault := writeFault w;
     unlinkFault := unlinkFault w; unlinkLog := unlinkLog w;
     ffmpegFault := ffmpegFault w; ffmpegLog := ffmpegLog w;
     markReadFault := markReadFault w; markedRead := markedRead w;
     console := console w; cwd := cwd w; localTime := localTime w;
     isoDate := isoDate w |}.

Definition set_unlinkLog (l : list JSString) (w : World) : World :=
  {| gptTokenizer := gptTokenizer w; chatTape := chatTape w; chatLog := chatLog w;
     ttsTape := ttsTape w; ttsLog := ttsLog w; files := files w;
     mkdirFault := mkdirFault w; writeFault := writeFault w;
     unlinkFault := unlinkFault w; unlinkLog := l;
     ffmpegFault := ffmpegFault w; ffmpegLog := ffmpegLog w;
     markReadFault := markReadFault w; markedRead := markedRead w;
     console := console w; cwd := cwd w; localTime := localTime w;
     isoDate := isoDate w |}.

Definition set_ffmpegLog (l : list (list JSString * JSString)) (w : World) : World :=
  {| gptTokenizer := gptTokenizer w; chatTape := chatTape w; chatLog := chatLog w;
     ttsTape := ttsTape w; ttsLog := ttsLog w; files := files w;
     mkdirFault := mkdirFault w; writeFault := writeFault w;
     unlinkFault := unlinkFault w; unlinkLog := unlinkLog w;
     ffmpegFault := ffmpegFault w; ffmpegLog := l;
     markReadFault := markReadFault w; markedRead := markedRead w;
     console := console w; cwd := cwd w; localTime := localTime w;
     isoDate := isoDate w |}.

Definition set_markedRead (l : list JSString) (w : World) : World :=
  {| gptTokenizer := gptTokenizer w; chatTape := chatTape w; chatLog := chatLog w;
     ttsTape := ttsTape w; ttsLog := ttsLog w; files := files w;
     mkdirFault := mkdirFault w; writeFault := writeFault w;
     unlinkFault := unlinkFault w; unlinkLog := unlinkLog w;
     ffmpegFault := ffmpegFault w; ffmpegLog := ffmpegLog w;
     markReadFault := markReadFault w; markedRead := l;
     console := console w; cwd := cwd w; localTime := localTime w;
     isoDate := isoDate w |}.

Definition set_console (c : list ConsoleEntry) (w : World) : World :=
  {| gptTokenizer := gptTokenizer w; chatTape := chatTape w; chatLog := chatLog w;
     ttsTape := ttsTape w; ttsLog := ttsLog w; files := files w;
     mkdirFault := mkdirFault w; writeFault := writeFault w;
     unlinkFault := unlinkFault w; unlinkLog := unlinkLog w;
     ffmpegFault := ffmpegFault w; ffmpegLog := ffmpegLog w;
     markReadFault := markReadFault w; markedRead := markedRead w;
     console := c; cwd := cwd w; localTime := localTime w;
     isoDate := isoDate w |}.

(** *** The monad of asynchronous methods: state and exceptions *)

Definition M (A : Type) : Type := World -> Res A * World.

Definition ret {A} (a : A) : M A := fun w => (Ok a, w).
Definition throw {A} (e : Error) : M A := fun w => (Throw e, w).

Definition bind {A B} (m : M A) (k : A -> M B) : M B :=
  fun w =>
    match m w with
    | (Ok a, w') => k a w'
    | (Throw e, w') => (Throw e, w')
    end.

(** [try { m } catch (error) { h(error) }] *)
Definition tryCatch {A} (m : M A) (h : Error -> M A) : M A :=
  fun w =>
    match m w with
    | (Ok a, w') => (Ok a, w')
    | (Throw e, w') => h e w'
    end.

Declare Scope js_scope.
Delimit Scope js_scope with js.
Notation "'do' x <- m ;; k" := (bind m (fun x => k))
  (at level 10, x name, m at level 100, k at level 200) : js_scope.
Notation "'run' m ;; k" := (bind m (fun _ => k))
  (at level 10, m at level 100, k at level 200) : js_scope.
Open Scope js_scope.

Definition settle {A} (o : Outcome A) : Res A :=
  match o with
  | Resolve a => Ok a
  | Reject r => Throw (Rejection r)
  end.

Definition console_log (text : JSString) : M unit :=
  fun w => (Ok tt, set_console (console w ++ [ConsoleLog text]) w).
Definition console_warn (text : JSString) (err : Error) : M unit :=
  fun w => (Ok tt, set_console (console w ++ [ConsoleWarn text err]) w).
Definition console_error (text : JSString) (err : Error) : M unit :=
  fun w => (Ok tt, set_console (console w ++ [ConsoleError text err]) w).

(** [await import('gpt-tokenizer')] *)
Definition import_gpt_tokenizer : M Tokenizer :=
  fun w => (settle (gptTokenizer w), w).

(** [await this.openai.chat.completions.create(req)], read through
    [response.choices[0].message.content] (taken to be a string).  A call
    beyond the end of the tape is rejected. *)
Definition chat_completions_create (req : ChatRequest) : M JSString :=
  fun w =>
    let w' := set_chat (tl (chatTape w)) (chatLog w ++ [req]) w in
    match chatTape w with
    | o :: _ => (settle o, w')
    | [] => (Throw (Rejection (js "no response")), w')
    end.

(* ================================================================== *)
(** ** Constants of the module *)

Definition TOPIC_CATEGORIES : list JSString :=
  [ js "TECH_NEWS";
    js "BUSINESS";
    js "SECURITY";
    js "PRODUCT_UPDATES";
    js "INDUSTRY_NEWS";
    js "EDUCATIONAL";
    js "OTHER" ].

Definition VOICE_CONFIGS (s : Speaker) : VoiceConfig :=
  match s with
  | host => {| languageCode := js "en-US"; name := js "en-US-Neural2-D";
               ssmlGender := js "MALE" |}
  | guest => {| languageCode := js "en-US"; name := js "en-US-Neural2-F";
                ssmlGender := js "FEMALE" |}
  end.

(** [{ topic, summary }], the value of [summarizeNewsletter]. *)
Record SummaryResult : Type := {
  topic : JSString;
  summary : JSString
}.

(* ================================================================== *)
(** ** class EnhancedNewsletterSummarizer: summarisation *)

Definition maxTokensPerChunk : nat := N.to_nat 15000.

(** [tokens.slice(a, b)] for [0 <= a <= b] *)
Definition slice {A} (l : list A) (a b : nat) : list A :=
  firstn (b - a) (skipn a l).

(** [m[1].trim()]: capture 1 of a match, a [TypeError] if it is
    [undefined]. *)
Definition group1_trim (m : MState) : M JSString :=
  match cap1 m with
  | Some g => ret (trim g)
  | None => throw (TypeError (js "Cannot read properties of undefined (reading 'trim')"))
  end.

Definition chatRequest (systemPrompt userContent : JSString) : ChatRequest :=
  {| model := js "gpt-4o-mini";
     messages := [ {| role := js "system"; content := systemPrompt |};
                   {| role := js "user"; content := userContent |} ];
     temperature_tenths := 7;
     max_tokens := 750 |}.

Definition singlePrompt : JSString :=
  js "Analyze and summarize the newsletter content. First determine the most relevant category from: "
  ++ join (js ", ") TOPIC_CATEGORIES
  ++ js ". Then provide a concise summary focusing on key announcements and insights. Format the response as:"
  ++ LF ++ js "          CATEGORY: [chosen category]"
  ++ LF ++ js "          SUMMARY: [your summary]".

Definition firstChunkPrompt : JSString :=
  js "Analyze the first part of this newsletter content. Determine the most relevant category from: "
  ++ join (js ", ") TOPIC_CATEGORIES
  ++ js " and begin summarizing key points. Format as:"
  ++ LF ++ js "             CATEGORY: [chosen category]"
  ++ LF ++ js "             SUMMARY: [your summary]".

Definition continuationPrompt (isLastChunk : bool) (finalSummary : JSString) : JSString :=
  js "Continue analyzing the "
  ++ (if isLastChunk then js "final" else js "next")
  ++ js " part of the newsletter. Incorporate this into the previous summary. Previous summary context:"
  ++ LF ++ js "             " ++ finalSummary.

(** [async processSingleChunk(content)] *)
Definition processSingleChunk (content : JSString) : M SummaryResult :=
  do result <- chat_completions_create (chatRequest singlePrompt content);;
  let categoryMatch := str_match re_CATEGORY result in
  let summaryMatch := str_match re_SUMMARY result in
  do topic <- match categoryMatch with
           | Some m => do t <- group1_trim m;; ret (toUpperCase t)
           | None => ret (js "OTHER")
           end;;
  do summary <- match summaryMatch with
             | Some m => group1_trim m
             | None => ret result
             end;;
  ret {| topic := topic; summary := summary |}.

(** One pass through the body of the
    [for (let i = 0; i < tokens.length; i += maxTokensPerChunk)] loop of
    [summarizeNewsletter]; the pair is [(finalSummary, currentTopic)]. *)
Definition chunkIteration (encoding : Tokenizer) (tokens : list N) (i : nat)
           (finalSummary currentTopic : JSString) : M (JSString * JSString) :=
  let chunkTokens := slice tokens i (i + maxTokensPerChunk) in
  let chunkContent := decode encoding chunkTokens in
  let isFirstChunk := i =? 0 in
  let isLastChunk := List.length tokens <=? i + maxTokensPerChunk in
  let systemPrompt :=
    if isFirstChunk then firstChunkPrompt
    else continuationPrompt isLastChunk finalSummary in
  do result <- chat_completions_create (chatRequest systemPrompt chunkContent);;
  if isFirstChunk then
    let categoryMatch := str_match re_CATEGORY result in
    do currentTopic' <- match categoryMatch with
                     | Some m => do t <- group1_trim m;; ret (toUpperCase t)
                     | None => ret (js "OTHER")
                     end;;
    let summaryMatch := str_match re_SUMMARY result in
    do finalSummary' <- match summaryMatch with
                     | Some m => group1_trim m
                     | None => ret result
                     end;;
    ret (finalSummary', currentTopic')
  else
    ret (finalSummary ++ LF ++ result, currentTopic).

(** The loop itself; [fuel] bounds the number of iterations. *)
Fixpoint chunkLoop (fuel : nat) (encoding : Tokenizer) (tokens : list N) (i : nat)
         (finalSummary currentTopic : JSString) : M (JSString * JSString) :=
  if i <? List.length tokens then
    match fuel with
    | O => throw FuelExhausted
    | S fuel' =>
        do st <- chunkIteration encoding tokens i finalSummary currentTopic;;
        chunkLoop fuel' encoding tokens (i + maxTokensPerChunk) (fst st) (snd st)
    end
  else ret (finalSummary, currentTopic).

(** [async summarizeNewsletter(emailContent, source)] *)
Definition summarizeNewsletter (emailContent source : JSString) : M SummaryResult :=
  tryCatch
    (do encoding <- import_gpt_tokenizer;;
     do tokens <- (fun w => (settle (encode encoding emailContent), w));;
     if List.length tokens <=? maxTokensPerChunk then
       processSingleChunk emailContent
     else
       run console_log (js "Content exceeds token limit. Processing in chunks ("
                        ++ numberToString (List.length tokens) ++ js " tokens)...");;
       do st <- chunkLoop (List.length tokens) encoding tokens 0 [] [];;
       ret {| topic := snd st; summary := fst st |})
    (fun error =>
       run console_error (js "Error summarizing newsletter:") error;;
       throw error).

(* ================================================================== *)
(** ** runEnhancedSummarizer: the topic buckets *)

(** An element of [newsletters]; [date] is the message's [Date], kept as
    the text it prints as. *)
Record Email : Type := {
  email_id : JSString;
  subject : JSString;
  from : JSString;
  body : JSString;
  date : JSString
}.

(** What is pushed on a bucket. *)
Record Item : Type := {
  item_subject : JSString;
  item_from : JSString;
  item_date : JSString;
  item_summary : JSString
}.

(** [summariesByTopic]: the own properties of the object in
    [Object.entries] order, which for keys that are not array indices (no
    category is) is the order in which they were created. *)
Definition Buckets := list (JSString * list Item).

(** [obj[key]]: [None] is [undefined]. *)
Fixpoint obj_get (obj : Buckets) (key : JSString) : option (list Item) :=
  match obj with
  | [] => None
  | (k, v) :: obj' => if JS.eqb k key then Some v else obj_get obj' key
  end.

(** [obj[key] = v]: an existing property keeps its place. *)
Fixpoint obj_set (obj : Buckets) (key : JSString) (v : list Item) : Buckets :=
  match obj with
  | [] => [(key, v)]
  | (k, v0) :: obj' =>
      if JS.eqb k key then (k, v) :: obj' else (k, v0) :: obj_set obj' key v
  end.

(** [TOPIC_CATEGORIES.forEach(topic => { summariesByTopic[topic] = []; })]
    on [summariesByTopic = {}] *)
Definition initBuckets : Buckets :=
  fold_left (fun summariesByTopic topic => obj_set summariesByTopic topic [])
            TOPIC_CATEGORIES [].

(** [summariesByTopic[topic].push({ subject, from, date, summary })]: the
    array held under [topic] grows in place; a [TypeError] when there is
    no such property. *)
Definition pushSummary (summariesByTopic : Buckets) (email : Email)
           (r : SummaryResult) : Res Buckets :=
  match obj_get summariesByTopic (topic r) with
  | Some arr =>
      Ok (obj_set summariesByTopic (topic r)
            (arr ++ [ {| item_subject := subject email;
                         item_from := from email;
                         item_date := date email;
                         item_summary := summary r |} ]))
  | None =>
      Throw (TypeError (js "Cannot read properties of undefined (reading 'push')"))
  end.

(** The bucket loop of [runEnhancedSummarizer], given for each newsletter
    the value its [summarizeNewsletter] call resolved to. *)
Fixpoint aggregateFrom (summariesByTopic : Buckets)
         (results : list (Email * SummaryResult)) : Res Buckets :=
  match results with
  | [] => Ok summariesByTopic
  | (email, r) :: results' =>
      match pushSummary summariesByTopic email r with
      | Ok summariesByTopic' => aggregateFrom summariesByTopic' results'
      | Throw e => Throw e
      end
  end.

Definition aggregate (results : list (Email * SummaryResult)) : Res Buckets :=
  aggregateFrom initBuckets results.

(** [await this.gmail.users.messages.modify({ ..., removeLabelIds: ['UNREAD'] })] *)
Definition gmail_messages_modify (messageId : JSString) : M unit :=
  fun w =>
    match markReadFault w messageId with
    | Some reason => (Throw (Rejection reason), w)
    | None => (Ok tt, set_markedRead (markedRead w ++ [messageId]) w)
    end.

(** [async markEmailAsRead(messageId)] *)
Definition markEmailAsRead (messageId : JSString) : M unit :=
  tryCatch
    (run gmail_messages_modify messageId;;
     console_log (js "Marked email " ++ messageId ++ js " as read"))
    (fun error =>
       run console_error (js "Error marking email " ++ messageId ++ js " as read:") error;;
       throw error).

(** [for (const email of newsletters) { ... }] of [runEnhancedSummarizer],
    with the calls it awaits. *)
Fixpoint bucketLoop (newsletters : list Email) (summariesByTopic : Buckets)
  : M Buckets :=
  match newsletters with
  | [] => ret summariesByTopic
  | email :: newsletters' =>
      run console_log (LF ++ js "Processing: " ++ subject email);;
      do r <- summarizeNewsletter (body email) (from email);;
      run console_log (js "Classified as: " ++ topic r);;
      do summariesByTopic' <- (fun w => (pushSummary summariesByTopic email r, w));;
      run markEmailAsRead (email_id email);;
      bucketLoop newsletters' summariesByTopic'
  end.

(** Lines 567 to 592 of [runEnhancedSummarizer]: the buckets are made and
    filled. *)
Definition processNewsletters (newsletters : list Email) : M Buckets :=
  run console_log (LF ++ js "Processing newsletters...");;
  bucketLoop newsletters initBuckets.

(* ================================================================== *)
(** ** createSpeechScript *)

Record ScriptLine : Type := {
  speaker : Speaker;
  text : JSString
}.

Definition line (s : Speaker) (t : JSString) : ScriptLine :=
  {| speaker := s; text := t |}.

(** [summaryParts[0]] inside a template literal *)
Definition part0 (summaryParts : list JSString) : JSString :=
  match summaryParts with
  | p :: _ => p
  | [] => js "undefined"
  end.

(** The body of [summaries.forEach((item, index) => ...)]. *)
Definition itemLines (summaries_length : nat) (item : Item) (index : nat)
  : list ScriptLine :=
  let summaryParts := split re_sentence_gap (item_summary item) in
  [ line guest (js "From " ++ item_from item ++ js ", we have " ++ part0 summaryParts) ]
  ++ (if 1 <? List.length summaryParts then
        [ line host (js "That's interesting! What else did they mention?");
          line guest (join (js " ") (skipn 1 summaryParts)) ]
      else [])
  ++ (if index <? summaries_length - 1 then
        [ line host (js "What other updates do we have in this area?") ]
      else []).

Fixpoint forEachItem (summaries_length : nat) (index : nat) (items : list Item)
  : list ScriptLine :=
  match items with
  | [] => []
  | item :: items' =>
      itemLines summaries_length item index
      ++ forEachItem summaries_length (S index) items'
  end.

(** The body of [.forEach(([topic, summaries]) => ...)]. *)
Definition topicLines (entry : JSString * list Item) : list ScriptLine :=
  let (topic, summaries) := entry in
  let topicName := replaceUnderscores (toLowerCase topic) in
  line host (js "Let's dive into " ++ topicName
             ++ js ". What are the key updates in this area?")
  :: forEachItem (List.length summaries) 0 summaries.

Definition openingLines (timeNow : JSString) : list ScriptLine :=
  [ line host (js "Welcome to your daily newsletter roundup! It's " ++ timeNow
               ++ js ", and I'm here with our expert analyst to break down today's key stories.");
    line guest (js "Thanks for having me! I've reviewed all the newsletters, and we've got some interesting developments to discuss.") ].

Definition closingLines : list ScriptLine :=
  [ line host (js "That wraps up our newsletter summary for today. Any final thoughts?");
    line guest (js "Thanks for breaking this down with me. Remember to check the email summary for more details on any stories that caught your interest.");
    line host (js "Thanks for listening, and we'll catch you in the next summary!") ].

(** [createSpeechScript(summariesByTopic)]; [timeNow] is the clock reading
    the method starts with. *)
Definition createSpeechScript (timeNow : JSString) (summariesByTopic : Buckets)
  : list ScriptLine :=
  openingLines timeNow
  ++ flat_map topicLines
       (filter (fun entry => 0 <? List.length (snd entry)) summariesByTopic)
  ++ closingLines.

(* ================================================================== *)
(** ** generateAudioSummary *)

(** [path.join(dir, file)] for a normalised directory [dir] and a plain
    file name. *)
Definition path_join (dir file : JSString) : JSString :=
  match rev dir with
  | 47%N :: _ => dir ++ file
  | _ => dir ++ js "/" ++ file
  end.

(** [await fsPromises.mkdir(dir, { recursive: true })] *)
Definition fs_mkdir (dir : JSString) : M unit :=
  fun w =>
    match mkdirFault w with
    | Some reason => (Throw (Rejection reason), w)
    | None => (Ok tt, w)
    end.

Definition remove_file (p : JSString) (fs : list (JSString * Bytes))
  : list (JSString * Bytes) :=
  filter (fun f => negb (JS.eqb (fst f) p)) fs.

Definition file_exists (p : JSString) (fs : list (JSString * Bytes)) : bool :=
  existsb (fun f => JS.eqb (fst f) p) fs.

(** The file system after [data] has been written to [p]. *)
Definition writeTo (fs : list (JSString * Bytes)) (pd : JSString * Bytes)
  : list (JSString * Bytes) :=
  remove_file (fst pd) fs ++ [pd].

(** [await fsPromises.writeFile(p, data, 'binary')] *)
Definition fs_writeFile (p : JSString) (data : Bytes) : M unit :=
  fun w =>
    match writeFault w p with
    | Some reason => (Throw (Rejection reason), w)
    | None => (Ok tt, set_files (writeTo (files w) (p, data)) w)
    end.

(** [await fsPromises.unlink(p)] *)
Definition fs_unlink (p : JSString) : M unit :=
  fun w =>
    let w1 := set_unlinkLog (unlinkLog w ++ [p]) w in
    match unlinkFault w p with
    | Some reason => (Throw (Rejection reason), w1)
    | None =>
        if file_exists p (files w)
        then (Ok tt, set_files (remove_file p (files w)) w1)
        else (Throw (Rejection (js "ENOENT")), w1)
    end.

(** [const [response] = await this.ttsClient.synthesizeSpeech(request)],
    read through [response.audioContent]. *)
Definition tts_synthesizeSpeech (request : TTSRequest) : M Bytes :=
  fun w =>
    let w' := set_tts (tl (ttsTape w)) (ttsLog w ++ [request]) w in
    match ttsTape w with
    | o :: _ => (settle o, w')
    | [] => (Throw (Rejection (js "no response")), w')
    end.

Fixpoint file_content (p : JSString) (fs : list (JSString * Bytes)) : Bytes :=
  match fs with
  | [] => []
  | (q, data) :: fs' => if JS.eqb q p then data else file_content p fs'
  end.

(** The ffmpeg command built in [generateAudioSummary]: the inputs in the
    order of the [input] calls, the audio-only [concat] filter, [save];
    [Ok] is the [end] event, [Throw] the [error] event.  A run that ends
    has written the inputs' contents, in order, to [output]. *)
Definition ffmpeg_concat (inputs : list JSString) (output : JSString) : M unit :=
  fun w =>
    let w1 := set_ffmpegLog (ffmpegLog w ++ [(inputs, output)]) w in
    match ffmpegFault w with
    | Some reason => (Throw (Rejection reason), w1)
    | None =>
        (Ok tt,
         set_files (writeTo (files w)
                      (output, flat_map (fun p => file_content p (files w)) inputs))
                   w1)
    end.

Definition ttsRequest (segment : ScriptLine) : TTSRequest :=
  {| input_text := text segment;
     voice := VOICE_CONFIGS (speaker segment);
     audioEncoding := js "MP3";
     speakingRate_tenths := match speaker segment with host => 11 | guest => 10 end;
     pitch_tenths := match speaker segment with host => 10 | guest => 9 end |}.

Definition segmentPath (audioDir : JSString) (index : nat) : JSString :=
  path_join audioDir (js "segment_" ++ numberToString index ++ js ".mp3").

(** [for (const [index, segment] of speechScript.entries()) { ... }];
    [segments] are the lines from [index] on, [audioPaths] the paths
    pushed so far. *)
Fixpoint synthesizeLoop (audioDir : JSString) (script_length : nat) (index : nat)
         (segments : list ScriptLine) (audioPaths : list JSString)
  : M (list JSString) :=
  match segments with
  | [] => ret audioPaths
  | segment :: segments' =>
      run console_log (js "Processing segment " ++ numberToString (index + 1)
                       ++ js "/" ++ numberToString script_length);;
      do response <- tts_synthesizeSpeech (ttsRequest segment);;
      let segmentPath := segmentPath audioDir index in
      run fs_writeFile segmentPath response;;
      synthesizeLoop audioDir script_length (S index) segments'
                     (audioPaths ++ [segmentPath])
  end.

(** [for (const audioPath of audioPaths) { try { await unlink } catch { warn } }] *)
Fixpoint cleanupLoop (audioPaths : list JSString) : M unit :=
  match audioPaths with
  | [] => ret tt
  | audioPath :: audioPaths' =>
      run tryCatch (fs_unlink audioPath)
                   (fun err =>
                      console_warn (js "Warning: Could not delete temporary file "
                                    ++ audioPath ++ js ":") err);;
      cleanupLoop audioPaths'
  end.

(** The promise around the ffmpeg command: the [end] handler cleans up and
    resolves, the [error] handler rejects. *)
Definition mergeSegments (audioPaths : list JSString) (finalAudioPath : JSString)
  : M unit :=
  run tryCatch
        (ffmpeg_concat audioPaths finalAudioPath)
        (fun err =>
           run console_error (js "Error merging audio files:") err;;
           throw err);;
  run console_log (js "Audio merge complete");;
  cleanupLoop audioPaths.

(** [async generateAudioSummary(summariesByTopic)] *)
Definition generateAudioSummary (summariesByTopic : Buckets) : M JSString :=
  tryCatch
    (fun w0 =>
       (let speechScript := createSpeechScript (localTime w0) summariesByTopic in
        run console_log (js "Generating audio...");;
        let audioDir := path_join (cwd w0) (js "audio") in
        run fs_mkdir audioDir;;
        do audioPaths <- synthesizeLoop audioDir (List.length speechScript) 0 speechScript [];;
        let finalAudioPath :=
          path_join audioDir (js "newsletter-summary-" ++ isoDate w0 ++ js ".mp3") in
        run console_log (js "Merging audio segments...");;
        run mergeSegments audioPaths finalAudioPath;;
        run console_log (js "Final audio saved to: " ++ finalAudioPath);;
        ret finalAudioPath) w0)
    (fun error =>
       run console_error (js "Error generating audio summary:") error;;
       throw error).

(* ================================================================== *)
(** ** Vocabulary of the specification *)

(** [l] is at the front of [s], letters compared as the [i] flag does. *)
Fixpoint prefix_i (l s : JSString) : bool :=
  match l, s with
  | [], _ => true
  | c :: l', x :: s' => chr_i c x && prefix_i l' s'
  | _ :: _, [] => false
  end.

(** [s] contains the marker [l] (in any letter case). *)
Fixpoint includes_i (l s : JSString) : bool :=
  prefix_i l s ||
  match s with
  | [] => false
  | _ :: s' => includes_i l s'
  end.

(** A period immediately followed by white space occurs in [s]. *)
Fixpoint hasSentenceGap (s : JSString) : bool :=
  match s with
  | c :: ((d :: _) as s') => (class_dot c && isSpace d) || hasSentenceGap s'
  | _ => false
  end.

(** The category and the summary the two patterns read off one model
    response, as both [processSingleChunk] and the first iteration of
    [summarizeNewsletter] compute them. *)
Definition parseCategory (result : JSString) : Res JSString :=
  match str_match re_CATEGORY result with
  | Some m =>
      match cap1 m with
      | Some g => Ok (toUpperCase (trim g))
      | None => Throw (TypeError (js "Cannot read properties of undefined (reading 'trim')"))
      end
  | None => Ok (js "OTHER")
  end.

Definition parseSummary (result : JSString) : Res JSString :=
  match str_match re_SUMMARY result with
  | Some m =>
      match cap1 m with
      | Some g => Ok (trim g)
      | None => Throw (TypeError (js "Cannot read properties of undefined (reading 'trim')"))
      end
  | None => Ok result
  end.

(** The running summary after one more continuation response. *)
Definition appendLine (finalSummary result : JSString) : JSString :=
  finalSummary ++ LF ++ result.

Definition isKnownCategory (t : JSString) : bool :=
  existsb (JS.eqb t) TOPIC_CATEGORIES.

(** The bucket item made from an email and its result. *)
Definition itemOf (p : Email * SummaryResult) : Item :=
  {| item_subject := subject (fst p);
     item_from := from (fst p);
     item_date := date (fst p);
     item_summary := summary (snd p) |}.

(** The inputs classified to [tag], in input order. *)
Definition classifiedTo (tag : JSString) (results : list (Email * SummaryResult))
  : list (Email * SummaryResult) :=
  filter (fun p => JS.eqb (topic (snd p)) tag) results.

(** [s.startsWith(p)] *)
Fixpoint startsWith (p s : JSString) : bool :=
  match p, s with
  | [], _ => true
  | c :: p', x :: s' => (c =? x)%N && startsWith p' s'
  | _ :: _, [] => false
  end.

(** A host line that opens a topic. *)
Definition isTopicTransition (l : ScriptLine) : bool :=
  match speaker l with
  | host => startsWith (js "Let's dive into ") (text l)
  | guest => false
  end.

Definition isGuestLine (l : ScriptLine) : bool :=
  match speaker l with
  | guest => true
  | host => false
  end.

(** The pattern of the sentence split matches at a position: the code
    unit before it is a period and the one at it is white space. *)
Definition gapAt (pv : option N) (s : JSString) : bool :=
  match pv, s with
  | Some x, c :: _ => class_dot x && isSpace c
  | _, _ => false
  end.

Definition isEmptyBucket (entry : JSString * list Item) : bool :=
  match snd entry with
  | [] => true
  | _ :: _ => false
  end.

(** What no step of the program changes: the faults the environment holds
    in store, the working directory and the clock readings. *)
Definition sameEnvironment (w w' : World) : Prop :=
  mkdirFault w' = mkdirFault w
  /\ writeFault w' = writeFault w
  /\ unlinkFault w' = unlinkFault w
  /\ ffmpegFault w' = ffmpegFault w
  /\ cwd w' = cwd w
  /\ isoDate w' = isoDate w
  /\ localTime w' = localTime w.

(** The text of the warning about a segment file that could not be
    deleted. *)
Definition unlinkWarning (audioPath : JSString) : JSString :=
  js "Warning: Could not delete temporary file " ++ audioPath ++ js ":".

(** The script, the audio directory, the segment paths and the artifact
    path of a run of [generateAudioSummary] started in [w]. *)
Definition speechScriptOf (w : World) (summariesByTopic : Buckets) : list ScriptLine :=
  createSpeechScript (localTime w) summariesByTopic.

Definition audioDirOf (w : World) : JSString := path_join (cwd w) (js "audio").

Definition segmentPathsOf (w : World) (summariesByTopic : Buckets) : list JSString :=
  map (segmentPath (audioDirOf w))
      (seq 0 (List.length (speechScriptOf w summariesByTopic))).

Definition finalAudioPathOf (w : World) : JSString :=
  path_join (audioDirOf w) (js "newsletter-summary-" ++ isoDate w ++ js ".mp3").

(** The synthesis phase goes through: the directory can be made, every
    write succeeds, and the speech service answers each of the script's
    lines, with [audios] in this order. *)
Definition synthesisResolves (w : World) (summariesByTopic : Buckets)
           (audios : list Bytes) (tape' : list (Outcome Bytes)) : Prop :=
  mkdirFault w = None
  /\ (forall p, writeFault w p = None)
  /\ ttsTape w = map Resolve audios ++ tape'
  /\ List.length audios = List.length (speechScriptOf w summariesByTopic).

(** Whether a captured group is present in a regular expression. *)
Fixpoint captures (r : Regex) : bool :=
  match r with
  | Group _ => true
  | Seq a b => captures a || captures b
  | _ => false
  end.

(** A tokenizer for examples: one token per code unit. *)
Definition unitTokenizer : Tokenizer :=
  {| encode := fun s => Resolve s; decode := fun t => t |}.

(** Worlds for examples: empty logs, no files, the given service tapes and
    the given faults of ffmpeg and of [unlink]. *)
Definition exampleWorldWith (chat : list (Outcome JSString))
           (tts : list (Outcome Bytes)) (ffmpeg : option JSString)
           (unlink : JSString -> option JSString) : World :=
  {| gptTokenizer := Resolve unitTokenizer;
     chatTape := chat; chatLog := [];
     ttsTape := tts; ttsLog := [];
     files := [];
     mkdirFault := None;
     writeFault := fun _ => None;
     unlinkFault := unlink;
     unlinkLog := [];
     ffmpegFault := ffmpeg; ffmpegLog := [];
     markReadFault := fun _ => None; markedRead := [];
     console := [];
     cwd := js "/home/app";
     localTime := js "9:05 AM";
     isoDate := js "2024-05-17" |}.

Definition exampleWorld (chat : list (Outcome JSString)) (tts : list (Outcome Bytes))
  : World :=
  exampleWorldWith chat tts None (fun _ => None).

(** [unlink] is refused for the second segment file only. *)
Definition segment1Busy (p : JSString) : option JSString :=
  if JS.eqb p (js "/home/app/audio/segment_1.mp3") then Some (js "EBUSY") else None.

(* ================================================================== *)
(** ** truncateContent *)

(** [async function truncateContent(content, maxTokens = 15000)].  The
    function reads the outcome of [import('gpt-tokenizer')], here [gpt],
    and writes the console: the texts it gives to [console.warn] are
    returned beside its result.  [maxTokens = None] is the call without a
    second argument. *)
Definition truncateContent (gpt : Outcome Tokenizer) (content : JSString)
           (maxTokens : option nat) : Res JSString * list JSString :=
  let maxTokens := match maxTokens with
                   | Some n => n
                   | None => N.to_nat 15000
                   end in
  let attempt : Res JSString :=
    match settle gpt with
    | Ok encoding =>
        match settle (encode encoding content) with
        | Ok tokens =>
            if maxTokens <? List.length tokens then
              let truncatedTokens := slice tokens 0 maxTokens in
              Ok (decode encoding truncatedTokens)
            else Ok content
        | Throw error => Throw error
        end
    | Throw error => Throw error
    end in
  match attempt with
  | Ok r => (Ok r, [])
  | Throw _ =>
      (Ok (slice content 0 (maxTokens * 4)),
       [js "Token counting failed, falling back to character-based truncation"])
  end.

(* ================================================================== *)
(** ** More vocabulary *)

(** A code unit a returned topic can be made of: [A] to [Z], or [_]. *)
Definition isTopicChar (c : N) : bool := isUpperAZ c || (c =? 95)%N.

Definition otherSpeaker (s : Speaker) : Speaker :=
  match s with
  | host => guest
  | guest => host
  end.

Definition speaker_eqb (a b : Speaker) : bool :=
  match a, b with
  | host, host | guest, guest => true
  | _, _ => false
  end.

(** The lines are spoken in turn, [first] speaking first. *)
Fixpoint alternates (first : Speaker) (l : list ScriptLine) : bool :=
  match l with
  | [] => true
  | x :: l' => speaker_eqb (speaker x) first && alternates (otherSpeaker first) l'
  end.

(** All the items of the buckets, bucket after bucket. *)
Definition allItems (summariesByTopic : Buckets) : list Item :=
  List.concat (map snd summariesByTopic).

(** The [content] of the message of a request with the given [role]. *)
Definition messageOf (r : JSString) (req : ChatRequest) : JSString :=
  match find (fun m => JS.eqb (role m) r) (messages req) with
  | Some m => content m
  | None => []
  end.

(** The tokens of the chunk number [k] (from 0). *)
Definition chunkTokensAt (tokens : list N) (k : nat) : list N :=
  slice tokens (k * maxTokensPerChunk) (k * maxTokensPerChunk + maxTokensPerChunk).

(** The requests the loop of [summarizeNewsletter] makes from index [i] on,
    [i > 0], when the running summary is [finalSummary] and the coming
    responses are [rs]. *)
Fixpoint continuationRequests (encoding : Tokenizer) (tokens : list N) (i : nat)
         (finalSummary : JSString) (rs : list JSString) : list ChatRequest :=
  match rs with
  | [] => []
  | r :: rs' =>
      chatRequest
        (continuationPrompt (List.length tokens <=? i + maxTokensPerChunk) finalSummary)
        (decode encoding (slice tokens i (i + maxTokensPerChunk)))
      :: continuationRequests encoding tokens (i + maxTokensPerChunk)
           (appendLine finalSummary r) rs'
  end.

(** [w'] differs from [w] at most in the chat service (its tape and log)
    and in the console. *)
Definition sameBesidesChat (w w' : World) : Prop :=
  gptTokenizer w' = gptTokenizer w
  /\ ttsTape w' = ttsTape w
  /\ ttsLog w' = ttsLog w
  /\ files w' = files w
  /\ unlinkLog w' = unlinkLog w
  /\ ffmpegLog w' = ffmpegLog w
  /\ markReadFault w' = markReadFault w
  /\ markedRead w' = markedRead w
  /\ sameEnvironment w w'.

(* ================================================================== *)
(** ** runEnhancedSummarizer: from the newsletters to the audio *)

(** Lines 567 to 596 of [runEnhancedSummarizer]: the buckets are filled,
    then the audio summary is generated from them. *)
Definition summarizeAndNarrate (newsletters : list Email) : M (Buckets * JSString) :=
  do summariesByTopic <- processNewsletters newsletters;;
  run console_log (LF ++ js "Generating audio summary...");;
  do audioFilePath <- generateAudioSummary summariesByTopic;;
  run console_log (js "Audio summary generated: " ++ audioFilePath);;
  ret (summariesByTopic, audioFilePath).

(** [w'] differs from [w] neither in the chat service nor in the read
    marks. *)
Definition sameChatAndMarks (w w' : World) : Prop :=
  chatTape w' = chatTape w
  /\ chatLog w' = chatLog w
  /\ markedRead w' = markedRead w
  /\ markReadFault w' = markReadFault w.

(* ================================================================== *)
(** ** fetchUnreadEmails and extractEmailBody *)

Definition EXCLUDED_SENDERS : list JSString := [js "ByteByteGo"; js "HuggingFace"].

(** [hay.includes(needle)] *)
Fixpoint includes (needle hay : JSString) : bool :=
  startsWith needle hay ||
  match hay with
  | [] => false
  | _ :: hay' => includes needle hay'
  end.

Record Header : Type := {
  header_name : JSString;
  header_value : JSString
}.

(** A part of a payload: [mimeType] and [body.data] ([None] is
    [undefined]). *)
Record Part : Type := {
  mimeType : JSString;
  part_data : option JSString
}.

(** [email.data.payload]: [parts] is [None] when the property is
    [undefined], [payload_data] is [payload.body.data]. *)
Record Payload : Type := {
  headers : list Header;
  parts : option (list Part);
  payload_data : option JSString
}.

(** [email.data]; [internalDate] is kept as its text. *)
Record Message : Type := {
  payload : Payload;
  internalDate : JSString
}.

(** An element of the array [fetchUnreadEmails] returns; a header that is
    not there leaves [subject] or [from] [undefined] ([None]). *)
Record Newsletter : Type := {
  newsletter_id : JSString;
  newsletter_subject : option JSString;
  newsletter_from : option JSString;
  newsletter_body : JSString;
  newsletter_date : JSString
}.

(** A string or [undefined] used as a condition: true for a non-empty
    string. *)
Definition truthy (d : option JSString) : bool :=
  match d with
  | Some (_ :: _) => true
  | _ => false
  end.

(** [headers.find(h => h.name === name)?.value] *)
Definition headerValue (name : JSString) (hs : list Header) : option JSString :=
  option_map header_value (find (fun h => JS.eqb (header_name h) name) hs).

(** [EXCLUDED_SENDERS.some(sender => from?.includes(sender))] *)
Definition isExcluded (from : option JSString) : bool :=
  existsb (fun sender =>
             match from with
             | Some f => includes sender f
             | None => false
             end) EXCLUDED_SENDERS.

(** The mail service as [fetchUnreadEmails] sees it: what [messages.list]
    will answer, the answers of the coming [messages.get] calls, next call
    first, the calls received, the console, and the clock reading
    [Math.floor(pastDate.getTime() / 1000)] for each [daysBack]. *)
Record Mailbox : Type := {
  listOutcome : Outcome (option (list JSString));
  getTape : list (Outcome Message);
  listLog : list (JSString * nat);
  getLog : list JSString;
  mailConsole : list ConsoleEntry;
  secondsDaysAgo : nat -> nat
}.

Definition mail_log (entry : ConsoleEntry) (g : Mailbox) : Mailbox :=
  {| listOutcome := listOutcome g; getTape := getTape g; listLog := listLog g;
     getLog := getLog g; mailConsole := mailConsole g ++ [entry];
     secondsDaysAgo := secondsDaysAgo g |}.

(** [await this.gmail.users.messages.get({ userId: 'me', id, format: 'full' })] *)
Definition gmail_messages_get (id : JSString) (g : Mailbox) : Res Message * Mailbox :=
  let g' := {| listOutcome := listOutcome g; getTape := tl (getTape g);
               listLog := listLog g; getLog := getLog g ++ [id];
               mailConsole := mailConsole g; secondsDaysAgo := secondsDaysAgo g |} in
  match getTape g with
  | o :: _ => (settle o, g')
  | [] => (Throw (Rejection (js "no response")), g')
  end.

(** [await this.gmail.users.messages.list({ userId: 'me', q, maxResults })],
    read through [response.data.messages]. *)
Definition gmail_messages_list (q : JSString) (maxResults : nat) (g : Mailbox)
  : Res (option (list JSString)) * Mailbox :=
  (settle (listOutcome g),
   {| listOutcome := listOutcome g; getTape := getTape g;
      listLog := listLog g ++ [(q, maxResults)]; getLog := getLog g;
      mailConsole := mailConsole g; secondsDaysAgo := secondsDaysAgo g |}).

Section Mail.

(** [Buffer.from(data, 'base64').toString()] *)
Variable fromBase64 : JSString -> JSString.

(** The [for (const part of payload.parts)] loop of [extractEmailBody]. *)
Fixpoint firstPlainPart (ps : list Part) : option JSString :=
  match ps with
  | [] => None
  | part :: ps' =>
      if JS.eqb (mimeType part) (js "text/plain") && truthy (part_data part)
      then option_map fromBase64 (part_data part)
      else firstPlainPart ps'
  end.

(** [async extractEmailBody(payload)]; [None] is [null]. *)
Definition extractEmailBody (p : Payload) : option JSString :=
  match parts p with
  | Some ps => firstPlainPart ps
  | None =>
      if truthy (payload_data p) then option_map fromBase64 (payload_data p)
      else None
  end.

(** The [for (const message of messages)] loop of [fetchUnreadEmails]. *)
Fixpoint fetchLoop (messages : list JSString) (emails : list Newsletter)
         (g : Mailbox) : Res (list Newsletter) * Mailbox :=
  match messages with
  | [] => (Ok emails, g)
  | id :: messages' =>
      match gmail_messages_get id g with
      | (Throw e, g1) => (Throw e, g1)
      | (Ok email, g1) =>
          let hs := headers (payload email) in
          let subject := headerValue (js "Subject") hs in
          let from := headerValue (js "From") hs in
          if isExcluded from then
            fetchLoop messages' emails
              (mail_log (ConsoleLog (js "Skipping excluded sender: "
                                     ++ match from with Some f => f | None => js "undefined" end))
                        g1)
          else
            let body := extractEmailBody (payload email) in
            if truthy body then
              fetchLoop messages'
                (emails ++ [ {| newsletter_id := id;
                                newsletter_subject := subject;
                                newsletter_from := from;
                                newsletter_body := match body with Some b => b | None => [] end;
                                newsletter_date := internalDate email |} ])
                g1
            else fetchLoop messages' emails g1
      end
  end.

(** [async fetchUnreadEmails(maxResults, daysBack)] *)
Definition fetchUnreadEmails (maxResults daysBack : nat) (g : Mailbox)
  : Res (list Newsletter) * Mailbox :=
  let dateQuery := js "after:" ++ numberToString (secondsDaysAgo g daysBack) in
  let query := js "is:unread " ++ dateQuery in
  let g0 := mail_log (ConsoleLog (js "Search query: " ++ query)) g in
  let attempt :=
    match gmail_messages_list query maxResults g0 with
    | (Throw e, g1) => (Throw e, g1)
    | (Ok response, g1) =>
        let messages := match response with Some l => l | None => [] end in
        fetchLoop messages [] g1
    end in
  match attempt with
  | (Ok emails, g') => (Ok emails, g')
  | (Throw error, g') =>
      (Throw error, mail_log (ConsoleError (js "Error fetching emails:") error) g')
  end.

End Mail.

(** [a] can be obtained from [b] by leaving elements out. *)
Fixpoint isSubsequence (a b : list JSString) : bool :=
  match a, b with
  | [], _ => true
  | _ :: _, [] => false
  | x :: a', y :: b' =>
      if JS.eqb x y then isSubsequence a' b' else isSubsequence a b'
  end.

(** No excluded sender occurs in the [From] header. *)
Definition notExcluded (from : option JSString) : Prop :=
  forall f sender, from = Some f -> In sender EXCLUDED_SENDERS -> includes sender f = false.

(* ================================================================== *)
(** ** Strings and patterns: lemmas *)

Lemma eqb_refl (a : JSString) : JS.eqb a a = true.
Proof.
  induction a as [|x a IH]; simpl; [reflexivity|].
  now rewrite N.eqb_refl, IH.
Qed.

Lemma eqb_eq (a b : JSString) : JS.eqb a b = true <-> a = b.
Proof.
  split.
  - revert b; induction a as [|x a IH]; intros [|y b]; simpl; try discriminate; auto.
    intros H. apply andb_true_iff in H as [Hx Hab].
    apply N.eqb_eq in Hx. apply IH in Hab. now subst.
  - intros ->. apply eqb_refl.
Qed.

Lemma eqb_neq (a b : JSString) : JS.eqb a b = false <-> a <> b.
Proof.
  split.
  - intros H E. apply eqb_eq in E. congruence.
  - intros H. destruct (JS.eqb a b) eqn:E; [|reflexivity].
    apply eqb_eq in E. contradiction.
Qed.

Lemma eqb_sym (a b : JSString) : JS.eqb a b = JS.eqb b a.
Proof.
  destruct (JS.eqb b a) eqn:E.
  - apply eqb_eq in E. subst. apply eqb_refl.
  - apply eqb_neq. apply eqb_neq in E. congruence.
Qed.

(** Every result of the matcher is a result of its continuation, and the
    capture is set by then if the pattern has a group or it was set
    before. *)
Lemma star_inv (p : N -> bool) (k : Cont) :
  forall s pv c1 m,
    star p k pv s c1 = Some m ->
    exists pv' s', k (mkMState pv' s' c1) = Some m.
Proof.
  induction s as [|c t IH]; intros pv c1 m H; simpl in H.
  - eauto.
  - destruct (p c); [|eauto].
    destruct (star p k (Some c) t c1) eqn:E.
    + inversion H; subst. eapply IH; eauto.
    + eauto.
Qed.

Lemma rmatch_inv :
  forall r st k m,
    rmatch r st k = Some m ->
    exists st', k st' = Some m /\
                (captures r = true \/ cap1 st <> None -> cap1 st' <> None).
Proof.
  induction r as [p|a IHa b IHb|p|p|r IH|p]; intros st k m H; simpl in H.
  - destruct (rest st) as [|c t]; [discriminate|].
    destruct (p c); [|discriminate].
    eexists; split; [exact H|]. simpl. intros [F|F]; [discriminate|exact F].
  - apply IHa in H as (st1 & H1 & C1).
    apply IHb in H1 as (st2 & H2 & C2).
    exists st2; split; [exact H2|]. simpl.
    intros [F|F].
    + apply orb_true_iff in F as [F|F]; auto.
    + auto.
  - apply star_inv in H as (pv' & s' & H).
    eexists; split; [exact H|]. simpl. intros [F|F]; [discriminate|exact F].
  - destruct (rest st) as [|c t]; [discriminate|].
    destruct (p c); [|discriminate].
    apply star_inv in H as (pv' & s' & H).
    eexists; split; [exact H|]. simpl. intros [F|F]; [discriminate|exact F].
  - apply IH in H as (st1 & H1 & _).
    eexists; split; [exact H1|]. simpl. intros _. discriminate.
  - destruct (prev st) as [c|]; [|discriminate].
    destruct (p c); [|discriminate].
    exists st; split; [exact H|]. intros [F|F]; [discriminate|exact F].
Qed.

Lemma exec_captures (re : Regex) :
  captures re = true ->
  forall s pv m, exec re pv s = Some m -> cap1 m <> None.
Proof.
  intros Hc. induction s as [|c t IH]; intros pv m H; simpl in H.
  - destruct (matchAt re pv []) eqn:E; [|discriminate].
    inversion H; subst. unfold matchAt in E.
    apply rmatch_inv in E as (st' & E & C). inversion E; subst. auto.
  - destruct (matchAt re pv (c :: t)) eqn:E.
    + inversion H; subst. unfold matchAt in E.
      apply rmatch_inv in E as (st' & E & C). inversion E; subst. auto.
    + eapply IH; eauto.
Qed.

Lemma rmatch_lit_prefix (l : JSString) (r : Regex) :
  forall st k m,
    rmatch (lit_i l r) st k = Some m -> prefix_i l (rest st) = true.
Proof.
  induction l as [|c l IH]; intros st k m H; [reflexivity|].
  simpl in H. destruct (rest st) as [|x t] eqn:E; [discriminate|].
  simpl. destruct (chr_i c x); [|discriminate].
  simpl. apply IH in H. exact H.
Qed.

Lemma exec_lit_includes (l : JSString) (r : Regex) :
  forall s pv m, exec (lit_i l r) pv s = Some m -> includes_i l s = true.
Proof.
  induction s as [|c t IH]; intros pv m H; simpl in H.
  - destruct (matchAt (lit_i l r) pv []) eqn:E; [|discriminate].
    apply rmatch_lit_prefix in E. simpl in E. simpl. now rewrite E.
  - destruct (matchAt (lit_i l r) pv (c :: t)) eqn:E.
    + apply rmatch_lit_prefix in E. simpl in E.
      change (includes_i l (c :: t))
        with (prefix_i l (c :: t) || includes_i l t).
      now rewrite E.
    + apply IH in H.
      change (includes_i l (c :: t))
        with (prefix_i l (c :: t) || includes_i l t).
      rewrite H. apply orb_true_r.
Qed.

Lemma no_marker_no_match (l : JSString) (r : Regex) (s : JSString) :
  includes_i l s = false -> str_match (lit_i l r) s = None.
Proof.
  intros H. unfold str_match.
  destruct (exec (lit_i l r) None s) eqn:E; [|reflexivity].
  apply exec_lit_includes in E. congruence.
Qed.

Lemma parseCategory_total (result : JSString) :
  exists t, parseCategory result = Ok t.
Proof.
  unfold parseCategory, str_match.
  destruct (exec re_CATEGORY None result) as [m|] eqn:E; [|eauto].
  apply exec_captures in E; [|reflexivity].
  destruct (cap1 m); [eauto|contradiction].
Qed.

Lemma parseSummary_total (result : JSString) :
  exists t, parseSummary result = Ok t.
Proof.
  unfold parseSummary, str_match.
  destruct (exec re_SUMMARY None result) as [m|] eqn:E; [|eauto].
  apply exec_captures in E; [|reflexivity].
  destruct (cap1 m); [eauto|contradiction].
Qed.

Lemma parseCategory_no_marker (result : JSString) :
  includes_i (js "CATEGORY:") result = false ->
  parseCategory result = Ok (js "OTHER").
Proof.
  intros H. unfold parseCategory, re_CATEGORY.
  now rewrite (no_marker_no_match _ _ _ H).
Qed.

Lemma parseSummary_no_marker (result : JSString) :
  includes_i (js "SUMMARY:") result = false ->
  parseSummary result = Ok result.
Proof.
  intros H. unfold parseSummary, re_SUMMARY.
  now rewrite (no_marker_no_match _ _ _ H).
Qed.

(* ================================================================== *)
(** ** Summarisation: lemmas *)

Lemma maxTokensPerChunk_pos : 0 < maxTokensPerChunk.
Proof. unfold maxTokensPerChunk. lia. Qed.

Lemma chat_create_resolve (req : ChatRequest) (w : World) result tape' :
  chatTape w = Resolve result :: tape' ->
  chat_completions_create req w
  = (Ok result, set_chat tape' (chatLog w ++ [req]) w).
Proof. intros H. unfold chat_completions_create. now rewrite H. Qed.

Lemma chat_create_not_fuel (req : ChatRequest) (w w' : World) e :
  chat_completions_create req w = (Throw e, w') -> e <> FuelExhausted.
Proof.
  unfold chat_completions_create. intros H.
  destruct (chatTape w) as [|[r|reason] t]; simpl in H; inversion H; discriminate.
Qed.

(** The inline parsing of a response is [parseCategory] and
    [parseSummary]. *)
Lemma category_branch (result : JSString) (w : World) :
  match str_match re_CATEGORY result with
  | Some m => do t <- group1_trim m;; ret (toUpperCase t)
  | None => ret (js "OTHER")
  end w = (parseCategory result, w).
Proof.
  unfold parseCategory. destruct (str_match re_CATEGORY result) as [m|]; [|reflexivity].
  unfold bind, group1_trim. destruct (cap1 m); reflexivity.
Qed.

Lemma summary_branch (result : JSString) (w : World) :
  match str_match re_SUMMARY result with
  | Some m => group1_trim m
  | None => ret result
  end w = (parseSummary result, w).
Proof.
  unfold parseSummary. destruct (str_match re_SUMMARY result) as [m|]; [|reflexivity].
  unfold group1_trim. destruct (cap1 m); reflexivity.
Qed.

Lemma processSingleChunk_resolve (content : JSString) (w : World) result tape' t s :
  chatTape w = Resolve result :: tape' ->
  parseCategory result = Ok t ->
  parseSummary result = Ok s ->
  processSingleChunk content w
  = (Ok {| topic := t; summary := s |},
     set_chat tape' (chatLog w ++ [chatRequest singlePrompt content]) w).
Proof.
  intros Ht Hc Hs. unfold processSingleChunk, bind at 1.
  rewrite (chat_create_resolve _ _ _ _ Ht).
  unfold bind at 1. rewrite category_branch, Hc.
  unfold bind at 1. rewrite summary_branch, Hs. reflexivity.
Qed.

Lemma processSingleChunk_chatLog (content : JSString) (w : World) :
  chatLog (snd (processSingleChunk content w))
  = chatLog w ++ [chatRequest singlePrompt content].
Proof.
  unfold processSingleChunk, bind at 1.
  unfold chat_completions_create.
  destruct (chatTape w) as [|[r|reason] t]; simpl; try reflexivity.
  unfold bind at 1. rewrite category_branch.
  destruct (parseCategory r); [|reflexivity].
  unfold bind at 1. rewrite summary_branch.
  destruct (parseSummary r); reflexivity.
Qed.

Lemma chunkIteration_first enc tokens fs ct (w : World) result tape' t s :
  chatTape w = Resolve result :: tape' ->
  parseCategory result = Ok t ->
  parseSummary result = Ok s ->
  chunkIteration enc tokens 0 fs ct w
  = (Ok (s, t),
     set_chat tape'
       (chatLog w ++ [chatRequest firstChunkPrompt
                        (decode enc (slice tokens 0 (0 + maxTokensPerChunk)))]) w).
Proof.
  intros Ht Hc Hs. unfold chunkIteration.
  change (0 =? 0) with true. cbv iota. unfold bind at 1.
  rewrite (chat_create_resolve _ _ _ _ Ht).
  unfold bind at 1. rewrite category_branch, Hc.
  unfold bind at 1. rewrite summary_branch, Hs. reflexivity.
Qed.

Lemma chunkIteration_next enc tokens i fs ct (w : World) result tape' :
  0 < i ->
  chatTape w = Resolve result :: tape' ->
  exists req,
    chunkIteration enc tokens i fs ct w
    = (Ok (appendLine fs result, ct), set_chat tape' (chatLog w ++ [req]) w).
Proof.
  intros Hi Ht. unfold chunkIteration.
  destruct (i =? 0) eqn:E; [apply Nat.eqb_eq in E; lia|].
  eexists. unfold bind at 1.
  rewrite (chat_create_resolve _ _ _ _ Ht). reflexivity.
Qed.

Lemma chunkIteration_not_fuel enc tokens i fs ct (w w' : World) e :
  chunkIteration enc tokens i fs ct w = (Throw e, w') -> e <> FuelExhausted.
Proof.
  unfold chunkIteration, bind at 1. intros H.
  destruct (chat_completions_create _ w) as [[r|e0] w1] eqn:E.
  - destruct (i =? 0).
    + unfold bind at 1 in H. rewrite category_branch in H.
      unfold parseCategory in H.
      destruct (str_match re_CATEGORY r) as [m|].
      * destruct (cap1 m).
        -- unfold bind at 1 in H. rewrite summary_branch in H.
           unfold parseSummary in H.
           destruct (str_match re_SUMMARY r) as [m'|]; [|discriminate].
           destruct (cap1 m'); inversion H; discriminate.
        -- inversion H; discriminate.
      * unfold bind at 1 in H. rewrite summary_branch in H.
        unfold parseSummary in H.
        destruct (str_match re_SUMMARY r) as [m'|]; [|discriminate].
        destruct (cap1 m'); inversion H; discriminate.
    + discriminate.
  - inversion H; subst. eapply chat_create_not_fuel; eauto.
Qed.

Lemma chunkLoop_fuel_enough enc tokens :
  forall fuel i fs ct (w : World),
    List.length tokens <= i + fuel ->
    fst (chunkLoop fuel enc tokens i fs ct w) <> Throw FuelExhausted.
Proof.
  induction fuel as [|fuel IH]; intros i fs ct w H.
  - simpl. destruct (i <? List.length tokens) eqn:E.
    + apply Nat.ltb_lt in E. lia.
    + discriminate.
  - cbn [chunkLoop]. destruct (i <? List.length tokens) eqn:E; [|discriminate].
    unfold bind.
    destruct (chunkIteration enc tokens i fs ct w) as [[st|e] w1] eqn:Hit.
    + apply IH. pose proof maxTokensPerChunk_pos. lia.
    + simpl. intros F. inversion F; subst.
      now apply chunkIteration_not_fuel in Hit.
Qed.

Lemma chunkLoop_continuations enc tokens :
  forall rs fuel i fs ct (w : World) tape',
    0 < i ->
    List.length rs <= fuel ->
    List.length tokens <= i + List.length rs * maxTokensPerChunk ->
    (rs <> [] -> i + (List.length rs - 1) * maxTokensPerChunk < List.length tokens) ->
    chatTape w = map Resolve rs ++ tape' ->
    exists w',
      chunkLoop fuel enc tokens i fs ct w = (Ok (fold_left appendLine rs fs, ct), w')
      /\ chatTape w' = tape'
      /\ List.length (chatLog w') = List.length (chatLog w) + List.length rs.
Proof.
  induction rs as [|r rs IH]; intros fuel i fs ct w tape' Hi Hf Hup Hlow Ht.
  - simpl in *. exists w. split; [|split; [exact Ht|lia]].
    assert (E : (i <? List.length tokens) = false) by (apply Nat.ltb_ge; lia).
    destruct fuel; cbn [chunkLoop]; rewrite E; reflexivity.
  - destruct fuel as [|fuel]; [simpl in Hf; lia|].
    assert (Hlt : i < List.length tokens).
    { assert (Hne : r :: rs <> []) by discriminate.
      specialize (Hlow Hne). simpl in Hlow. lia. }
    cbn [chunkLoop]. apply Nat.ltb_lt in Hlt. rewrite Hlt. apply Nat.ltb_lt in Hlt.
    simpl in Ht.
    destruct (chunkIteration_next enc tokens i fs ct w r _ Hi Ht) as (req & Hstep).
    unfold bind. rewrite Hstep. cbn [fst snd].
    destruct (IH fuel (i + maxTokensPerChunk) (appendLine fs r) ct
                 (set_chat (map Resolve rs ++ tape') (chatLog w ++ [req]) w) tape')
      as (w' & Hrun & Htape & Hlog).
    + lia.
    + simpl in Hf. lia.
    + cbn [List.length] in Hup. rewrite Nat.mul_succ_l in Hup. lia.
    + intros Hne. assert (Hne' : r :: rs <> []) by discriminate.
      specialize (Hlow Hne'). cbn [List.length] in Hlow.
      destruct rs as [|r' rs']; [congruence|].
      cbn [List.length] in *. 
      replace (S (S (List.length rs')) - 1) with (S (List.length rs')) in Hlow by lia.
      replace (S (List.length rs') - 1) with (List.length rs') by lia.
      rewrite Nat.mul_succ_l in Hlow. lia.
    + reflexivity.
    + exists w'. split; [exact Hrun|]. split; [exact Htape|].
      rewrite Hlog. simpl. rewrite length_app. simpl. lia.
Qed.

Lemma summarizeNewsletter_short (content source : JSString) (w : World) enc tokens :
  gptTokenizer w = Resolve enc ->
  encode enc content = Resolve tokens ->
  List.length tokens <= maxTokensPerChunk ->
  summarizeNewsletter content source w
  = match processSingleChunk content w with
    | (Ok r, w') => (Ok r, w')
    | (Throw e, w') =>
        (Throw e,
         set_console (console w' ++ [ConsoleError (js "Error summarizing newsletter:") e]) w')
    end.
Proof.
  intros Hg He Hlen.
  unfold summarizeNewsletter, tryCatch.
  unfold bind at 1. unfold import_gpt_tokenizer. rewrite Hg. cbn [settle].
  unfold bind at 1. rewrite He. cbn [settle].
  apply Nat.leb_le in Hlen. rewrite Hlen.
  destruct (processSingleChunk content w) as [[r|e] w']; reflexivity.
Qed.

Lemma summarizeNewsletter_chunked (content source : JSString) (w : World)
      enc tokens r1 rs tape' t s :
  gptTokenizer w = Resolve enc ->
  encode enc content = Resolve tokens ->
  rs <> [] ->
  List.length rs * maxTokensPerChunk < List.length tokens ->
  List.length tokens <= S (List.length rs) * maxTokensPerChunk ->
  chatTape w = Resolve r1 :: map Resolve rs ++ tape' ->
  parseCategory r1 = Ok t ->
  parseSummary r1 = Ok s ->
  exists w',
    summarizeNewsletter content source w
    = (Ok {| topic := t; summary := fold_left appendLine rs s |}, w')
    /\ chatTape w' = tape'
    /\ List.length (chatLog w') = List.length (chatLog w) + S (List.length rs).
Proof.
  intros Hg He Hne Hlow Hup Ht Hc Hs.
  pose proof maxTokensPerChunk_pos as Hpos.
  assert (Hbig : maxTokensPerChunk < List.length tokens).
  { destruct rs as [|r rs]; [congruence|]. cbn [List.length] in Hlow.
    rewrite Nat.mul_succ_l in Hlow. lia. }
  unfold summarizeNewsletter, tryCatch.
  unfold bind at 1. unfold import_gpt_tokenizer. rewrite Hg. cbn [settle].
  unfold bind at 1. rewrite He. cbn [settle].
  assert (E : (List.length tokens <=? maxTokensPerChunk) = false)
    by (apply Nat.leb_gt; lia).
  rewrite E.
  unfold bind at 1. unfold console_log at 1.
  remember (set_console _ w) as w1 eqn:Hw1.
  assert (Ht1 : chatTape w1 = Resolve r1 :: map Resolve rs ++ tape')
    by (subst w1; exact Ht).
  assert (Hl1 : chatLog w1 = chatLog w) by (subst w1; reflexivity).
  unfold bind at 1.
  destruct (List.length tokens) as [|n] eqn:Hn; [lia|].
  cbn [chunkLoop].
  assert (E0 : (0 <? List.length tokens) = true) by (apply Nat.ltb_lt; lia).
  rewrite E0. unfold bind at 1.
  rewrite (chunkIteration_first enc tokens [] [] w1 r1 _ t s Ht1 Hc Hs).
  cbn [fst snd].
  remember (set_chat _ _ w1) as w2 eqn:Hw2.
  destruct (chunkLoop_continuations enc tokens rs n (0 + maxTokensPerChunk) s t w2 tape')
    as (w' & Hrun & Htape & Hlog).
  - lia.
  - assert (List.length rs <= List.length rs * maxTokensPerChunk) by nia. lia.
  - rewrite Nat.mul_succ_l in Hup. lia.
  - intros _. destruct rs as [|r rs]; [congruence|].
    cbn [List.length] in *.
    replace (S (List.length rs) - 1) with (List.length rs) by lia.
    rewrite Nat.mul_succ_l in Hlow. lia.
  - subst w2. reflexivity.
  - rewrite Hrun. exists w'. split; [reflexivity|]. split; [exact Htape|].
    rewrite Hlog. subst w2. cbn [chatLog set_chat]. rewrite length_app, Hl1.
    simpl. lia.
Qed.

(** The loop of [summarizeNewsletter] always has fuel left: the embedding's
    own error is never what the method throws. *)
Lemma summarizeNewsletter_never_out_of_fuel (content source : JSString) (w : World) :
  fst (summarizeNewsletter content source w) <> Throw FuelExhausted.
Proof.
  unfold summarizeNewsletter, tryCatch.
  match goal with
  | |- fst (match ?m w with _ => _ end) <> _ =>
      assert (H : fst (m w) <> Throw FuelExhausted); [|destruct (m w) as [[r|e] w']]
  end.
  - unfold bind at 1. unfold import_gpt_tokenizer.
    destruct (gptTokenizer w) as [enc|reason]; cbn [settle]; [|discriminate].
    unfold bind at 1.
    destruct (encode enc content) as [tokens|reason]; cbn [settle]; [|discriminate].
    destruct (List.length tokens <=? maxTokensPerChunk).
    + unfold processSingleChunk, bind at 1.
      destruct (chat_completions_create _ w) as [[r|e] w1] eqn:E.
      * unfold bind at 1. rewrite category_branch. unfold parseCategory.
        destruct (str_match re_CATEGORY r) as [m|].
        -- destruct (cap1 m); [|discriminate].
           unfold bind at 1. rewrite summary_branch. unfold parseSummary.
           destruct (str_match re_SUMMARY r) as [m'|]; [|discriminate].
           destruct (cap1 m'); discriminate.
        -- unfold bind at 1. rewrite summary_branch. unfold parseSummary.
           destruct (str_match re_SUMMARY r) as [m'|]; [|discriminate].
           destruct (cap1 m'); discriminate.
      * simpl. intros F. inversion F; subst.
        now apply chat_create_not_fuel in E.
    + unfold bind at 1. unfold console_log at 1.
      unfold bind at 1.
      match goal with
      | |- fst (match chunkLoop ?f ?e ?t ?i ?a ?b ?w0 with _ => _ end) <> _ =>
          pose proof (chunkLoop_fuel_enough e t f i a b w0) as Hf;
          destruct (chunkLoop f e t i a b w0) as [[st|e1] w2]
      end.
      * discriminate.
      * simpl. intros F. inversion F; subst. apply Hf; [lia|reflexivity].
  - discriminate.
  - simpl in H. simpl. intros F. inversion F; subst. contradiction.
Qed.

Lemma maxTokensPerChunk_value : N.of_nat maxTokensPerChunk = 15000%N.
Proof. unfold maxTokensPerChunk. lia. Qed.

(* ================================================================== *)
(** ** Summarisation: the properties of the specification *)

(** C1 (the code departs from it). The specification wants every returned
    topic to be one of [TOPIC_CATEGORIES]. A response whose category token
    matches the pattern but names no listed category is returned as it
    stands: for the response [CATEGORY: SPORTS / SUMMARY: The home team
    won.] [processSingleChunk] resolves to the topic [SPORTS], which is
    not a known category. *)
Theorem C1_unlisted_category_is_returned
        (content : JSString) (w : World) (tape' : list (Outcome JSString)) :
  chatTape w
  = Resolve (js "CATEGORY: SPORTS" ++ LF ++ js "SUMMARY: The home team won.") :: tape' ->
  exists w',
    processSingleChunk content w
    = (Ok {| topic := js "SPORTS"; summary := js "The home team won." |}, w')
    /\ isKnownCategory (js "SPORTS") = false
    /\ ~ In (js "SPORTS") TOPIC_CATEGORIES.
Proof.
  intros Ht. eexists. split; [|split].
  - apply (processSingleChunk_resolve content w _ tape' _ _ Ht);
      vm_compute; reflexivity.
  - vm_compute. reflexivity.
  - intros HIn. assert (F : isKnownCategory (js "SPORTS") = true).
    { unfold isKnownCategory. apply existsb_exists.
      exists (js "SPORTS"). split; [exact HIn|apply eqb_refl]. }
    vm_compute in F. discriminate.
Qed.

Lemma C1_unlisted_category_is_returned_witness :
  exists w',
    processSingleChunk (js "Scores of the week")
      (exampleWorld
         [Resolve (js "CATEGORY: SPORTS" ++ LF ++ js "SUMMARY: The home team won.")] [])
    = (Ok {| topic := js "SPORTS"; summary := js "The home team won." |}, w')
    /\ isKnownCategory (js "SPORTS") = false
    /\ ~ In (js "SPORTS") TOPIC_CATEGORIES.
Proof.
  apply (C1_unlisted_category_is_returned (js "Scores of the week") _ []).
  reflexivity.
Defined.

(** C2. For content whose token count is at most the chunk budget of
    15,000, [summarizeNewsletter] settles exactly as
    [processSingleChunk] on the whole content does (the same value, or the
    same error), it issues that one request and no chunk request, and when
    the single pass resolves the two runs are the same run. *)
Theorem C2_within_budget_is_single_pass
        (content source : JSString) (w : World) (enc : Tokenizer) (tokens : list N) :
  gptTokenizer w = Resolve enc ->
  encode enc content = Resolve tokens ->
  (N.of_nat (List.length tokens) <= 15000)%N ->
  fst (summarizeNewsletter content source w) = fst (processSingleChunk content w)
  /\ chatLog (snd (summarizeNewsletter content source w))
     = chatLog w ++ [chatRequest singlePrompt content]
  /\ (forall r w', processSingleChunk content w = (Ok r, w') ->
                   summarizeNewsletter content source w = (Ok r, w')).
Proof.
  intros Hg He Hlen.
  assert (Hle : List.length tokens <= maxTokensPerChunk)
    by (unfold maxTokensPerChunk; lia).
  rewrite (summarizeNewsletter_short content source w enc tokens Hg He Hle).
  pose proof (processSingleChunk_chatLog content w) as Hlog.
  destruct (processSingleChunk content w) as [[r|e] w1]; cbn [fst snd] in *.
  - split; [reflexivity|]. split; [exact Hlog|].
    intros r' w' E. inversion E; subst. reflexivity.
  - split; [reflexivity|]. split; [exact Hlog|].
    intros r' w' E. discriminate.
Qed.

Lemma C2_within_budget_is_single_pass_witness :
  let content := js "Quarterly results are in." in
  let w := exampleWorld
             [Resolve (js "CATEGORY: BUSINESS" ++ LF ++ js "SUMMARY: Revenue grew.")] [] in
  fst (summarizeNewsletter content (js "Ledger") w) = fst (processSingleChunk content w)
  /\ chatLog (snd (summarizeNewsletter content (js "Ledger") w))
     = chatLog w ++ [chatRequest singlePrompt content]
  /\ (forall r w', processSingleChunk content w = (Ok r, w') ->
                   summarizeNewsletter content (js "Ledger") w = (Ok r, w')).
Proof.
  intros content w.
  apply (C2_within_budget_is_single_pass content (js "Ledger") w unitTokenizer content).
  - reflexivity.
  - reflexivity.
  - vm_compute. discriminate.
Defined.

(** C3. For content split into [n >= 2] chunks, the method resolves; the
    topic of its result is the category parsed from the first chunk's
    response alone, whatever [n] and the later responses are, and the
    summary is the summary parsed from that response with the response of
    every later chunk appended in order, each after a newline.  Exactly
    [n] requests are issued. *)
Theorem C3_topic_fixed_by_first_chunk
        (content source : JSString) (w : World) (enc : Tokenizer) (tokens : list N)
        (n : nat) (r1 : JSString) (rs : list JSString)
        (tape' : list (Outcome JSString)) :
  gptTokenizer w = Resolve enc ->
  encode enc content = Resolve tokens ->
  2 <= n ->
  (n - 1) * maxTokensPerChunk < List.length tokens ->
  List.length tokens <= n * maxTokensPerChunk ->
  List.length rs = n - 1 ->
  chatTape w = Resolve r1 :: map Resolve rs ++ tape' ->
  exists t s w',
    parseCategory r1 = Ok t
    /\ parseSummary r1 = Ok s
    /\ summarizeNewsletter content source w
       = (Ok {| topic := t; summary := fold_left appendLine rs s |}, w')
    /\ chatTape w' = tape'
    /\ List.length (chatLog w') = List.length (chatLog w) + n.
Proof.
  intros Hg He Hn Hlow Hup Hrs Ht.
  destruct (parseCategory_total r1) as (t & Hc).
  destruct (parseSummary_total r1) as (s & Hs).
  assert (Hne : rs <> []) by (intros ->; simpl in Hrs; lia).
  assert (Hn' : n = S (List.length rs)) by lia.
  destruct (summarizeNewsletter_chunked content source w enc tokens r1 rs tape' t s)
    as (w' & Hrun & Htape & Hlog); auto.
  - rewrite Hrs. exact Hlow.
  - rewrite <- Hn'. exact Hup.
  - exists t, s, w'. repeat split; auto. rewrite Hlog. lia.
Qed.

Lemma C3_topic_fixed_by_first_chunk_witness :
  let content := repeat 97%N (N.to_nat 15001) in
  let r1 := js "CATEGORY: business" ++ LF ++ js "SUMMARY: First part." in
  let rs := [js "CATEGORY: SECURITY and a second part."] in
  let w := exampleWorld (Resolve r1 :: map Resolve rs ++ []) [] in
  exists t s w',
    parseCategory r1 = Ok t
    /\ parseSummary r1 = Ok s
    /\ summarizeNewsletter content (js "Ledger") w
       = (Ok {| topic := t; summary := fold_left appendLine rs s |}, w')
    /\ chatTape w' = []
    /\ List.length (chatLog w') = List.length (chatLog w) + 2.
Proof.
  intros content r1 rs w.
  apply (C3_topic_fixed_by_first_chunk content (js "Ledger") w unitTokenizer content
           2 r1 rs []).
  - reflexivity.
  - reflexivity.
  - lia.
  - apply Nat.ltb_lt. vm_compute. reflexivity.
  - apply Nat.leb_le. vm_compute. reflexivity.
  - reflexivity.
  - reflexivity.
Defined.

(** C4. A model response containing neither a [CATEGORY:] nor a
    [SUMMARY:] marker (in any letter case, as the patterns read them)
    gives the topic [OTHER] and the entire raw response as summary: from
    [processSingleChunk], from [summarizeNewsletter] on content within the
    budget, and as the topic and running summary the first chunk of longer
    content sets. *)
Theorem C4_unmarked_response_falls_back
        (content source : JSString) (w : World) (result : JSString)
        (tape' : list (Outcome JSString)) :
  includes_i (js "CATEGORY:") result = false ->
  includes_i (js "SUMMARY:") result = false ->
  chatTape w = Resolve result :: tape' ->
  (exists w', processSingleChunk content w
              = (Ok {| topic := js "OTHER"; summary := result |}, w'))
  /\ (forall enc tokens,
        gptTokenizer w = Resolve enc ->
        encode enc content = Resolve tokens ->
        List.length tokens <= maxTokensPerChunk ->
        exists w', summarizeNewsletter content source w
                   = (Ok {| topic := js "OTHER"; summary := result |}, w'))
  /\ (forall enc tokens finalSummary currentTopic,
        exists w', chunkIteration enc tokens 0 finalSummary currentTopic w
                   = (Ok (result, js "OTHER"), w')).
Proof.
  intros Hc Hs Ht.
  apply parseCategory_no_marker in Hc. apply parseSummary_no_marker in Hs.
  pose proof (processSingleChunk_resolve content w result tape' _ _ Ht Hc Hs) as Hp.
  split; [eauto|]. split.
  - intros enc tokens Hg He Hlen.
    rewrite (summarizeNewsletter_short content source w enc tokens Hg He Hlen).
    rewrite Hp. eauto.
  - intros enc tokens fs ct. eexists.
    apply (chunkIteration_first enc tokens fs ct w result tape' _ _ Ht Hc Hs).
Qed.

Lemma C4_unmarked_response_falls_back_witness :
  let content := js "Weekly notes" in
  let result := js "I could not find a newsletter in this message." in
  let w := exampleWorld [Resolve result] [] in
  (exists w', processSingleChunk content w
              = (Ok {| topic := js "OTHER"; summary := result |}, w'))
  /\ (forall enc tokens,
        gptTokenizer w = Resolve enc ->
        encode enc content = Resolve tokens ->
        List.length tokens <= maxTokensPerChunk ->
        exists w', summarizeNewsletter content (js "Notes") w
                   = (Ok {| topic := js "OTHER"; summary := result |}, w'))
  /\ (forall enc tokens finalSummary currentTopic,
        exists w', chunkIteration enc tokens 0 finalSummary currentTopic w
                   = (Ok (result, js "OTHER"), w')).
Proof.
  intros content result w.
  apply (C4_unmarked_response_falls_back content (js "Notes") w result []).
  - vm_compute. reflexivity.
  - vm_compute. reflexivity.
  - reflexivity.
Defined.

(* ================================================================== *)
(** ** The topic buckets: lemmas *)

Lemma obj_get_set_same (obj : Buckets) (key : JSString) (v : list Item) :
  obj_get (obj_set obj key v) key = Some v.
Proof.
  induction obj as [|[k v0] obj IH]; simpl.
  - now rewrite eqb_refl.
  - destruct (JS.eqb k key) eqn:E; simpl; rewrite E; [reflexivity|exact IH].
Qed.

Lemma obj_get_set_other (obj : Buckets) (key key' : JSString) (v : list Item) :
  key <> key' ->
  obj_get (obj_set obj key v) key' = obj_get obj key'.
Proof.
  intros Hne. induction obj as [|[k v0] obj IH]; simpl.
  - apply eqb_neq in Hne. now rewrite Hne.
  - destruct (JS.eqb k key) eqn:E; simpl.
    + apply eqb_eq in E. subst k.
      apply eqb_neq in Hne. now rewrite Hne.
    + destruct (JS.eqb k key'); [reflexivity|exact IH].
Qed.

Lemma obj_set_keys (obj : Buckets) (key : JSString) (v v' : list Item) :
  obj_get obj key = Some v ->
  map fst (obj_set obj key v') = map fst obj.
Proof.
  induction obj as [|[k v0] obj IH]; simpl; [discriminate|].
  destruct (JS.eqb k key) eqn:E; simpl; intros H; [reflexivity|].
  now rewrite IH.
Qed.

Lemma obj_get_in_keys (obj : Buckets) (key : JSString) :
  In key (map fst obj) -> exists v, obj_get obj key = Some v.
Proof.
  induction obj as [|[k v0] obj IH]; simpl; [tauto|].
  intros [H|H].
  - subst k. rewrite eqb_refl. eauto.
  - destruct (JS.eqb k key); [eauto|auto].
Qed.

Lemma isKnownCategory_In (t : JSString) :
  isKnownCategory t = true <-> In t TOPIC_CATEGORIES.
Proof.
  unfold isKnownCategory. rewrite existsb_exists. split.
  - intros (x & Hx & E). apply eqb_eq in E. now subst.
  - intros H. exists t. split; [exact H|apply eqb_refl].
Qed.

Lemma aggregateFrom_spec :
  forall (results : list (Email * SummaryResult)) (b : Buckets),
    (forall p, In p results -> In (topic (snd p)) (map fst b)) ->
    exists b',
      aggregateFrom b results = Ok b'
      /\ map fst b' = map fst b
      /\ forall tag,
           obj_get b' tag
           = option_map (fun l => l ++ map itemOf (classifiedTo tag results))
                        (obj_get b tag).
Proof.
  induction results as [|[email r] results IH]; intros b Hk.
  - exists b. split; [reflexivity|]. split; [reflexivity|].
    intros tag. simpl. destruct (obj_get b tag); simpl; [|reflexivity].
    now rewrite app_nil_r.
  - assert (Hin : In (topic r) (map fst b)) by (apply (Hk (email, r)); now left).
    destruct (obj_get_in_keys b (topic r) Hin) as (arr & Harr).
    cbn [aggregateFrom]. unfold pushSummary. rewrite Harr.
    set (item := {| item_subject := subject email; item_from := from email;
                    item_date := date email; item_summary := summary r |}).
    set (b1 := obj_set b (topic r) (arr ++ [item])).
    assert (Hkeys : map fst b1 = map fst b) by (apply (obj_set_keys _ _ _ _ Harr)).
    destruct (IH b1) as (b' & Hrun & Hk' & Hget).
    { intros p Hp. rewrite Hkeys. apply Hk. now right. }
    exists b'. split; [exact Hrun|]. split; [congruence|].
    intros tag. rewrite Hget. unfold classifiedTo at 2. cbn [filter snd].
    destruct (JS.eqb (topic r) tag) eqn:E.
    + apply eqb_eq in E. subst tag. unfold b1.
      rewrite obj_get_set_same, Harr. cbn [option_map map].
      rewrite <- app_assoc. reflexivity.
    + apply eqb_neq in E. unfold b1.
      rewrite (obj_get_set_other _ _ _ _ E). reflexivity.
Qed.

Lemma initBuckets_keys : map fst initBuckets = TOPIC_CATEGORIES.
Proof. vm_compute. reflexivity. Qed.

Lemma initBuckets_empty (tag : JSString) :
  In tag TOPIC_CATEGORIES -> obj_get initBuckets tag = Some [].
Proof.
  intros H. simpl in H.
  repeat (destruct H as [H|H]; [subst tag; vm_compute; reflexivity|]).
  contradiction.
Qed.

(** A result whose topic is no known category stops the run: the bucket
    it names does not exist. *)
Lemma aggregate_unlisted_topic_throws (email : Email) (s : JSString) :
  aggregate [(email, {| topic := js "SPORTS"; summary := s |})]
  = Throw (TypeError (js "Cannot read properties of undefined (reading 'push')")).
Proof. reflexivity. Qed.

(** The loop of [runEnhancedSummarizer] computes [aggregate]: when it
    completes, its buckets are those of the newsletters paired with what
    their [summarizeNewsletter] calls resolved to. *)
Lemma bucketLoop_aggregate :
  forall (newsletters : list Email) (b0 : Buckets) (w : World) (b : Buckets) (w' : World),
    bucketLoop newsletters b0 w = (Ok b, w') ->
    exists results,
      map fst results = newsletters
      /\ aggregateFrom b0 results = Ok b
      /\ Forall (fun p => exists wa wb,
                   summarizeNewsletter (body (fst p)) (from (fst p)) wa
                   = (Ok (snd p), wb)) results.
Proof.
  induction newsletters as [|email newsletters IH]; intros b0 w b w' H.
  - inversion H; subst. exists []. repeat split. constructor.
  - cbn [bucketLoop] in H. unfold bind at 1, console_log at 1 in H.
    unfold bind at 1 in H.
    match type of H with
    | context [summarizeNewsletter ?c ?f ?w0] =>
        destruct (summarizeNewsletter c f w0) as [[r|e] w1] eqn:Hsum; [|discriminate]
    end.
    unfold bind at 1, console_log at 1 in H.
    unfold bind at 1 in H.
    destruct (pushSummary b0 email r) as [b1|e] eqn:Hpush; [|discriminate].
    unfold bind at 1 in H.
    match type of H with
    | context [markEmailAsRead ?i ?w0] =>
        destruct (markEmailAsRead i w0) as [[u|e] w2]; [|discriminate]
    end.
    apply IH in H as (results & Hmap & Hagg & Hall).
    exists ((email, r) :: results). split; [simpl; now rewrite Hmap|].
    split.
    + cbn [aggregateFrom]. now rewrite Hpush.
    + constructor; [|exact Hall]. cbn [fst snd]. eauto.
Qed.

Lemma processNewsletters_aggregate
      (newsletters : list Email) (w : World) (b : Buckets) (w' : World) :
  processNewsletters newsletters w = (Ok b, w') ->
  exists results, map fst results = newsletters /\ aggregate results = Ok b.
Proof.
  unfold processNewsletters, bind at 1, console_log at 1. intros H.
  apply bucketLoop_aggregate in H as (results & Hmap & Hagg & _).
  exists results. split; assumption.
Qed.

(** C5. Over any input sequence of (email, result) pairs whose topics are
    category tags, the bucket loop ends with an object whose keys are
    exactly the known category tags, in their fixed order, and where each
    tag holds the items of the inputs classified to it, in input order;
    so its length is the number of those inputs. *)
Theorem C5_buckets_cover_and_count (results : list (Email * SummaryResult)) :
  forallb (fun p => isKnownCategory (topic (snd p))) results = true ->
  exists buckets,
    aggregate results = Ok buckets
    /\ map fst buckets = TOPIC_CATEGORIES
    /\ forall tag,
         In tag TOPIC_CATEGORIES ->
         exists items,
           obj_get buckets tag = Some items
           /\ items = map itemOf (classifiedTo tag results)
           /\ List.length items = List.length (classifiedTo tag results).
Proof.
  intros Hknown. rewrite forallb_forall in Hknown.
  destruct (aggregateFrom_spec results initBuckets) as (b' & Hrun & Hkeys & Hget).
  - intros p Hp. rewrite initBuckets_keys. apply isKnownCategory_In. auto.
  - exists b'. split; [exact Hrun|]. split; [now rewrite Hkeys, initBuckets_keys|].
    intros tag Htag. rewrite Hget, (initBuckets_empty tag Htag). cbn [option_map app].
    eexists. split; [reflexivity|]. split; [reflexivity|]. apply length_map.
Qed.

Lemma C5_buckets_cover_and_count_witness :
  let mail (n s : JSString) :=
    {| email_id := n; subject := s; from := js "news@example.org";
       body := js "..."; date := js "2024-05-17" |} in
  let results :=
    [ (mail (js "1") (js "Chips"),
       {| topic := js "TECH_NEWS"; summary := js "New chips." |});
      (mail (js "2") (js "Breach"),
       {| topic := js "SECURITY"; summary := js "A breach." |});
      (mail (js "3") (js "Phones"),
       {| topic := js "TECH_NEWS"; summary := js "New phones." |}) ] in
  exists buckets,
    aggregate results = Ok buckets
    /\ map fst buckets = TOPIC_CATEGORIES
    /\ forall tag,
         In tag TOPIC_CATEGORIES ->
         exists items,
           obj_get buckets tag = Some items
           /\ items = map itemOf (classifiedTo tag results)
           /\ List.length items = List.length (classifiedTo tag results).
Proof.
  intros mail results.
  apply (C5_buckets_cover_and_count results).
  reflexivity.
Defined.

(* ================================================================== *)
(** ** The speech script: lemmas *)

Lemma matchAt_gap_none (pv : option N) (s : JSString) :
  gapAt pv s = false -> matchAt re_sentence_gap pv s = None.
Proof.
  unfold gapAt, matchAt, re_sentence_gap. cbn [rmatch prev rest cap1].
  destruct pv as [x|]; [|reflexivity].
  destruct (class_dot x); [|reflexivity].
  destruct s as [|c t]; [reflexivity|].
  cbn [andb]. intros ->. reflexivity.
Qed.

Lemma hasSentenceGap_cons (c : N) (t : JSString) :
  hasSentenceGap (c :: t) = gapAt (Some c) t || hasSentenceGap t.
Proof. destruct t; reflexivity. Qed.

Lemma splitFrom_no_gap :
  forall (s : JSString) (pv : option N) (cur : JSString),
    gapAt pv s = false ->
    hasSentenceGap s = false ->
    splitFrom re_sentence_gap 0 pv cur s = [cur ++ s].
Proof.
  induction s as [|c t IH]; intros pv cur Hg Hs.
  - simpl. now rewrite app_nil_r.
  - cbn [splitFrom]. rewrite (matchAt_gap_none pv (c :: t) Hg).
    rewrite hasSentenceGap_cons in Hs. apply orb_false_iff in Hs as [Hg' Hs'].
    rewrite (IH (Some c) (cur ++ [c]) Hg' Hs'). now rewrite <- app_assoc.
Qed.

Lemma split_no_gap (s : JSString) :
  hasSentenceGap s = false -> split re_sentence_gap s = [s].
Proof.
  intros H. destruct s as [|c t]; [reflexivity|].
  unfold split. now rewrite (splitFrom_no_gap (c :: t) None [] eq_refl H).
Qed.

Lemma forEachItem_app (n : nat) (a b : list Item) :
  forall index,
    forEachItem n index (a ++ b)
    = forEachItem n index a ++ forEachItem n (index + List.length a) b.
Proof.
  induction a as [|x a IH]; intros index.
  - simpl. now rewrite Nat.add_0_r.
  - cbn [app forEachItem List.length]. rewrite IH, <- app_assoc.
    replace (index + S (List.length a)) with (S index + List.length a) by lia.
    reflexivity.
Qed.

Lemma filter_all_empty (buckets : Buckets) :
  forallb isEmptyBucket buckets = true ->
  filter (fun entry => 0 <? List.length (snd entry)) buckets = [].
Proof.
  induction buckets as [|[k v] buckets IH]; simpl; [reflexivity|].
  intros H. apply andb_true_iff in H as [Hv Hrest].
  unfold isEmptyBucket in Hv. simpl in Hv.
  destruct v; [|discriminate]. simpl. auto.
Qed.

(** ** The speech script: the properties of the specification *)

(** C6. For the buckets with the one item (sender A, summary "X happened.
    Y followed.") under TECH_NEWS and every other category empty, the
    script is the opening pair, one host transition line (for "tech
    news"), the item's two guest lines cut at the period followed by white
    space with the host's prompt between them, and the closing three
    lines: one transition line in all, none for security or any other
    empty category, and two guest lines for the item.  The two-key object
    of the scenario gives the same script. *)
Theorem C6_scenario_one_tech_item (timeNow subject date : JSString) :
  let item := {| item_subject := subject; item_from := js "A"; item_date := date;
                 item_summary := js "X happened. Y followed." |} in
  let buckets := obj_set initBuckets (js "TECH_NEWS") [item] in
  let script := createSpeechScript timeNow buckets in
  buckets = [ (js "TECH_NEWS", [item]); (js "BUSINESS", []); (js "SECURITY", []);
              (js "PRODUCT_UPDATES", []); (js "INDUSTRY_NEWS", []);
              (js "EDUCATIONAL", []); (js "OTHER", []) ]
  /\ script
     = [ line host (js "Welcome to your daily newsletter roundup! It's " ++ timeNow
                    ++ js ", and I'm here with our expert analyst to break down today's key stories.");
         line guest (js "Thanks for having me! I've reviewed all the newsletters, and we've got some interesting developments to discuss.");
         line host (js "Let's dive into tech news. What are the key updates in this area?");
         line guest (js "From A, we have X happened.");
         line host (js "That's interesting! What else did they mention?");
         line guest (js "Y followed.");
         line host (js "That wraps up our newsletter summary for today. Any final thoughts?");
         line guest (js "Thanks for breaking this down with me. Remember to check the email summary for more details on any stories that caught your interest.");
         line host (js "Thanks for listening, and we'll catch you in the next summary!") ]
  /\ createSpeechScript timeNow [ (js "TECH_NEWS", [item]); (js "SECURITY", []) ] = script
  /\ filter isTopicTransition script
     = [ line host (js "Let's dive into tech news. What are the key updates in this area?") ]
  /\ split re_sentence_gap (item_summary item) = [ js "X happened."; js "Y followed." ]
  /\ filter isGuestLine (itemLines 1 item 0)
     = [ line guest (js "From A, we have X happened."); line guest (js "Y followed.") ].
Proof.
  intros item buckets script. repeat split; vm_compute; reflexivity.
Qed.

(** C9. An item whose summary has no period followed by white space (the
    empty summary included) gets exactly one guest line, made of the
    sender and the whole summary, and no host follow-up prompt; the only
    other line it can get is the host's request for the next item of the
    bucket, when it is not the last.  The script is these lines placed
    between those of what precedes and what follows the item;
    [createSpeechScript] is a total function, so nothing is thrown. *)
Theorem C9_single_sentence_item
        (timeNow : JSString) (pre post : Buckets) (topic : JSString)
        (before after : list Item) (item : Item) :
  hasSentenceGap (item_summary item) = false ->
  let summaries := before ++ item :: after in
  let mine :=
    line guest (js "From " ++ item_from item ++ js ", we have " ++ item_summary item)
    :: (if List.length before <? List.length summaries - 1
        then [ line host (js "What other updates do we have in this area?") ]
        else []) in
  itemLines (List.length summaries) item (List.length before) = mine
  /\ createSpeechScript timeNow (pre ++ (topic, summaries) :: post)
     = (openingLines timeNow
        ++ flat_map topicLines
             (filter (fun entry => 0 <? List.length (snd entry)) pre)
        ++ [ line host (js "Let's dive into " ++ replaceUnderscores (toLowerCase topic)
                        ++ js ". What are the key updates in this area?") ]
        ++ forEachItem (List.length summaries) 0 before)
       ++ mine
       ++ (forEachItem (List.length summaries) (S (List.length before)) after
           ++ flat_map topicLines
                (filter (fun entry => 0 <? List.length (snd entry)) post)
           ++ closingLines).
Proof.
  intros Hgap summaries mine.
  assert (Hmine : itemLines (List.length summaries) item (List.length before) = mine).
  { unfold itemLines, mine. rewrite (split_no_gap _ Hgap). reflexivity. }
  split; [exact Hmine|].
  unfold createSpeechScript. rewrite filter_app.
  assert (Hnz : (0 <? List.length summaries) = true).
  { apply Nat.ltb_lt. unfold summaries. rewrite length_app. simpl. lia. }
  cbn [filter snd]. rewrite Hnz. rewrite flat_map_app. cbn [flat_map topicLines].
  unfold summaries at 2. rewrite forEachItem_app. cbn [forEachItem].
  rewrite Nat.add_0_l, Hmine.
  repeat rewrite <- app_assoc. cbn [app]. repeat rewrite <- app_assoc. reflexivity.
Qed.

Lemma C9_single_sentence_item_witness :
  let item := {| item_subject := js "Notes"; item_from := js "Weekly Digest";
                 item_date := js "2024-05-17"; item_summary := [] |} in
  let summaries := [] ++ item :: [] in
  let mine :=
    line guest (js "From " ++ item_from item ++ js ", we have " ++ item_summary item)
    :: (if List.length (@nil Item) <? List.length summaries - 1
        then [ line host (js "What other updates do we have in this area?") ]
        else []) in
  itemLines (List.length summaries) item (List.length (@nil Item)) = mine
  /\ createSpeechScript (js "9:05 AM") ([] ++ (js "OTHER", summaries) :: [])
     = (openingLines (js "9:05 AM")
        ++ flat_map topicLines
             (filter (fun entry => 0 <? List.length (snd entry)) [])
        ++ [ line host (js "Let's dive into " ++ replaceUnderscores (toLowerCase (js "OTHER"))
                        ++ js ". What are the key updates in this area?") ]
        ++ forEachItem (List.length summaries) 0 [])
       ++ mine
       ++ (forEachItem (List.length summaries) (S (List.length (@nil Item))) []
           ++ flat_map topicLines
                (filter (fun entry => 0 <? List.length (snd entry)) [])
           ++ closingLines).
Proof.
  intros item.
  apply (C9_single_sentence_item (js "9:05 AM") [] [] (js "OTHER") [] [] item).
  reflexivity.
Defined.

(** C10. When every bucket is empty the script is exactly five lines: the
    host's opening, the guest's acknowledgment, the host's closing
    question, the guest's closing remark and the host's sign-off, in that
    order; there is no topic-transition line. *)
Theorem C10_all_buckets_empty (timeNow : JSString) (buckets : Buckets) :
  forallb isEmptyBucket buckets = true ->
  createSpeechScript timeNow buckets
  = [ line host (js "Welcome to your daily newsletter roundup! It's " ++ timeNow
                 ++ js ", and I'm here with our expert analyst to break down today's key stories.");
      line guest (js "Thanks for having me! I've reviewed all the newsletters, and we've got some interesting developments to discuss.");
      line host (js "That wraps up our newsletter summary for today. Any final thoughts?");
      line guest (js "Thanks for breaking this down with me. Remember to check the email summary for more details on any stories that caught your interest.");
      line host (js "Thanks for listening, and we'll catch you in the next summary!") ]
  /\ List.length (createSpeechScript timeNow buckets) = 5
  /\ filter isTopicTransition (createSpeechScript timeNow buckets) = [].
Proof.
  intros H. unfold createSpeechScript.
  rewrite (filter_all_empty buckets H). cbn [flat_map].
  repeat split; vm_compute; reflexivity.
Qed.

Lemma C10_all_buckets_empty_witness :
  createSpeechScript (js "9:05 AM") initBuckets
  = [ line host (js "Welcome to your daily newsletter roundup! It's " ++ js "9:05 AM"
                 ++ js ", and I'm here with our expert analyst to break down today's key stories.");
      line guest (js "Thanks for having me! I've reviewed all the newsletters, and we've got some interesting developments to discuss.");
      line host (js "That wraps up our newsletter summary for today. Any final thoughts?");
      line guest (js "Thanks for breaking this down with me. Remember to check the email summary for more details on any stories that caught your interest.");
      line host (js "Thanks for listening, and we'll catch you in the next summary!") ]
  /\ List.length (createSpeechScript (js "9:05 AM") initBuckets) = 5
  /\ filter isTopicTransition (createSpeechScript (js "9:05 AM") initBuckets) = [].
Proof.
  apply (C10_all_buckets_empty (js "9:05 AM") initBuckets).
  reflexivity.
Defined.

(* ================================================================== *)
(** ** The audio pipeline: lemmas *)

Lemma sameEnvironment_refl (w : World) : sameEnvironment w w.
Proof. unfold sameEnvironment. repeat split. Qed.

(** Closes [sameEnvironment w w'] when [w'] is [w] with some of the
    fields a step may change set anew. *)
Ltac same_environment :=
  unfold sameEnvironment; cbn; repeat split; reflexivity.

Lemma sameEnvironment_trans (w1 w2 w3 : World) :
  sameEnvironment w1 w2 -> sameEnvironment w2 w3 -> sameEnvironment w1 w3.
Proof.
  unfold sameEnvironment.
  intros (a1 & a2 & a3 & a4 & a5 & a6 & a7) (b1 & b2 & b3 & b4 & b5 & b6 & b7).
  repeat split; congruence.
Qed.

Lemma file_exists_app (p : JSString) (fs fs' : list (JSString * Bytes)) :
  file_exists p (fs ++ fs') = file_exists p fs || file_exists p fs'.
Proof. unfold file_exists. apply existsb_app. Qed.

Lemma file_exists_remove_same (p : JSString) (fs : list (JSString * Bytes)) :
  file_exists p (remove_file p fs) = false.
Proof.
  induction fs as [|[q d] fs IH]; simpl; [reflexivity|].
  destruct (JS.eqb q p) eqn:E; simpl; [exact IH|].
  rewrite E. exact IH.
Qed.

Lemma file_exists_remove_other (p q : JSString) (fs : list (JSString * Bytes)) :
  q <> p ->
  file_exists p (remove_file q fs) = file_exists p fs.
Proof.
  intros Hne. induction fs as [|[k d] fs IH]; simpl; [reflexivity|].
  destruct (JS.eqb k q) eqn:E; simpl.
  - apply eqb_eq in E. subst k. apply eqb_neq in Hne. rewrite Hne. exact IH.
  - now rewrite IH.
Qed.

Lemma file_exists_remove_mono (p q : JSString) (fs : list (JSString * Bytes)) :
  file_exists p (remove_file q fs) = true -> file_exists p fs = true.
Proof.
  destruct (JS.eqb q p) eqn:E.
  - apply eqb_eq in E. subst q. now rewrite file_exists_remove_same.
  - apply eqb_neq in E. now rewrite (file_exists_remove_other _ _ _ E).
Qed.

Lemma file_exists_writeTo (p : JSString) (fs : list (JSString * Bytes))
      (q : JSString) (d : Bytes) :
  file_exists p (writeTo fs (q, d)) = JS.eqb q p || file_exists p fs.
Proof.
  unfold writeTo. rewrite file_exists_app. cbn [fst file_exists existsb].
  rewrite orb_false_r.
  destruct (JS.eqb q p) eqn:E.
  - now rewrite orb_true_r.
  - apply eqb_neq in E. rewrite (file_exists_remove_other _ _ _ E).
    now rewrite orb_false_r.
Qed.

Lemma file_exists_after_writes (p : JSString) :
  forall (pds : list (JSString * Bytes)) (fs : list (JSString * Bytes)),
    In p (map fst pds) \/ file_exists p fs = true ->
    file_exists p (fold_left writeTo pds fs) = true.
Proof.
  induction pds as [|[q d] pds IH]; intros fs H; simpl.
  - destruct H as [[]|H]. exact H.
  - apply IH. simpl in H. rewrite file_exists_writeTo.
    destruct H as [[H|H]|H].
    + right. subst q. now rewrite eqb_refl.
    + now left.
    + right. rewrite H. apply orb_true_r.
Qed.

Lemma tts_resolve (request : TTSRequest) (w : World) audio tape' :
  ttsTape w = Resolve audio :: tape' ->
  tts_synthesizeSpeech request w
  = (Ok audio, set_tts tape' (ttsLog w ++ [request]) w).
Proof. intros H. unfold tts_synthesizeSpeech. now rewrite H. Qed.

Lemma writeFile_ok (p : JSString) (data : Bytes) (w : World) :
  writeFault w p = None ->
  fs_writeFile p data w = (Ok tt, set_files (writeTo (files w) (p, data)) w).
Proof. intros H. unfold fs_writeFile. now rewrite H. Qed.

(** When the speech service answers every line and every write goes
    through, the loop resolves to one path per line, in line order. *)
Lemma synthesizeLoop_resolves (audioDir : JSString) (n : nat) :
  forall (segments : list ScriptLine) (audios : list Bytes) (index : nat)
         (audioPaths : list JSString) (w : World) (tape' : list (Outcome Bytes)),
    (forall p, writeFault w p = None) ->
    ttsTape w = map Resolve audios ++ tape' ->
    List.length audios = List.length segments ->
    exists w',
      synthesizeLoop audioDir n index segments audioPaths w
      = (Ok (audioPaths
             ++ map (segmentPath audioDir) (seq index (List.length segments))), w')
      /\ ttsTape w' = tape'
      /\ ttsLog w' = ttsLog w ++ map ttsRequest segments
      /\ files w'
         = fold_left writeTo
             (combine (map (segmentPath audioDir) (seq index (List.length segments)))
                      audios)
             (files w)
      /\ ffmpegLog w' = ffmpegLog w
      /\ unlinkLog w' = unlinkLog w
      /\ sameEnvironment w w'.
Proof.
  induction segments as [|segment segments IH];
    intros audios index audioPaths w tape' Hw Ht Hlen.
  - destruct audios; [|discriminate]. simpl in Ht. exists w. simpl.
    rewrite !app_nil_r. repeat split; auto.
  - destruct audios as [|audio audios]; [discriminate|].
    simpl in Ht. injection Hlen as Hlen.
    cbn [synthesizeLoop]. unfold bind at 1. unfold console_log at 1.
    remember (set_console _ w) as w1 eqn:Hw1.
    assert (Ht1 : ttsTape w1 = Resolve audio :: map Resolve audios ++ tape')
      by (subst w1; exact Ht).
    unfold bind at 1. rewrite (tts_resolve _ w1 _ _ Ht1).
    remember (set_tts _ _ w1) as w2 eqn:Hw2.
    assert (Hw2f : writeFault w2 (segmentPath audioDir index) = None)
      by (subst w2 w1; exact (Hw _)).
    unfold bind at 1. rewrite (writeFile_ok _ _ w2 Hw2f).
    remember (set_files _ w2) as w3 eqn:Hw3.
    destruct (IH audios (S index) (audioPaths ++ [segmentPath audioDir index]) w3 tape')
      as (w' & Hrun & Htape & Hlog & Hfiles & Hff & Hul & Henv).
    + intros p. subst w3 w2 w1. exact (Hw p).
    + subst w3 w2 w1. reflexivity.
    + exact Hlen.
    + exists w'. rewrite Hrun. cbn [List.length seq map combine fold_left].
      rewrite <- app_assoc. split; [reflexivity|]. split; [exact Htape|].
      split.
      { rewrite Hlog. subst w3 w2 w1. cbn. now rewrite <- app_assoc. }
      split.
      { rewrite Hfiles. subst w3 w2 w1. reflexivity. }
      split; [rewrite Hff; subst w3 w2 w1; reflexivity|].
      split; [rewrite Hul; subst w3 w2 w1; reflexivity|].
      eapply sameEnvironment_trans; [|exact Henv].
      subst w3 w2 w1. same_environment.
Qed.

(** One pass of the clean-up loop never throws. *)
Lemma unlink_step (p : JSString) (w : World) :
  exists w2,
    tryCatch (fs_unlink p)
             (fun err =>
                console_warn (js "Warning: Could not delete temporary file "
                              ++ p ++ js ":") err) w
    = (Ok tt, w2)
    /\ unlinkLog w2 = unlinkLog w ++ [p]
    /\ (unlinkFault w p = None -> file_exists p (files w2) = false)
    /\ (forall q, file_exists q (files w2) = true -> file_exists q (files w) = true)
    /\ (forall reason,
          unlinkFault w p = Some reason ->
          In (ConsoleWarn (unlinkWarning p) (Rejection reason)) (console w2))
    /\ (forall entry, In entry (console w) -> In entry (console w2))
    /\ ffmpegLog w2 = ffmpegLog w
    /\ ttsLog w2 = ttsLog w
    /\ sameEnvironment w w2.
Proof.
  unfold tryCatch, fs_unlink.
  destruct (unlinkFault w p) as [reason|] eqn:Hf.
  - eexists. split; [reflexivity|]. cbn.
    split; [reflexivity|]. split; [discriminate|]. split; [auto|].
    split. { intros r E. inversion E; subst. apply in_or_app. right. now left. }
    split. { intros entry H. apply in_or_app. now left. }
    split; [reflexivity|]. split; [reflexivity|]. same_environment.
  - destruct (file_exists p (files w)) eqn:Hex.
    + eexists. split; [reflexivity|]. cbn.
      split; [reflexivity|].
      split; [intros _; apply file_exists_remove_same|].
      split; [intros q; apply file_exists_remove_mono|].
      split; [discriminate|]. split; [auto|].
      split; [reflexivity|]. split; [reflexivity|]. same_environment.
    + eexists. split; [reflexivity|]. cbn.
      split; [reflexivity|]. split; [auto|]. split; [auto|].
      split; [discriminate|].
      split. { intros entry H. apply in_or_app. now left. }
      split; [reflexivity|]. split; [reflexivity|]. same_environment.
Qed.

Lemma cleanupLoop_spec :
  forall (audioPaths : list JSString) (w : World),
  exists w',
    cleanupLoop audioPaths w = (Ok tt, w')
    /\ unlinkLog w' = unlinkLog w ++ audioPaths
    /\ (forall p, In p audioPaths -> unlinkFault w p = None ->
                  file_exists p (files w') = false)
    /\ (forall q, file_exists q (files w') = true -> file_exists q (files w) = true)
    /\ (forall p reason,
          In p audioPaths -> unlinkFault w p = Some reason ->
          In (ConsoleWarn (unlinkWarning p) (Rejection reason)) (console w'))
    /\ (forall entry, In entry (console w) -> In entry (console w'))
    /\ ffmpegLog w' = ffmpegLog w
    /\ ttsLog w' = ttsLog w
    /\ sameEnvironment w w'.
Proof.
  induction audioPaths as [|p audioPaths IH]; intros w.
  - exists w. cbn. rewrite app_nil_r. repeat split; auto; try contradiction.
  - destruct (unlink_step p w)
      as (w2 & Hstep & Hul2 & Hgone2 & Hmono2 & Hwarn2 & Hcon2 & Hff2 & Htts2 & Henv2).
    destruct (IH w2)
      as (w' & Hrun & Hul & Hgone & Hmono & Hwarn & Hcon & Hff & Htts & Henv).
    exists w'. cbn [cleanupLoop]. unfold bind. rewrite Hstep.
    split; [exact Hrun|].
    assert (Hfault : unlinkFault w2 = unlinkFault w) by apply Henv2.
    split. { rewrite Hul, Hul2, <- app_assoc. reflexivity. }
    split.
    { intros q [Hq|Hq] Hnone.
      - subst q. destruct (file_exists p (files w')) eqn:E; [|reflexivity].
        apply Hmono in E. rewrite (Hgone2 Hnone) in E. discriminate.
      - apply Hgone; [exact Hq|]. now rewrite Hfault. }
    split. { intros q Hq. apply Hmono2, Hmono, Hq. }
    split.
    { intros q reason [Hq|Hq] Hsome.
      - subst q. apply Hcon, Hwarn2, Hsome.
      - apply Hwarn; [exact Hq|]. now rewrite Hfault. }
    split. { intros entry H. apply Hcon, Hcon2, H. }
    split; [congruence|]. split; [congruence|].
    eapply sameEnvironment_trans; eauto.
Qed.

Lemma mergeSegments_end (audioPaths : list JSString) (finalAudioPath : JSString)
      (w : World) :
  ffmpegFault w = None ->
  exists w',
    mergeSegments audioPaths finalAudioPath w = (Ok tt, w')
    /\ ffmpegLog w' = ffmpegLog w ++ [(audioPaths, finalAudioPath)]
    /\ unlinkLog w' = unlinkLog w ++ audioPaths
    /\ (forall p, In p audioPaths -> unlinkFault w p = None ->
                  file_exists p (files w') = false)
    /\ (forall p reason,
          In p audioPaths -> unlinkFault w p = Some reason ->
          In (ConsoleWarn (unlinkWarning p) (Rejection reason)) (console w'))
    /\ (forall entry, In entry (console w) -> In entry (console w'))
    /\ ttsLog w' = ttsLog w
    /\ sameEnvironment w w'.
Proof.
  intros Hf. unfold mergeSegments, bind at 1, tryCatch, ffmpeg_concat. rewrite Hf.
  unfold bind at 1, console_log at 1.
  match goal with
  | |- exists w', cleanupLoop _ ?w0 = _ /\ _ =>
      destruct (cleanupLoop_spec audioPaths w0)
        as (w' & Hrun & Hul & Hgone & Hmono & Hwarn & Hcon & Hff & Htts & Henv)
  end.
  exists w'. split; [exact Hrun|].
  split; [rewrite Hff; reflexivity|].
  split; [rewrite Hul; reflexivity|].
  split; [exact Hgone|]. split; [exact Hwarn|].
  split. { intros entry H. apply Hcon. cbn. apply in_or_app. now left. }
  split; [rewrite Htts; reflexivity|].
  eapply sameEnvironment_trans; [|exact Henv]. same_environment.
Qed.

Lemma mergeSegments_error (audioPaths : list JSString) (finalAudioPath : JSString)
      (w : World) (reason : JSString) :
  ffmpegFault w = Some reason ->
  mergeSegments audioPaths finalAudioPath w
  = (Throw (Rejection reason),
     set_console
       (console w ++ [ConsoleError (js "Error merging audio files:") (Rejection reason)])
       (set_ffmpegLog (ffmpegLog w ++ [(audioPaths, finalAudioPath)]) w)).
Proof.
  intros Hf. unfold mergeSegments, bind at 1, tryCatch, ffmpeg_concat. rewrite Hf.
  reflexivity.
Qed.

(** The run up to the merge: what the world is when ffmpeg is started. *)
Lemma generateAudioSummary_synthesis (summariesByTopic : Buckets) (w : World)
      (audios : list Bytes) (tape' : list (Outcome Bytes)) :
  synthesisResolves w summariesByTopic audios tape' ->
  exists ws,
    (run console_log (js "Generating audio...");;
     run fs_mkdir (audioDirOf w);;
     synthesizeLoop (audioDirOf w) (List.length (speechScriptOf w summariesByTopic)) 0
                    (speechScriptOf w summariesByTopic) []) w
    = (Ok (segmentPathsOf w summariesByTopic), ws)
    /\ ttsTape ws = tape'
    /\ ttsLog ws = ttsLog w ++ map ttsRequest (speechScriptOf w summariesByTopic)
    /\ files ws
       = fold_left writeTo (combine (segmentPathsOf w summariesByTopic) audios) (files w)
    /\ ffmpegLog ws = ffmpegLog w
    /\ unlinkLog ws = unlinkLog w
    /\ sameEnvironment w ws.
Proof.
  intros (Hmk & Hwr & Ht & Hlen).
  unfold bind at 1, console_log at 1.
  remember (set_console _ w) as w1 eqn:Hw1.
  unfold bind at 1, fs_mkdir.
  assert (Hmk1 : mkdirFault w1 = None) by (subst w1; exact Hmk).
  rewrite Hmk1.
  destruct (synthesizeLoop_resolves (audioDirOf w)
              (List.length (speechScriptOf w summariesByTopic))
              (speechScriptOf w summariesByTopic) audios 0 [] w1 tape')
    as (ws & Hrun & Htape & Hlog & Hfiles & Hff & Hul & Henv).
  - intros p. subst w1. exact (Hwr p).
  - subst w1. exact Ht.
  - exact Hlen.
  - exists ws. split; [exact Hrun|]. split; [exact Htape|].
    split; [rewrite Hlog; subst w1; reflexivity|].
    split; [rewrite Hfiles; subst w1; reflexivity|].
    split; [rewrite Hff; subst w1; reflexivity|].
    split; [rewrite Hul; subst w1; reflexivity|].
    eapply sameEnvironment_trans; [|exact Henv]. subst w1. same_environment.
Qed.

Lemma generateAudioSummary_unfold (summariesByTopic : Buckets) (w : World) :
  generateAudioSummary summariesByTopic w
  = tryCatch
      (do audioPaths <-
          (run console_log (js "Generating audio...");;
           run fs_mkdir (audioDirOf w);;
           synthesizeLoop (audioDirOf w)
                          (List.length (speechScriptOf w summariesByTopic)) 0
                          (speechScriptOf w summariesByTopic) []);;
       run console_log (js "Merging audio segments...");;
       run mergeSegments audioPaths (finalAudioPathOf w);;
       run console_log (js "Final audio saved to: " ++ finalAudioPathOf w);;
       ret (finalAudioPathOf w))
      (fun error =>
         run console_error (js "Error generating audio summary:") error;;
         throw error) w.
Proof.
  unfold generateAudioSummary, tryCatch, bind, speechScriptOf, audioDirOf,
    finalAudioPathOf, audioDirOf.
  cbv beta.
  destruct (console_log (js "Generating audio...") w) as [[u|e] w1]; [|reflexivity].
  destruct (fs_mkdir (path_join (cwd w) (js "audio")) w1) as [[u'|e] w2]; [|reflexivity].
  destruct (synthesizeLoop _ _ 0 _ [] w2) as [[paths|e] w3]; reflexivity.
Qed.

Lemma generateAudioSummary_end (summariesByTopic : Buckets) (w : World)
      (audios : list Bytes) (tape' : list (Outcome Bytes)) :
  synthesisResolves w summariesByTopic audios tape' ->
  ffmpegFault w = None ->
  exists w',
    generateAudioSummary summariesByTopic w = (Ok (finalAudioPathOf w), w')
    /\ ttsLog w' = ttsLog w ++ map ttsRequest (speechScriptOf w summariesByTopic)
    /\ ffmpegLog w'
       = ffmpegLog w ++ [(segmentPathsOf w summariesByTopic, finalAudioPathOf w)]
    /\ unlinkLog w' = unlinkLog w ++ segmentPathsOf w summariesByTopic
    /\ (forall p, In p (segmentPathsOf w summariesByTopic) ->
                  unlinkFault w p = None -> file_exists p (files w') = false)
    /\ (forall p reason,
          In p (segmentPathsOf w summariesByTopic) ->
          unlinkFault w p = Some reason ->
          In (ConsoleWarn (unlinkWarning p) (Rejection reason)) (console w')).
Proof.
  intros Hready Hff.
  destruct (generateAudioSummary_synthesis summariesByTopic w audios tape' Hready)
    as (ws & Hsyn & Htape & Hlog & Hfiles & Hffl & Hul & Henv).
  rewrite generateAudioSummary_unfold. unfold tryCatch.
  unfold bind at 1. rewrite Hsyn.
  unfold bind at 1, console_log at 1.
  remember (set_console _ ws) as w4 eqn:Hw4.
  assert (Henv4 : sameEnvironment w w4).
  { eapply sameEnvironment_trans; [exact Henv|]. subst w4. same_environment. }
  assert (Hff4 : ffmpegFault w4 = None).
  { destruct Henv4 as (_ & _ & _ & E & _). now rewrite E. }
  destruct (mergeSegments_end (segmentPathsOf w summariesByTopic) (finalAudioPathOf w)
              w4 Hff4)
    as (w5 & Hrun & Hffl5 & Hul5 & Hgone & Hwarn & Hcon & Htts5 & Henv5).
  unfold bind at 1. rewrite Hrun.
  unfold bind at 1, console_log at 1. unfold ret.
  assert (Hfault : unlinkFault w4 = unlinkFault w) by apply Henv4.
  eexists. split; [reflexivity|]. cbn.
  split. { rewrite Htts5. subst w4. cbn. exact Hlog. }
  split. { rewrite Hffl5. subst w4. cbn. now rewrite Hffl. }
  split. { rewrite Hul5. subst w4. cbn. now rewrite Hul. }
  split. { intros p Hp Hnone. apply Hgone; [exact Hp|]. now rewrite Hfault. }
  intros p reason Hp Hsome. apply in_or_app. left.
  apply Hwarn; [exact Hp|]. now rewrite Hfault.
Qed.

Lemma generateAudioSummary_error (summariesByTopic : Buckets) (w : World)
      (audios : list Bytes) (tape' : list (Outcome Bytes)) (reason : JSString) :
  synthesisResolves w summariesByTopic audios tape' ->
  ffmpegFault w = Some reason ->
  exists w',
    generateAudioSummary summariesByTopic w = (Throw (Rejection reason), w')
    /\ ttsLog w' = ttsLog w ++ map ttsRequest (speechScriptOf w summariesByTopic)
    /\ ffmpegLog w'
       = ffmpegLog w ++ [(segmentPathsOf w summariesByTopic, finalAudioPathOf w)]
    /\ unlinkLog w' = unlinkLog w
    /\ files w'
       = fold_left writeTo (combine (segmentPathsOf w summariesByTopic) audios) (files w)
    /\ (forall p, In p (segmentPathsOf w summariesByTopic) ->
                  file_exists p (files w') = true).
Proof.
  intros Hready Hff.
  destruct (generateAudioSummary_synthesis summariesByTopic w audios tape' Hready)
    as (ws & Hsyn & Htape & Hlog & Hfiles & Hffl & Hul & Henv).
  rewrite generateAudioSummary_unfold. unfold tryCatch.
  unfold bind at 1. rewrite Hsyn.
  unfold bind at 1, console_log at 1.
  remember (set_console _ ws) as w4 eqn:Hw4.
  assert (Hff4 : ffmpegFault w4 = Some reason).
  { destruct Henv as (_ & _ & _ & E & _). subst w4. cbn. now rewrite E. }
  unfold bind at 1.
  rewrite (mergeSegments_error _ _ w4 reason Hff4).
  unfold bind at 1, console_error at 1, throw.
  eexists. split; [reflexivity|]. cbn.
  assert (Hfiles4 : files w4
            = fold_left writeTo (combine (segmentPathsOf w summariesByTopic) audios)
                        (files w))
    by (subst w4; exact Hfiles).
  split. { subst w4. cbn. exact Hlog. }
  split. { subst w4. cbn. now rewrite Hffl. }
  split. { subst w4. cbn. exact Hul. }
  split; [exact Hfiles4|].
  intros p Hp. rewrite Hfiles4. apply file_exists_after_writes. left.
  destruct Hready as (_ & _ & _ & Hlen).
  assert (Hmap : map fst (combine (segmentPathsOf w summariesByTopic) audios)
                 = segmentPathsOf w summariesByTopic).
  { assert (Hl : List.length (segmentPathsOf w summariesByTopic) = List.length audios).
    { unfold segmentPathsOf. now rewrite length_map, length_seq. }
    revert Hl. generalize (segmentPathsOf w summariesByTopic) as ps.
    generalize audios as l.
    induction l as [|a l IH]; intros [|q ps] Hl; simpl in *; try discriminate; auto.
    f_equal. apply IH. lia. }
  now rewrite Hmap.
Qed.

(** Whatever the services do, the loop asks for the lines' audio in line
    order, one request per line, stopping at the first failure; it starts
    no merge and deletes nothing. *)
Lemma synthesizeLoop_any (audioDir : JSString) (n : nat) :
  forall (segments : list ScriptLine) (index : nat) (audioPaths : list JSString)
         (w : World) (r : Res (list JSString)) (w' : World),
    synthesizeLoop audioDir n index segments audioPaths w = (r, w') ->
    ffmpegLog w' = ffmpegLog w
    /\ unlinkLog w' = unlinkLog w
    /\ ffmpegFault w' = ffmpegFault w
    /\ match r with
       | Ok out =>
           out = audioPaths
                 ++ map (segmentPath audioDir) (seq index (List.length segments))
           /\ ttsLog w' = ttsLog w ++ map ttsRequest segments
       | Throw _ =>
           exists k,
             k <= List.length segments
             /\ ttsLog w' = ttsLog w ++ map ttsRequest (firstn k segments)
       end.
Proof.
  induction segments as [|segment segments IH]; intros index audioPaths w r w' H.
  - cbn in H. inversion H; subst. cbn. rewrite !app_nil_r. repeat split.
  - cbn [synthesizeLoop] in H. unfold bind at 1, console_log at 1 in H.
    unfold bind at 1, tts_synthesizeSpeech in H. cbn [ttsTape set_console] in H.
    destruct (ttsTape w) as [|[audio|reason] tape].
    + inversion H; subst. cbn. repeat split. exists 1. split; [lia|reflexivity].
    + cbn [settle] in H. unfold bind at 1, fs_writeFile in H.
      cbn [writeFault set_tts set_console] in H.
      destruct (writeFault w (segmentPath audioDir index)) as [reason|].
      * inversion H; subst. cbn. repeat split. exists 1. split; [lia|reflexivity].
      * apply IH in H as (Hff & Hul & Hfault & Hres).
        split; [exact Hff|]. split; [exact Hul|]. split; [exact Hfault|].
        destruct r as [out|e].
        -- destruct Hres as (Hout & Hlog). split.
           ++ rewrite Hout, <- app_assoc. reflexivity.
           ++ rewrite Hlog. cbn. now rewrite <- app_assoc.
        -- destruct Hres as (k & Hk & Hlog). exists (S k). split; [simpl; lia|].
           rewrite Hlog. cbn. now rewrite <- app_assoc.
    + inversion H; subst. cbn. repeat split. exists 1. split; [lia|reflexivity].
Qed.

(** In every run of [generateAudioSummary]: either no merge is started,
    and the speech requests made are those of the first lines of the
    script, in order; or one merge is started, after every line was
    synthesized once and in order, with the segment paths in line order as
    its inputs. *)
Lemma generateAudioSummary_any (summariesByTopic : Buckets) (w : World) :
  let script := speechScriptOf w summariesByTopic in
  let w' := snd (generateAudioSummary summariesByTopic w) in
  (ffmpegLog w' = ffmpegLog w
   /\ exists k, k <= List.length script
                /\ ttsLog w' = ttsLog w ++ map ttsRequest (firstn k script))
  \/ (ffmpegLog w'
      = ffmpegLog w ++ [(segmentPathsOf w summariesByTopic, finalAudioPathOf w)]
      /\ ttsLog w' = ttsLog w ++ map ttsRequest script).
Proof.
  intros script w'. subst w'.
  destruct (generateAudioSummary summariesByTopic w) as [r w'] eqn:H. cbn [snd].
  rewrite generateAudioSummary_unfold in H.
  unfold tryCatch in H. unfold bind at 1 in H. unfold bind at 1, console_log at 1 in H.
  unfold bind at 1, fs_mkdir in H. cbn [mkdirFault set_console] in H.
  destruct (mkdirFault w) as [reason|].
  { left. cbn in H. inversion H; subst. cbn. split; [reflexivity|].
    exists 0. split; [lia|]. cbn. now rewrite app_nil_r. }
  fold script in H.
  match type of H with
  | context [synthesizeLoop ?d ?n 0 script [] ?w1] =>
      destruct (synthesizeLoop d n 0 script [] w1) as [[out|e] ws] eqn:E;
      destruct (synthesizeLoop_any d n script 0 [] w1 _ _ E) as (Hff & Hul & Hfault & Hres)
  end; cbn [fst snd] in *.
  - destruct Hres as (Hout & Hlog). cbn [app] in Hout.
    assert (Hpaths : out = segmentPathsOf w summariesByTopic) by exact Hout.
    clear Hout. subst out. right.
    unfold bind at 1, console_log at 1 in H.
    remember (set_console _ ws) as w4 eqn:Hw4.
    assert (Hff4 : ffmpegLog w4 = ffmpegLog w) by (subst w4; exact Hff).
    assert (Hlog4 : ttsLog w4 = ttsLog w ++ map ttsRequest script)
      by (subst w4; exact Hlog).
    unfold bind at 1 in H.
    destruct (ffmpegFault w4) as [reason|] eqn:Hf4.
    + rewrite (mergeSegments_error _ _ w4 reason Hf4) in H.
      unfold bind at 1, console_error at 1, throw in H.
      inversion H; subst r w'. cbn. rewrite Hff4, Hlog4. split; reflexivity.
    + destruct (mergeSegments_end (segmentPathsOf w summariesByTopic)
                  (finalAudioPathOf w) w4 Hf4)
        as (w5 & Hrun & Hffl5 & _ & _ & _ & _ & Htts5 & _).
      rewrite Hrun in H. unfold bind at 1, console_log at 1, ret in H.
      inversion H; subst r w'. cbn.
      rewrite Hffl5, Htts5, Hff4, Hlog4. split; reflexivity.
  - left. destruct Hres as (k & Hk & Hlog).
    unfold bind at 1, console_error at 1, throw in H.
    inversion H; subst r w'. cbn.
    split; [exact Hff|]. exists k. split; [exact Hk|exact Hlog].
Qed.

(* ================================================================== *)
(** ** The audio pipeline: the properties of the specification *)

(** C7. In every run of [generateAudioSummary] the speech requests made
    are those of the script's lines, at most one per line and in line
    order, and a merge, if one is started, is started after all of them,
    with one segment path per line, the path at position [i] being that of
    index [i].  When the synthesis phase goes through the merge is
    started: exactly one request was made per line and the audio returned
    for line [i] was written to the segment path of index [i]. *)
Theorem C7_one_segment_per_line (summariesByTopic : Buckets) (w : World) :
  let script := speechScriptOf w summariesByTopic in
  let audioPaths := segmentPathsOf w summariesByTopic in
  let w' := snd (generateAudioSummary summariesByTopic w) in
  ((ffmpegLog w' = ffmpegLog w
    /\ exists k, k <= List.length script
                 /\ ttsLog w' = ttsLog w ++ map ttsRequest (firstn k script))
   \/ (ffmpegLog w' = ffmpegLog w ++ [(audioPaths, finalAudioPathOf w)]
       /\ ttsLog w' = ttsLog w ++ map ttsRequest script))
  /\ List.length audioPaths = List.length script
  /\ (forall i, i < List.length script ->
                nth i audioPaths [] = segmentPath (audioDirOf w) i)
  /\ (forall audios tape',
        synthesisResolves w summariesByTopic audios tape' ->
        ffmpegLog w' = ffmpegLog w ++ [(audioPaths, finalAudioPathOf w)]
        /\ ttsLog w' = ttsLog w ++ map ttsRequest script
        /\ exists ws,
             (run console_log (js "Generating audio...");;
              run fs_mkdir (audioDirOf w);;
              synthesizeLoop (audioDirOf w) (List.length script) 0 script []) w
             = (Ok audioPaths, ws)
             /\ ttsLog ws = ttsLog w ++ map ttsRequest script
             /\ files ws = fold_left writeTo (combine audioPaths audios) (files w)).
Proof.
  intros script audioPaths w'.
  split; [exact (generateAudioSummary_any summariesByTopic w)|].
  split. { unfold audioPaths, segmentPathsOf. now rewrite length_map, length_seq. }
  split.
  { intros i Hi. unfold audioPaths, segmentPathsOf. fold script.
    rewrite (nth_indep _ [] (segmentPath (audioDirOf w) 0))
      by (rewrite length_map, length_seq; exact Hi).
    rewrite map_nth. rewrite seq_nth by exact Hi. reflexivity. }
  intros audios tape' Hready.
  destruct (generateAudioSummary_synthesis summariesByTopic w audios tape' Hready)
    as (ws & Hsyn & Htape & Hlog & Hfiles & Hffl & Hul & Henv).
  assert (Hlogs : ffmpegLog w' = ffmpegLog w ++ [(audioPaths, finalAudioPathOf w)]
                  /\ ttsLog w' = ttsLog w ++ map ttsRequest script).
  { unfold w'. destruct (ffmpegFault w) as [reason|] eqn:Hff.
    - destruct (generateAudioSummary_error summariesByTopic w audios tape' reason
                  Hready Hff) as (w1 & Hrun & Htts & Hffl' & _).
      rewrite Hrun. cbn [snd]. split; assumption.
    - destruct (generateAudioSummary_end summariesByTopic w audios tape' Hready Hff)
        as (w1 & Hrun & Htts & Hffl' & _).
      rewrite Hrun. cbn [snd]. split; assumption. }
  destruct Hlogs as (H1 & H2). split; [exact H1|]. split; [exact H2|].
  exists ws. auto.
Qed.

Lemma C7_one_segment_per_line_witness :
  let audios := [[Byte.x01]; [Byte.x02]; [Byte.x03]; [Byte.x04]; [Byte.x05]] in
  let w := exampleWorld [] (map Resolve audios ++ []) in
  let script := speechScriptOf w initBuckets in
  let audioPaths := segmentPathsOf w initBuckets in
  let w' := snd (generateAudioSummary initBuckets w) in
  List.length audioPaths = List.length script
  /\ ffmpegLog w' = ffmpegLog w ++ [(audioPaths, finalAudioPathOf w)]
  /\ ttsLog w' = ttsLog w ++ map ttsRequest script
  /\ exists ws,
       (run console_log (js "Generating audio...");;
        run fs_mkdir (audioDirOf w);;
        synthesizeLoop (audioDirOf w) (List.length script) 0 script []) w
       = (Ok audioPaths, ws)
       /\ ttsLog ws = ttsLog w ++ map ttsRequest script
       /\ files ws = fold_left writeTo (combine audioPaths audios) (files w).
Proof.
  intros audios w script audioPaths w'.
  destruct (C7_one_segment_per_line initBuckets w) as (_ & Hlen & _ & Hrun).
  split; [exact Hlen|].
  apply (Hrun audios []).
  unfold synthesisResolves. split; [reflexivity|]. split; [intros p; reflexivity|].
  split; reflexivity.
Defined.

(** C8. After a synthesis phase that went through: if the concatenation
    succeeds the method resolves to the artifact path, [unlink] has been
    called on every segment file, in order, each file whose [unlink] was
    not refused is gone, and a refused [unlink] has left a warning on the
    console and nothing else; if the concatenation fails the method
    rejects with ffmpeg's error, [unlink] has been called on nothing and
    every segment file is still there. *)
Theorem C8_cleanup_on_success_only
        (summariesByTopic : Buckets) (w : World)
        (audios : list Bytes) (tape' : list (Outcome Bytes)) :
  synthesisResolves w summariesByTopic audios tape' ->
  let audioPaths := segmentPathsOf w summariesByTopic in
  (ffmpegFault w = None ->
   exists w',
     generateAudioSummary summariesByTopic w = (Ok (finalAudioPathOf w), w')
     /\ unlinkLog w' = unlinkLog w ++ audioPaths
     /\ (forall p, In p audioPaths -> unlinkFault w p = None ->
                   file_exists p (files w') = false)
     /\ (forall p reason,
           In p audioPaths -> unlinkFault w p = Some reason ->
           In (ConsoleWarn (unlinkWarning p) (Rejection reason)) (console w')))
  /\ (forall reason,
        ffmpegFault w = Some reason ->
        exists w',
          generateAudioSummary summariesByTopic w = (Throw (Rejection reason), w')
          /\ unlinkLog w' = unlinkLog w
          /\ (forall p, In p audioPaths -> file_exists p (files w') = true)).
Proof.
  intros Hready audioPaths. split.
  - intros Hff.
    destruct (generateAudioSummary_end summariesByTopic w audios tape' Hready Hff)
      as (w' & Hrun & _ & _ & Hul & Hgone & Hwarn).
    exists w'. auto.
  - intros reason Hff.
    destruct (generateAudioSummary_error summariesByTopic w audios tape' reason Hready Hff)
      as (w' & Hrun & _ & _ & Hul & _ & Hkept).
    exists w'. auto.
Qed.

Lemma C8_cleanup_on_success_only_witness :
  let audios := [[Byte.x01]; [Byte.x02]; [Byte.x03]; [Byte.x04]; [Byte.x05]] in
  let w := exampleWorldWith [] (map Resolve audios ++ []) None segment1Busy in
  let audioPaths := segmentPathsOf w initBuckets in
  (ffmpegFault w = None ->
   exists w',
     generateAudioSummary initBuckets w = (Ok (finalAudioPathOf w), w')
     /\ unlinkLog w' = unlinkLog w ++ audioPaths
     /\ (forall p, In p audioPaths -> unlinkFault w p = None ->
                   file_exists p (files w') = false)
     /\ (forall p reason,
           In p audioPaths -> unlinkFault w p = Some reason ->
           In (ConsoleWarn (unlinkWarning p) (Rejection reason)) (console w')))
  /\ (forall reason,
        ffmpegFault w = Some reason ->
        exists w',
          generateAudioSummary initBuckets w = (Throw (Rejection reason), w')
          /\ unlinkLog w' = unlinkLog w
          /\ (forall p, In p audioPaths -> file_exists p (files w') = true)).
Proof.
  intros audios w.
  apply (C8_cleanup_on_success_only initBuckets w audios []).
  unfold synthesisResolves. split; [reflexivity|]. split; [intros p; reflexivity|].
  split; reflexivity.
Defined.

(* ================================================================== *)
(** ** Worked examples *)

Example category_match_any_case :
  option_map cap1 (str_match re_CATEGORY (js "Category:  tech_news and more"))
  = Some (Some (js "tech_news")).
Proof. vm_compute. reflexivity. Qed.

Example category_in_brackets_is_no_match :
  parseCategory (js "CATEGORY: [TECH_NEWS]") = Ok (js "OTHER").
Proof. vm_compute. reflexivity. Qed.

Example category_stops_at_the_space :
  parseCategory (js "CATEGORY: Tech News") = Ok (js "TECH").
Proof. vm_compute. reflexivity. Qed.

Example summary_of_blanks_gives_one_back :
  option_map cap1 (str_match re_SUMMARY (js "SUMMARY:   ")) = Some (Some (js " ")).
Proof. vm_compute. reflexivity. Qed.

Example summary_marker_at_the_end_is_no_match :
  parseSummary (js "All good. SUMMARY:") = Ok (js "All good. SUMMARY:").
Proof. vm_compute. reflexivity. Qed.

Example split_two_sentences :
  split re_sentence_gap (js "X happened. Y followed.")
  = [js "X happened."; js "Y followed."].
Proof. vm_compute. reflexivity. Qed.

Example split_keeps_inner_periods :
  split re_sentence_gap (js ".   a.b. c .") = [js "."; js "a.b."; js "c ."].
Proof. vm_compute. reflexivity. Qed.

Example split_empty : split re_sentence_gap [] = [[]].
Proof. vm_compute. reflexivity. Qed.

Example segmentPath_12 :
  segmentPath (js "/home/app/audio") 12 = js "/home/app/audio/segment_12.mp3".
Proof. vm_compute. reflexivity. Qed.

(** Two chunks: the second response mentions a category, the topic stays
    the first one's. *)
Example two_chunks_run :
  fst (summarizeNewsletter (repeat 97%N (N.to_nat 15001)) (js "Ledger")
         (exampleWorld
            [ Resolve (js "CATEGORY: business" ++ LF ++ js "SUMMARY: First part.");
              Resolve (js "CATEGORY: SECURITY and a second part.") ] []))
  = Ok {| topic := js "BUSINESS";
          summary := js "First part." ++ LF ++ js "CATEGORY: SECURITY and a second part." |}.
Proof. vm_compute. reflexivity. Qed.

(** A failed merge: the error comes out, nothing is unlinked, the five
    segment files stay. *)
Example failed_merge_run :
  let w := exampleWorldWith []
             (map Resolve [[Byte.x01]; [Byte.x02]; [Byte.x03]; [Byte.x04]; [Byte.x05]])
             (Some (js "ffmpeg exited with code 1")) (fun _ => None) in
  let r := generateAudioSummary initBuckets w in
  fst r = Throw (Rejection (js "ffmpeg exited with code 1"))
  /\ unlinkLog (snd r) = []
  /\ map fst (files (snd r)) = segmentPathsOf w initBuckets.
Proof. vm_compute. repeat split. Qed.

(** A successful merge with one refused [unlink]: the run resolves, the
    refused file is the only segment left, next to the artifact. *)
Example refused_unlink_run :
  let w := exampleWorldWith []
             (map Resolve [[Byte.x01]; [Byte.x02]; [Byte.x03]; [Byte.x04]; [Byte.x05]])
             None segment1Busy in
  let r := generateAudioSummary initBuckets w in
  fst r = Ok (js "/home/app/audio/newsletter-summary-2024-05-17.mp3")
  /\ unlinkLog (snd r) = segmentPathsOf w initBuckets
  /\ map fst (files (snd r))
     = [ js "/home/app/audio/segment_1.mp3";
         js "/home/app/audio/newsletter-summary-2024-05-17.mp3" ].
Proof. vm_compute. repeat split. Qed.

(* ================================================================== *)
(** * Further properties of the program *)

(** ** What the patterns capture *)

Lemma star_split (p : N -> bool) (k : Cont) :
  forall s pv c1 m,
    star p k pv s c1 = Some m ->
    exists pre s' pv',
      s = pre ++ s' /\ forallb p pre = true /\ k (mkMState pv' s' c1) = Some m.
Proof.
  induction s as [|c t IH]; intros pv c1 m H; simpl in H.
  - exists [], [], pv. auto.
  - destruct (p c) eqn:Hp.
    + destruct (star p k (Some c) t c1) eqn:E.
      * inversion H; subst. apply IH in E as (pre & s' & pv' & Hs & Hall & Hk).
        exists (c :: pre), s', pv'. subst t. simpl. rewrite Hp. auto.
      * exists [], (c :: t), pv. auto.
    + exists [], (c :: t), pv. auto.
Qed.

Lemma rmatch_lit_inv (l : JSString) (r : Regex) :
  forall st k m,
    rmatch (lit_i l r) st k = Some m -> exists st', rmatch r st' k = Some m.
Proof.
  induction l as [|c l IH]; intros st k m H; [eauto|].
  simpl in H. destruct (rest st) as [|x t]; [discriminate|].
  destruct (chr_i c x); [|discriminate]. eapply IH; eauto.
Qed.

Lemma group_plus_capture (p : N -> bool) (st : MState) (k : Cont) (m : MState) :
  rmatch (Group (Plus p)) st k = Some m ->
  exists st' g,
    k st' = Some m /\ cap1 st' = Some g /\ g <> [] /\ forallb p g = true.
Proof.
  cbn [rmatch]. destruct (rest st) as [|c t] eqn:Hr; [discriminate|].
  destruct (p c) eqn:Hp; [|discriminate]. intros H.
  apply star_split in H as (pre & s' & pv' & Ht & Hall & Hk).
  cbn [rest prev] in Hk.
  eexists. exists (c :: pre). split; [exact Hk|]. cbn [cap1].
  split.
  - f_equal. subst t. cbn [List.length]. rewrite length_app.
    replace (S (List.length pre + List.length s') - List.length s')
      with (S (List.length pre)) by lia.
    cbn [firstn]. f_equal.
    rewrite firstn_app, firstn_all, Nat.sub_diag. cbn. now rewrite app_nil_r.
  - split; [discriminate|]. cbn. now rewrite Hp.
Qed.

Lemma exec_inv (re : Regex) :
  forall s pv m, exec re pv s = Some m -> exists pv' s', matchAt re pv' s' = Some m.
Proof.
  induction s as [|c t IH]; intros pv m H; simpl in H.
  - destruct (matchAt re pv []) eqn:E; [|discriminate]. inversion H; subst. eauto.
  - destruct (matchAt re pv (c :: t)) eqn:E.
    + inversion H; subst. eauto.
    + eapply IH; eauto.
Qed.

Lemma category_capture (s : JSString) (m : MState) :
  str_match re_CATEGORY s = Some m ->
  exists g, cap1 m = Some g /\ g <> [] /\ forallb class_AZ_underscore_i g = true.
Proof.
  unfold str_match. intros H.
  apply exec_inv in H as (pv & s' & H). unfold matchAt, re_CATEGORY in H.
  apply rmatch_lit_inv in H as (st1 & H). cbn [rmatch] in H.
  apply star_split in H as (pre & s2 & pv2 & _ & _ & H).
  apply group_plus_capture in H as (st' & g & Hk & Hcap & Hne & Hall).
  inversion Hk; subst. eauto.
Qed.

Lemma isSpace_range (x : N) : isSpace x = true -> (x <= 32 \/ 160 <= x)%N.
Proof.
  unfold isSpace. intros H. apply orb_true_iff in H as [H|H].
  - apply existsb_exists in H as (k & Hin & E). apply N.eqb_eq in E. subst k.
    simpl in Hin. repeat (destruct Hin as [Hin|Hin]; [lia|]). contradiction.
  - apply andb_true_iff in H as [H _]. apply N.leb_le in H. lia.
Qed.

Lemma class_AZ_range (x : N) :
  class_AZ_underscore_i x = true -> (65 <= x <= 122)%N.
Proof.
  unfold class_AZ_underscore_i, canonicalize, upper1, isUpperAZ, isLowerAZ.
  destruct (97 <=? x)%N eqn:E1; destruct (x <=? 122)%N eqn:E2; cbn [andb];
    intros H; apply orb_true_iff in H as [H|H];
    repeat match goal with
           | H : andb _ _ = true |- _ => apply andb_true_iff in H as [? ?]
           | H : (_ <=? _)%N = true |- _ => apply N.leb_le in H
           | H : (_ <=? _)%N = false |- _ => apply N.leb_gt in H
           | H : (_ =? _)%N = true |- _ => apply N.eqb_eq in H
           end; lia.
Qed.

Lemma class_AZ_not_space (x : N) :
  class_AZ_underscore_i x = true -> isSpace x = false.
Proof.
  intros H. apply class_AZ_range in H.
  destruct (isSpace x) eqn:E; [|reflexivity].
  apply isSpace_range in E. lia.
Qed.

Lemma dropWhile_head (p : N -> bool) (s : JSString) :
  match s with c :: _ => p c = false | [] => True end -> dropWhile p s = s.
Proof. destruct s as [|c t]; simpl; [reflexivity|]. now intros ->. Qed.

Lemma trim_no_space (g : JSString) :
  forallb (fun c => negb (isSpace c)) g = true -> trim g = g.
Proof.
  intros H. rewrite forallb_forall in H.
  unfold trim, trimStart, trimEnd.
  assert (E1 : dropWhile isSpace g = g).
  { apply dropWhile_head. destruct g as [|c t]; [exact I|].
    apply negb_true_iff, H. now left. }
  rewrite E1.
  assert (E2 : dropWhile isSpace (rev g) = rev g).
  { apply dropWhile_head. destruct (rev g) as [|c t] eqn:Er; [exact I|].
    apply negb_true_iff, H. apply in_rev. rewrite Er. now left. }
  rewrite E2. apply rev_involutive.
Qed.

Lemma parseCategory_topic_chars (result t : JSString) :
  parseCategory result = Ok t ->
  t <> [] /\ forallb isTopicChar t = true.
Proof.
  unfold parseCategory.
  destruct (str_match re_CATEGORY result) as [m|] eqn:E.
  - apply category_capture in E as (g & Hcap & Hne & Hall). rewrite Hcap.
    intros H. inversion H; subst t. clear H.
    assert (Htrim : trim g = g).
    { apply trim_no_space. apply forallb_forall. intros c Hc.
      rewrite forallb_forall in Hall. apply negb_true_iff, class_AZ_not_space. auto. }
    rewrite Htrim. split.
    + destruct g; [congruence|discriminate].
    + unfold toUpperCase. rewrite forallb_forall in *. intros c Hc.
      apply in_map_iff in Hc as (x & <- & Hx). exact (Hall x Hx).
  - intros H. inversion H; subst t. split; [discriminate|reflexivity].
Qed.

(** ** What a summarisation run can have done *)

Ltac besides_chat :=
  unfold sameBesidesChat, sameEnvironment; cbn; repeat split; reflexivity.

Lemma sameBesidesChat_trans (w1 w2 w3 : World) :
  sameBesidesChat w1 w2 -> sameBesidesChat w2 w3 -> sameBesidesChat w1 w3.
Proof.
  unfold sameBesidesChat.
  intros (a1 & a2 & a3 & a4 & a5 & a6 & a7 & a8 & a9)
         (b1 & b2 & b3 & b4 & b5 & b6 & b7 & b8 & b9).
  repeat split; try congruence.
  all: destruct a9 as (c1 & c2 & c3 & c4 & c5 & c6 & c7);
       destruct b9 as (d1 & d2 & d3 & d4 & d5 & d6 & d7); congruence.
Qed.

Lemma chat_create_inv (req : ChatRequest) (w : World) r w' :
  chat_completions_create req w = (r, w') ->
  sameBesidesChat w w' /\ chatLog w' = chatLog w ++ [req]
  /\ chatTape w' = tl (chatTape w).
Proof.
  unfold chat_completions_create. intros H.
  destruct (chatTape w) as [|[res|reason] t]; inversion H; subst;
    (split; [besides_chat|split; reflexivity]).
Qed.

Lemma processSingleChunk_inv (content : JSString) (w : World) r w' :
  processSingleChunk content w = (r, w') ->
  sameBesidesChat w w'
  /\ match r with
     | Ok x => exists result,
                 parseCategory result = Ok (topic x)
                 /\ parseSummary result = Ok (summary x)
     | Throw _ => True
     end.
Proof.
  unfold processSingleChunk, bind at 1. intros H.
  destruct (chat_completions_create _ w) as [[result|e] w1] eqn:E.
  - apply chat_create_inv in E as (Hf & _).
    unfold bind at 1 in H. rewrite category_branch in H.
    destruct (parseCategory result) as [t|e] eqn:Hc.
    + unfold bind at 1 in H. rewrite summary_branch in H.
      destruct (parseSummary result) as [s|e] eqn:Hs; inversion H; subst.
      * split; [exact Hf|]. exists result. auto.
      * split; [exact Hf|exact I].
    + inversion H; subst. split; [exact Hf|exact I].
  - apply chat_create_inv in E as (Hf & _). inversion H; subst. auto.
Qed.

Lemma chunkIteration_inv enc tokens i fs ct (w : World) r w' :
  chunkIteration enc tokens i fs ct w = (r, w') ->
  sameBesidesChat w w'
  /\ match r with
     | Ok (s, t) =>
         if i =? 0 then exists result, parseCategory result = Ok t else t = ct
     | Throw _ => True
     end.
Proof.
  unfold chunkIteration, bind at 1. intros H.
  destruct (chat_completions_create _ w) as [[result|e] w1] eqn:E;
    apply chat_create_inv in E as (Hf & _).
  - destruct (i =? 0).
    + unfold bind at 1 in H. rewrite category_branch in H.
      destruct (parseCategory result) as [t|e] eqn:Hc.
      * unfold bind at 1 in H. rewrite summary_branch in H.
        destruct (parseSummary result) as [s|e] eqn:Hs; inversion H; subst.
        -- split; [exact Hf|]. eauto.
        -- split; [exact Hf|exact I].
      * inversion H; subst. split; [exact Hf|exact I].
    + inversion H; subst. split; [exact Hf|reflexivity].
  - inversion H; subst. auto.
Qed.

Lemma sameBesidesChat_refl (w : World) : sameBesidesChat w w.
Proof. unfold sameBesidesChat, sameEnvironment. repeat split. Qed.

Lemma chunkLoop_inv enc tokens :
  forall fuel i fs ct (w : World) r w',
    chunkLoop fuel enc tokens i fs ct w = (r, w') ->
    sameBesidesChat w w'
    /\ match r with
       | Ok (s, t) =>
           (0 < i -> t = ct)
           /\ (i = 0 -> 0 < List.length tokens ->
               exists result, parseCategory result = Ok t)
       | Throw _ => True
       end.
Proof.
  induction fuel as [|fuel IH]; intros i fs ct w r w' H; cbn [chunkLoop] in H.
  - destruct (i <? List.length tokens) eqn:E; inversion H; subst.
    + split; [apply sameBesidesChat_refl|exact I].
    + split; [apply sameBesidesChat_refl|]. apply Nat.ltb_ge in E.
      split; [reflexivity|]. intros -> Hpos. lia.
  - destruct (i <? List.length tokens) eqn:E.
    + unfold bind in H.
      destruct (chunkIteration enc tokens i fs ct w) as [[[s1 t1]|e] w1] eqn:Hit.
      * apply chunkIteration_inv in Hit as (Hf1 & Hres1). cbn [fst snd] in H.
        apply IH in H as (Hf2 & Hres2).
        split; [eapply sameBesidesChat_trans; eauto|].
        destruct r as [[s t]|e]; [|exact I].
        destruct Hres2 as (Hkeep & _).
        assert (Ht : t = t1) by (apply Hkeep; pose proof maxTokensPerChunk_pos; lia).
        subst t. split.
        -- intros Hi. destruct (i =? 0) eqn:E0; [apply Nat.eqb_eq in E0; lia|exact Hres1].
        -- intros -> _. exact Hres1.
      * apply chunkIteration_inv in Hit as (Hf1 & _). inversion H; subst. auto.
    + inversion H; subst. split; [apply sameBesidesChat_refl|].
      apply Nat.ltb_ge in E. split; [reflexivity|]. intros -> Hpos. lia.
Qed.

Lemma summarizeNewsletter_inv (content source : JSString) (w : World) r w' :
  summarizeNewsletter content source w = (r, w') ->
  sameBesidesChat w w'
  /\ match r with
     | Ok x => exists result, parseCategory result = Ok (topic x)
     | Throw _ => True
     end.
Proof.
  unfold summarizeNewsletter, tryCatch. intros H.
  match type of H with
  | (match ?m w with _ => _ end) = _ =>
      assert (Hin : forall r1 w1, m w = (r1, w1) ->
                sameBesidesChat w w1
                /\ match r1 with
                   | Ok x => exists result, parseCategory result = Ok (topic x)
                   | Throw _ => True
                   end);
      [|destruct (m w) as [[x|e] w1] eqn:Hm]
  end.
  - intros r1 w1 Hm. unfold bind at 1 in Hm. unfold import_gpt_tokenizer in Hm.
    destruct (gptTokenizer w) as [enc|reason]; cbn [settle] in Hm;
      [|inversion Hm; subst; split; [apply sameBesidesChat_refl|exact I]].
    unfold bind at 1 in Hm.
    destruct (encode enc content) as [tokens|reason]; cbn [settle] in Hm;
      [|inversion Hm; subst; split; [apply sameBesidesChat_refl|exact I]].
    destruct (List.length tokens <=? maxTokensPerChunk) eqn:Hle.
    + apply processSingleChunk_inv in Hm as (Hf & Hres). split; [exact Hf|].
      destruct r1 as [x|e]; [|exact I]. destruct Hres as (result & Hc & _). eauto.
    + unfold bind at 1, console_log at 1 in Hm. unfold bind at 1 in Hm.
      match type of Hm with
      | context [chunkLoop ?f ?e ?t ?i ?a ?b ?w0] =>
          destruct (chunkLoop f e t i a b w0) as [[[s t1]|e1] w2] eqn:Hloop
      end.
      * apply chunkLoop_inv in Hloop as (Hf & _ & Hfirst).
        inversion Hm; subst. split.
        -- eapply sameBesidesChat_trans; [|exact Hf]. besides_chat.
        -- cbn [topic snd]. apply Hfirst; [reflexivity|].
           apply Nat.leb_gt in Hle. lia.
      * apply chunkLoop_inv in Hloop as (Hf & _).
        inversion Hm; subst. split; [|exact I].
        eapply sameBesidesChat_trans; [|exact Hf]. besides_chat.
  - destruct (Hin _ _ eq_refl) as (Hf & Hres). inversion H; subst. auto.
  - destruct (Hin _ _ eq_refl) as (Hf & _).
    unfold bind at 1, console_error at 1, throw in H. inversion H; subst.
    split; [|exact I]. eapply sameBesidesChat_trans; [exact Hf|]. besides_chat.
Qed.

(** X1. Whatever the model answers, a topic that [summarizeNewsletter]
    resolves to is a non-empty run of the letters [A] to [Z] and [_]. *)
Theorem summarizeNewsletter_topic_shape
        (content source : JSString) (w : World) (r : SummaryResult) (w' : World) :
  summarizeNewsletter content source w = (Ok r, w') ->
  topic r <> [] /\ forallb isTopicChar (topic r) = true.
Proof.
  intros H. apply summarizeNewsletter_inv in H as (_ & result & Hc).
  eapply parseCategory_topic_chars; eauto.
Qed.

Lemma summarizeNewsletter_topic_shape_witness :
  topic {| topic := js "TECH"; summary := js "New chips." |} <> []
  /\ forallb isTopicChar (topic {| topic := js "TECH"; summary := js "New chips." |}) = true.
Proof.
  eapply (summarizeNewsletter_topic_shape (js "Chips") (js "Wire")
            (exampleWorld [Resolve (js "Category: Tech News. Summary: New chips.")] [])).
  vm_compute. reflexivity.
Defined.

(** X2. A run of [summarizeNewsletter], however it ends, changes nothing
    but the chat service (the requests it has received, the answers it has
    left) and the console: no file, no speech request, no merge, no
    deletion and no read mark comes from it. *)
Theorem summarizeNewsletter_effects (content source : JSString) (w : World) :
  sameBesidesChat w (snd (summarizeNewsletter content source w)).
Proof.
  destruct (summarizeNewsletter content source w) as [r w'] eqn:H.
  apply summarizeNewsletter_inv in H as (Hf & _). exact Hf.
Qed.

(** ** Reading a response that has the markers *)

Lemma star_greedy (p : N -> bool) (k : Cont) (P : MState -> Prop)
      (s' : JSString) (c1 : option JSString) :
  match s' with c :: _ => p c = false | [] => True end ->
  (forall pv', exists m, k (mkMState pv' s' c1) = Some m /\ P m) ->
  forall ws pv,
    forallb p ws = true ->
    exists m, star p k pv (ws ++ s') c1 = Some m /\ P m.
Proof.
  intros Hhead Hk. induction ws as [|c ws IH]; intros pv Hall.
  - cbn [app]. destruct (Hk pv) as (m & Hm & HP). exists m. split; [|exact HP].
    destruct s' as [|c t]; simpl; [exact Hm|]. now rewrite Hhead.
  - simpl in Hall. apply andb_true_iff in Hall as [Hc Hall].
    destruct (IH (Some c) Hall) as (m & Hm & HP).
    exists m. split; [|exact HP]. simpl. now rewrite Hc, Hm.
Qed.

Lemma lit_run (r : Regex) (k : Cont) (P : MState -> Prop)
      (s : JSString) (c1 : option JSString) :
  (forall pv', exists x, rmatch r (mkMState pv' s c1) k = Some x /\ P x) ->
  forall l m pv,
    prefix_i l m = true ->
    List.length m = List.length l ->
    exists x, rmatch (lit_i l r) (mkMState pv (m ++ s) c1) k = Some x /\ P x.
Proof.
  intros Hr. induction l as [|c l IH]; intros m pv Hp Hlen.
  - destruct m; [|discriminate]. apply Hr.
  - destruct m as [|y m]; [discriminate|]. simpl in Hp.
    apply andb_true_iff in Hp as [Hc Hp]. injection Hlen as Hlen.
    cbn [lit_i fold_right rmatch rest app]. rewrite Hc.
    apply (IH m (Some y) Hp Hlen).
Qed.

Lemma exec_here (re : Regex) (pv : option N) (s : JSString) (m : MState) :
  matchAt re pv s = Some m -> exec re pv s = Some m.
Proof. intros H. destruct s; simpl; now rewrite H. Qed.

Lemma prefix_i_firstn (l : JSString) :
  forall x n, prefix_i l x = true -> List.length l <= n -> prefix_i l (firstn n x) = true.
Proof.
  induction l as [|c l IH]; intros x n H Hn; [reflexivity|].
  destruct x as [|y x]; [discriminate|]. simpl in H.
  apply andb_true_iff in H as [Hc H].
  destruct n as [|n]; [simpl in Hn; lia|]. simpl. rewrite Hc. simpl.
  apply IH; [exact H|simpl in Hn; lia].
Qed.

Lemma exec_skip (l : JSString) (r : Regex) (s : JSString) :
  forall pre pv,
    includes_i l (pre ++ firstn (List.length l - 1) s) = false ->
    exists pv', exec (lit_i l r) pv (pre ++ s) = exec (lit_i l r) pv' s.
Proof.
  induction pre as [|c pre IH]; intros pv H; [eauto|].
  change (includes_i l ((c :: pre) ++ firstn (List.length l - 1) s))
    with (prefix_i l ((c :: pre) ++ firstn (List.length l - 1) s)
          || includes_i l (pre ++ firstn (List.length l - 1) s)) in H.
  apply orb_false_iff in H as [Hp Hrest].
  destruct (IH (Some c) Hrest) as (pv' & E). exists pv'. rewrite <- E.
  cbn [app exec].
  destruct (matchAt (lit_i l r) pv (c :: pre ++ s)) as [m|] eqn:Hm; [|reflexivity].
  exfalso. unfold matchAt in Hm. apply rmatch_lit_prefix in Hm. cbn [rest] in Hm.
  apply (prefix_i_firstn _ _ (List.length (c :: pre) + (List.length l - 1))) in Hm.
  - change (c :: pre ++ s) with ((c :: pre) ++ s) in Hm.
    rewrite firstn_app_2 in Hm. congruence.
  - simpl. lia.
Qed.

Lemma firstn_removelast (m s : JSString) (n : nat) :
  List.length m = S n -> firstn n (m ++ s) = removelast m.
Proof.
  revert n. induction m as [|y m IH]; intros n H; [discriminate|].
  injection H as H. destruct m as [|z m].
  - simpl in H. subst n. reflexivity.
  - destruct n as [|n]; [discriminate|].
    change (firstn (S n) ((y :: z :: m) ++ s)) with (y :: firstn n ((z :: m) ++ s)).
    rewrite (IH n H). reflexivity.
Qed.

Lemma parseCategory_at_first_marker (pre m ws tok after : JSString) :
  includes_i (js "CATEGORY:") (pre ++ removelast m) = false ->
  prefix_i (js "CATEGORY:") m = true ->
  List.length m = 9 ->
  forallb isSpace ws = true ->
  tok <> [] ->
  forallb class_AZ_underscore_i tok = true ->
  match after with c :: _ => class_AZ_underscore_i c = false | [] => True end ->
  parseCategory (pre ++ m ++ ws ++ tok ++ after) = Ok (toUpperCase tok).
Proof.
  intros Hpre Hm Hlen Hws Hne Htok Hrest.
  assert (Hmatch : exists x, str_match re_CATEGORY (pre ++ m ++ ws ++ tok ++ after) = Some x
                             /\ cap1 x = Some tok).
  { unfold str_match, re_CATEGORY.
    destruct (exec_skip (js "CATEGORY:")
                (Seq (Star isSpace) (Group (Plus class_AZ_underscore_i)))
                (m ++ ws ++ tok ++ after) pre None) as (pv' & E).
    { rewrite (firstn_removelast m _ 8 Hlen). exact Hpre. }
    rewrite E.
    assert (Hat : exists x,
               matchAt (lit_i (js "CATEGORY:")
                          (Seq (Star isSpace) (Group (Plus class_AZ_underscore_i))))
                       pv' (m ++ ws ++ tok ++ after) = Some x
               /\ cap1 x = Some tok).
    { unfold matchAt. apply lit_run; [|exact Hm|exact Hlen].
      intros pv1. cbn [rmatch prev rest cap1].
      destruct tok as [|c tok']; [congruence|].
      simpl in Htok. apply andb_true_iff in Htok as [Hc Htok'].
      apply star_greedy; [| |exact Hws].
      - cbn [app]. now apply class_AZ_not_space.
      - intros pv2. cbn [rmatch rest prev cap1 app]. rewrite Hc.
        apply star_greedy; [exact Hrest| |exact Htok'].
        intros pv3. eexists. split; [reflexivity|]. cbn [cap1 rest].
        f_equal. cbn [List.length]. rewrite length_app.
        replace (S (List.length tok' + List.length after) - List.length after)
          with (S (List.length tok')) by lia.
        cbn [firstn]. f_equal.
        rewrite firstn_app, firstn_all, Nat.sub_diag. cbn. now rewrite app_nil_r. }
    destruct Hat as (x & Hx & Hcap). exists x. split; [|exact Hcap].
    now apply exec_here. }
  destruct Hmatch as (x & Hx & Hcap).
  unfold parseCategory. rewrite Hx, Hcap.
  rewrite trim_no_space; [reflexivity|].
  apply forallb_forall. intros c Hc. rewrite forallb_forall in Htok.
  apply negb_true_iff, class_AZ_not_space. auto.
Qed.

Lemma parseSummary_at_first_marker (pre m ws body : JSString) :
  includes_i (js "SUMMARY:") (pre ++ removelast m) = false ->
  prefix_i (js "SUMMARY:") m = true ->
  List.length m = 8 ->
  forallb isSpace ws = true ->
  match body with c :: _ => isSpace c = false | [] => False end ->
  parseSummary (pre ++ m ++ ws ++ body) = Ok (trim body).
Proof.
  intros Hpre Hm Hlen Hws Hbody.
  assert (Hmatch : exists x, str_match re_SUMMARY (pre ++ m ++ ws ++ body) = Some x
                             /\ cap1 x = Some body).
  { unfold str_match, re_SUMMARY.
    destruct (exec_skip (js "SUMMARY:") (Seq (Star isSpace) (Group (Plus class_any)))
                (m ++ ws ++ body) pre None) as (pv' & E).
    { rewrite (firstn_removelast m _ 7 Hlen). exact Hpre. }
    rewrite E.
    assert (Hat : exists x,
               matchAt (lit_i (js "SUMMARY:")
                          (Seq (Star isSpace) (Group (Plus class_any))))
                       pv' (m ++ ws ++ body) = Some x
               /\ cap1 x = Some body).
    { unfold matchAt. apply lit_run; [|exact Hm|exact Hlen].
      intros pv1. cbn [rmatch prev rest cap1].
      destruct body as [|c body']; [contradiction|].
      apply star_greedy; [exact Hbody| |exact Hws].
      intros pv2. cbn [rmatch rest prev cap1]. cbn [class_any].
      replace (c :: body') with ((c :: body') ++ []) at 1 by apply app_nil_r.
      cbn [app].
      destruct (star_greedy class_any
                  (fun st' => Some (mkMState (prev st') (rest st')
                     (Some (firstn (List.length (c :: body') - List.length (rest st'))
                                   (c :: body')))))
                  (fun x => cap1 x = Some (c :: body')) [] None I) with (ws := body')
                  (pv := Some c) as (x & Hx & HP).
      - intros pv3. eexists. split; [reflexivity|]. cbn [cap1 rest].
        replace (List.length (c :: body') - List.length (@nil N))
          with (List.length (c :: body')) by (simpl; lia).
        now rewrite firstn_all.
      - apply forallb_forall. reflexivity.
      - rewrite app_nil_r in Hx. exists x. split; [exact Hx|exact HP]. }
    destruct Hat as (x & Hx & Hcap). exists x. split; [|exact Hcap].
    now apply exec_here. }
  destruct Hmatch as (x & Hx & Hcap).
  unfold parseSummary. now rewrite Hx, Hcap.
Qed.

(** X3. A response is read at its first markers, whatever their letter
    case: when the first [CATEGORY:] is followed by optional white space
    and a token of letters and underscores that ends at another character,
    and the first [SUMMARY:] by optional white space and a text that starts
    with a visible character, [processSingleChunk] resolves to the token in
    upper case and the text, trimmed, to the end of the response. *)
Theorem processSingleChunk_reads_marked_response
        (content : JSString) (w : World) (tape' : list (Outcome JSString))
        (pre m1 ws1 tok mid m2 ws2 body : JSString) :
  chatTape w
  = Resolve (pre ++ m1 ++ ws1 ++ tok ++ mid ++ m2 ++ ws2 ++ body) :: tape' ->
  includes_i (js "CATEGORY:") (pre ++ removelast m1) = false ->
  prefix_i (js "CATEGORY:") m1 = true ->
  List.length m1 = 9 ->
  forallb isSpace ws1 = true ->
  tok <> [] ->
  forallb class_AZ_underscore_i tok = true ->
  match mid with c :: _ => class_AZ_underscore_i c = false | [] => False end ->
  includes_i (js "SUMMARY:") ((pre ++ m1 ++ ws1 ++ tok ++ mid) ++ removelast m2) = false ->
  prefix_i (js "SUMMARY:") m2 = true ->
  List.length m2 = 8 ->
  forallb isSpace ws2 = true ->
  match body with c :: _ => isSpace c = false | [] => False end ->
  exists w',
    processSingleChunk content w
    = (Ok {| topic := toUpperCase tok; summary := trim body |}, w').
Proof.
  intros Ht Hc1 Hm1 Hl1 Hws1 Hne Htok Hmid Hs1 Hm2 Hl2 Hws2 Hbody.
  eexists.
  apply (processSingleChunk_resolve content w _ tape' _ _ Ht).
  - apply parseCategory_at_first_marker; auto.
    destruct mid as [|c mid']; [contradiction|exact Hmid].
  - replace (pre ++ m1 ++ ws1 ++ tok ++ mid ++ m2 ++ ws2 ++ body)
      with ((pre ++ m1 ++ ws1 ++ tok ++ mid) ++ m2 ++ ws2 ++ body)
      by (repeat rewrite <- app_assoc; reflexivity).
    apply parseSummary_at_first_marker; auto.
Qed.

Lemma processSingleChunk_reads_marked_response_witness :
  exists w',
    processSingleChunk (js "Chips weekly")
      (exampleWorld
         [Resolve (js "Sure! " ++ js "category:" ++ js " " ++ js "tech_news" ++ LF
                   ++ js "Summary:" ++ js "  " ++ js "Chips got faster.  ")] [])
    = (Ok {| topic := toUpperCase (js "tech_news");
             summary := trim (js "Chips got faster.  ") |}, w').
Proof.
  apply (processSingleChunk_reads_marked_response (js "Chips weekly") _ []
           (js "Sure! ") (js "category:") (js " ") (js "tech_news") LF
           (js "Summary:") (js "  ") (js "Chips got faster.  "));
    try (vm_compute; reflexivity).
  - discriminate.
Defined.

(** X4. The format the prompt asks for is read back: for a known category
    [c] and a text starting with a visible character, the response
    [CATEGORY: c], newline, [SUMMARY: text] makes [processSingleChunk]
    resolve to the topic [c], a known category, and the text, trimmed. *)
Theorem processSingleChunk_reads_prompt_format
        (content : JSString) (w : World) (tape' : list (Outcome JSString))
        (c body : JSString) :
  In c TOPIC_CATEGORIES ->
  match body with x :: _ => isSpace x = false | [] => False end ->
  chatTape w = Resolve (js "CATEGORY: " ++ c ++ LF ++ js "SUMMARY: " ++ body) :: tape' ->
  exists w',
    processSingleChunk content w = (Ok {| topic := c; summary := trim body |}, w')
    /\ isKnownCategory c = true.
Proof.
  intros Hc Hbody Ht.
  assert (Hknown : isKnownCategory c = true) by now apply isKnownCategory_In.
  eexists. split; [|exact Hknown].
  apply (processSingleChunk_resolve content w _ tape' _ _ Ht).
  - assert (E : parseCategory (js "CATEGORY: " ++ c ++ LF ++ js "SUMMARY: " ++ body)
                = Ok (toUpperCase c)).
    { apply (parseCategory_at_first_marker [] (js "CATEGORY:") (js " ") c
               (LF ++ js "SUMMARY: " ++ body)); try (vm_compute; reflexivity).
      - simpl in Hc. repeat (destruct Hc as [Hc|Hc]; [subst c; discriminate|]).
        contradiction.
      - simpl in Hc.
        repeat (destruct Hc as [Hc|Hc]; [subst c; vm_compute; reflexivity|]).
        contradiction. }
    rewrite E. f_equal. simpl in Hc.
    repeat (destruct Hc as [Hc|Hc]; [subst c; vm_compute; reflexivity|]).
    contradiction.
  - replace (js "CATEGORY: " ++ c ++ LF ++ js "SUMMARY: " ++ body)
      with ((js "CATEGORY: " ++ c ++ LF) ++ js "SUMMARY:" ++ js " " ++ body)
      by (repeat rewrite <- app_assoc; reflexivity).
    apply parseSummary_at_first_marker; try (vm_compute; reflexivity); [|exact Hbody].
    simpl in Hc.
    repeat (destruct Hc as [Hc|Hc]; [subst c; vm_compute; reflexivity|]).
    contradiction.
Qed.

Lemma processSingleChunk_reads_prompt_format_witness :
  exists w',
    processSingleChunk (js "Chips weekly")
      (exampleWorld
         [Resolve (js "CATEGORY: " ++ js "PRODUCT_UPDATES" ++ LF ++ js "SUMMARY: "
                   ++ js "Version 2 is out.")] [])
    = (Ok {| topic := js "PRODUCT_UPDATES"; summary := trim (js "Version 2 is out.") |}, w')
    /\ isKnownCategory (js "PRODUCT_UPDATES") = true.
Proof.
  apply (processSingleChunk_reads_prompt_format (js "Chips weekly") _ []
           (js "PRODUCT_UPDATES") (js "Version 2 is out.")).
  - simpl. auto 10.
  - reflexivity.
  - reflexivity.
Defined.

(** ** The requests of a chunked run *)

Lemma chunkIteration_next_request enc tokens i fs ct (w : World) result tape' :
  0 < i ->
  chatTape w = Resolve result :: tape' ->
  chunkIteration enc tokens i fs ct w
  = (Ok (appendLine fs result, ct),
     set_chat tape'
       (chatLog w
        ++ [chatRequest
              (continuationPrompt (List.length tokens <=? i + maxTokensPerChunk) fs)
              (decode enc (slice tokens i (i + maxTokensPerChunk)))]) w).
Proof.
  intros Hi Ht. unfold chunkIteration.
  destruct (i =? 0) eqn:E; [apply Nat.eqb_eq in E; lia|].
  unfold bind at 1. rewrite (chat_create_resolve _ _ _ _ Ht). reflexivity.
Qed.

Lemma chunkLoop_log enc tokens :
  forall rs fuel i fs ct (w : World) tape',
    0 < i ->
    List.length rs <= fuel ->
    List.length tokens <= i + List.length rs * maxTokensPerChunk ->
    (rs <> [] -> i + (List.length rs - 1) * maxTokensPerChunk < List.length tokens) ->
    chatTape w = map Resolve rs ++ tape' ->
    exists w',
      chunkLoop fuel enc tokens i fs ct w = (Ok (fold_left appendLine rs fs, ct), w')
      /\ chatLog w' = chatLog w ++ continuationRequests enc tokens i fs rs
      /\ console w' = console w.
Proof.
  induction rs as [|r rs IH]; intros fuel i fs ct w tape' Hi Hf Hup Hlow Ht.
  - simpl in *. exists w. rewrite app_nil_r.
    split; [|split; reflexivity].
    assert (E : (i <? List.length tokens) = false) by (apply Nat.ltb_ge; lia).
    destruct fuel; cbn [chunkLoop]; rewrite E; reflexivity.
  - destruct fuel as [|fuel]; [simpl in Hf; lia|].
    assert (Hlt : i < List.length tokens).
    { assert (Hne : r :: rs <> []) by discriminate.
      specialize (Hlow Hne). simpl in Hlow. lia. }
    cbn [chunkLoop]. apply Nat.ltb_lt in Hlt. rewrite Hlt. apply Nat.ltb_lt in Hlt.
    simpl in Ht.
    unfold bind. rewrite (chunkIteration_next_request enc tokens i fs ct w r _ Hi Ht).
    cbn [fst snd].
    match goal with
    | |- context [chunkLoop fuel enc tokens _ _ _ ?w1] =>
        destruct (IH fuel (i + maxTokensPerChunk) (appendLine fs r) ct w1 tape')
          as (w' & Hrun & Hlog & Hcon)
    end.
    + lia.
    + simpl in Hf. lia.
    + cbn [List.length] in Hup. rewrite Nat.mul_succ_l in Hup. lia.
    + intros Hne. assert (Hne' : r :: rs <> []) by discriminate.
      specialize (Hlow Hne'). cbn [List.length] in Hlow.
      destruct rs as [|r' rs']; [congruence|].
      cbn [List.length] in *.
      replace (S (S (List.length rs')) - 1) with (S (List.length rs')) in Hlow by lia.
      replace (S (List.length rs') - 1) with (List.length rs') by lia.
      rewrite Nat.mul_succ_l in Hlow. lia.
    + reflexivity.
    + exists w'. split; [exact Hrun|]. split.
      * rewrite Hlog. cbn [chatLog set_chat continuationRequests].
        now rewrite <- app_assoc.
      * rewrite Hcon. reflexivity.
Qed.

Lemma summarizeNewsletter_requests (content source : JSString) (w : World)
      enc tokens r1 rs tape' t s :
  gptTokenizer w = Resolve enc ->
  encode enc content = Resolve tokens ->
  rs <> [] ->
  List.length rs * maxTokensPerChunk < List.length tokens ->
  List.length tokens <= S (List.length rs) * maxTokensPerChunk ->
  chatTape w = Resolve r1 :: map Resolve rs ++ tape' ->
  parseCategory r1 = Ok t ->
  parseSummary r1 = Ok s ->
  chatLog (snd (summarizeNewsletter content source w))
  = chatLog w
    ++ chatRequest firstChunkPrompt (decode enc (slice tokens 0 (0 + maxTokensPerChunk)))
    :: continuationRequests enc tokens (0 + maxTokensPerChunk) s rs.
Proof.
  intros Hg He Hne Hlow Hup Ht Hc Hs.
  pose proof maxTokensPerChunk_pos as Hpos.
  assert (Hbig : maxTokensPerChunk < List.length tokens).
  { destruct rs as [|r rs]; [congruence|]. cbn [List.length] in Hlow.
    rewrite Nat.mul_succ_l in Hlow. lia. }
  unfold summarizeNewsletter, tryCatch.
  unfold bind at 1. unfold import_gpt_tokenizer. rewrite Hg. cbn [settle].
  unfold bind at 1. rewrite He. cbn [settle].
  assert (E : (List.length tokens <=? maxTokensPerChunk) = false)
    by (apply Nat.leb_gt; lia).
  rewrite E.
  unfold bind at 1. unfold console_log at 1.
  remember (set_console _ w) as w1 eqn:Hw1.
  assert (Ht1 : chatTape w1 = Resolve r1 :: map Resolve rs ++ tape')
    by (subst w1; exact Ht).
  assert (Hl1 : chatLog w1 = chatLog w) by (subst w1; reflexivity).
  unfold bind at 1.
  destruct (List.length tokens) as [|n] eqn:Hn; [lia|].
  cbn [chunkLoop].
  assert (E0 : (0 <? List.length tokens) = true) by (apply Nat.ltb_lt; lia).
  rewrite E0. unfold bind at 1.
  rewrite (chunkIteration_first enc tokens [] [] w1 r1 _ t s Ht1 Hc Hs).
  cbn [fst snd].
  remember (set_chat _ _ w1) as w2 eqn:Hw2.
  destruct (chunkLoop_log enc tokens rs n (0 + maxTokensPerChunk) s t w2 tape')
    as (w' & Hrun & Hlog & Hcon).
  - lia.
  - assert (List.length rs <= List.length rs * maxTokensPerChunk) by nia. lia.
  - rewrite Nat.mul_succ_l in Hup. lia.
  - intros _. destruct rs as [|r rs]; [congruence|].
    cbn [List.length] in *.
    replace (S (List.length rs) - 1) with (List.length rs) by lia.
    rewrite Nat.mul_succ_l in Hlow. lia.
  - subst w2. reflexivity.
  - rewrite Hrun. unfold ret. cbn [snd]. rewrite Hlog. subst w2.
    cbn [chatLog set_chat]. rewrite Hl1, <- app_assoc. reflexivity.
Qed.

Lemma continuationRequests_user enc tokens :
  forall rs i fs,
    map (messageOf (js "user")) (continuationRequests enc tokens i fs rs)
    = map (fun k => decode enc (slice tokens (i + k * maxTokensPerChunk)
                                      (i + k * maxTokensPerChunk + maxTokensPerChunk)))
          (seq 0 (List.length rs)).
Proof.
  induction rs as [|r rs IH]; intros i fs; [reflexivity|].
  cbn [continuationRequests map List.length seq].
  f_equal.
  - cbn. rewrite Nat.add_0_r. reflexivity.
  - rewrite IH, <- seq_shift, map_map. apply map_ext. intros k.
    replace (i + maxTokensPerChunk + k * maxTokensPerChunk)
      with (i + S k * maxTokensPerChunk) by (rewrite Nat.mul_succ_l; lia).
    reflexivity.
Qed.

Lemma continuationRequests_nth enc tokens :
  forall rs i fs j,
    j < List.length rs ->
    nth_error (continuationRequests enc tokens i fs rs) j
    = Some (chatRequest
              (continuationPrompt
                 (List.length tokens
                  <=? i + j * maxTokensPerChunk + maxTokensPerChunk)
                 (fold_left appendLine (firstn j rs) fs))
              (decode enc (slice tokens (i + j * maxTokensPerChunk)
                                 (i + j * maxTokensPerChunk + maxTokensPerChunk)))).
Proof.
  induction rs as [|r rs IH]; intros i fs j Hj; [simpl in Hj; lia|].
  destruct j as [|j].
  - cbn. rewrite Nat.add_0_r. reflexivity.
  - cbn [continuationRequests nth_error firstn fold_left].
    rewrite IH by (simpl in Hj; lia).
    replace (i + maxTokensPerChunk + j * maxTokensPerChunk)
      with (i + S j * maxTokensPerChunk) by (rewrite Nat.mul_succ_l; lia).
    reflexivity.
Qed.

Lemma chunks_cover :
  forall n (x : list N),
    List.length x <= n * maxTokensPerChunk ->
    List.concat
      (map (fun k => slice x (k * maxTokensPerChunk)
                           (k * maxTokensPerChunk + maxTokensPerChunk))
           (seq 0 n))
    = x.
Proof.
  induction n as [|n IH]; intros x Hlen.
  - simpl in *. destruct x; [reflexivity|simpl in Hlen; lia].
  - cbn [seq map List.concat]. rewrite <- seq_shift, map_map.
    transitivity (firstn maxTokensPerChunk x ++ skipn maxTokensPerChunk x);
      [|apply firstn_skipn].
    apply f_equal2.
    + unfold slice. change (0 * maxTokensPerChunk) with 0.
      replace (0 + maxTokensPerChunk - 0) with maxTokensPerChunk by lia.
      reflexivity.
    + rewrite <- (IH (skipn maxTokensPerChunk x)).
      * f_equal. apply map_ext. intros k. unfold slice.
        rewrite skipn_skipn.
        replace (S k * maxTokensPerChunk + maxTokensPerChunk - S k * maxTokensPerChunk)
          with (k * maxTokensPerChunk + maxTokensPerChunk - k * maxTokensPerChunk)
          by lia.
        replace (S k * maxTokensPerChunk)
          with (k * maxTokensPerChunk + maxTokensPerChunk)
          by (rewrite Nat.mul_succ_l; lia).
        reflexivity.
      * rewrite length_skipn. rewrite Nat.mul_succ_l in Hlen. lia.
Qed.

(** X5. In a chunked run whose model calls all resolve, the [n] requests
    carry as user content the decoded token slices number 0 to [n - 1], in
    order; these slices put end to end are the tokens of the content, none
    is longer than the budget and all but the last have exactly its
    length. *)
Theorem summarizeNewsletter_chunks_partition
        (content source : JSString) (w : World) (enc : Tokenizer) (tokens : list N)
        (n : nat) (r1 : JSString) (rs : list JSString)
        (tape' : list (Outcome JSString)) :
  gptTokenizer w = Resolve enc ->
  encode enc content = Resolve tokens ->
  2 <= n ->
  (n - 1) * maxTokensPerChunk < List.length tokens ->
  List.length tokens <= n * maxTokensPerChunk ->
  List.length rs = n - 1 ->
  chatTape w = Resolve r1 :: map Resolve rs ++ tape' ->
  exists reqs,
    chatLog (snd (summarizeNewsletter content source w)) = chatLog w ++ reqs
    /\ map (messageOf (js "user")) reqs
       = map (fun k => decode enc (chunkTokensAt tokens k)) (seq 0 n)
    /\ List.concat (map (chunkTokensAt tokens) (seq 0 n)) = tokens
    /\ (forall k, k < n -> List.length (chunkTokensAt tokens k) <= maxTokensPerChunk)
    /\ (forall k, k < n - 1 -> List.length (chunkTokensAt tokens k) = maxTokensPerChunk).
Proof.
  intros Hg He Hn Hlow Hup Hrs Ht.
  destruct (parseCategory_total r1) as (t & Hc).
  destruct (parseSummary_total r1) as (s & Hs).
  assert (Hne : rs <> []) by (intros ->; simpl in Hrs; lia).
  assert (Hn' : n = S (List.length rs)) by lia.
  eexists. split.
  - apply (summarizeNewsletter_requests content source w enc tokens r1 rs tape' t s);
      auto.
    + rewrite Hrs. exact Hlow.
    + rewrite <- Hn'. exact Hup.
  - split.
    + rewrite Hn'. cbn [map seq]. f_equal.
      rewrite continuationRequests_user, <- seq_shift, map_map.
      apply map_ext. intros k. unfold chunkTokensAt.
      replace (0 + maxTokensPerChunk + k * maxTokensPerChunk)
        with (S k * maxTokensPerChunk) by (rewrite Nat.mul_succ_l; lia).
      reflexivity.
    + split; [apply (chunks_cover n tokens Hup)|].
      split.
      * intros k Hk. unfold chunkTokensAt, slice. rewrite length_firstn. lia.
      * intros k Hk. unfold chunkTokensAt, slice.
        rewrite length_firstn, length_skipn.
        assert (S k * maxTokensPerChunk <= (n - 1) * maxTokensPerChunk)
          by (apply Nat.mul_le_mono_r; lia).
        rewrite Nat.mul_succ_l in H. lia.
Qed.

Lemma summarizeNewsletter_chunks_partition_witness :
  let content := repeat 97%N (N.to_nat 15001) in
  let w := exampleWorld
             (Resolve (js "CATEGORY: business" ++ LF ++ js "SUMMARY: First part.")
              :: map Resolve [js "Second part."] ++ []) [] in
  exists reqs,
    chatLog (snd (summarizeNewsletter content (js "Ledger") w)) = chatLog w ++ reqs
    /\ map (messageOf (js "user")) reqs
       = map (fun k => decode unitTokenizer (chunkTokensAt content k)) (seq 0 2)
    /\ List.concat (map (chunkTokensAt content) (seq 0 2)) = content
    /\ (forall k, k < 2 -> List.length (chunkTokensAt content k) <= maxTokensPerChunk)
    /\ (forall k, k < 2 - 1 -> List.length (chunkTokensAt content k) = maxTokensPerChunk).
Proof.
  intros content w.
  apply (summarizeNewsletter_chunks_partition content (js "Ledger") w unitTokenizer
           content 2 (js "CATEGORY: business" ++ LF ++ js "SUMMARY: First part.")
           [js "Second part."] []).
  - reflexivity.
  - reflexivity.
  - lia.
  - apply Nat.ltb_lt. vm_compute. reflexivity.
  - apply Nat.leb_le. vm_compute. reflexivity.
  - reflexivity.
  - reflexivity.
Defined.

(** X6. In such a run the first request carries the prompt that asks for
    the category, and request number [k >= 1] the continuation prompt with
    the summary accumulated from the first [k] responses as its context;
    that prompt says "final" for the last chunk and "next" for the
    others. *)
Theorem summarizeNewsletter_carries_context
        (content source : JSString) (w : World) (enc : Tokenizer) (tokens : list N)
        (n : nat) (r1 s : JSString) (rs : list JSString)
        (tape' : list (Outcome JSString)) :
  gptTokenizer w = Resolve enc ->
  encode enc content = Resolve tokens ->
  2 <= n ->
  (n - 1) * maxTokensPerChunk < List.length tokens ->
  List.length tokens <= n * maxTokensPerChunk ->
  List.length rs = n - 1 ->
  chatTape w = Resolve r1 :: map Resolve rs ++ tape' ->
  parseSummary r1 = Ok s ->
  exists reqs,
    chatLog (snd (summarizeNewsletter content source w)) = chatLog w ++ reqs
    /\ option_map (messageOf (js "system")) (nth_error reqs 0) = Some firstChunkPrompt
    /\ forall k,
         1 <= k < n ->
         option_map (messageOf (js "system")) (nth_error reqs k)
         = Some (continuationPrompt (k =? n - 1)
                   (fold_left appendLine (firstn (k - 1) rs) s)).
Proof.
  intros Hg He Hn Hlow Hup Hrs Ht Hs.
  destruct (parseCategory_total r1) as (t & Hc).
  assert (Hne : rs <> []) by (intros ->; simpl in Hrs; lia).
  assert (Hn' : n = S (List.length rs)) by lia.
  eexists. split.
  - apply (summarizeNewsletter_requests content source w enc tokens r1 rs tape' t s);
      auto.
    + rewrite Hrs. exact Hlow.
    + rewrite <- Hn'. exact Hup.
  - split; [reflexivity|].
    intros k Hk. destruct k as [|j]; [lia|].
    cbn [nth_error]. rewrite continuationRequests_nth by lia.
    cbn [option_map]. f_equal.
    replace (S j - 1) with j by lia.
    replace (List.length tokens
             <=? 0 + maxTokensPerChunk + j * maxTokensPerChunk + maxTokensPerChunk)
      with (S j =? n - 1); [reflexivity|].
    destruct (S j =? n - 1) eqn:E.
    + apply Nat.eqb_eq in E. symmetry. apply Nat.leb_le.
      replace n with (S (S j)) in Hup by lia.
      rewrite !Nat.mul_succ_l in Hup. lia.
    + apply Nat.eqb_neq in E. symmetry. apply Nat.leb_gt.
      assert (S (S j) * maxTokensPerChunk <= (n - 1) * maxTokensPerChunk)
        by (apply Nat.mul_le_mono_r; lia).
      rewrite !Nat.mul_succ_l in H. lia.
Qed.

Lemma summarizeNewsletter_carries_context_witness :
  let content := repeat 97%N (N.to_nat 15001) in
  let r1 := js "CATEGORY: business" ++ LF ++ js "SUMMARY: First part." in
  let rs := [js "Second part."] in
  let w := exampleWorld (Resolve r1 :: map Resolve rs ++ []) [] in
  exists reqs,
    chatLog (snd (summarizeNewsletter content (js "Ledger") w)) = chatLog w ++ reqs
    /\ option_map (messageOf (js "system")) (nth_error reqs 0) = Some firstChunkPrompt
    /\ forall k,
         1 <= k < 2 ->
         option_map (messageOf (js "system")) (nth_error reqs k)
         = Some (continuationPrompt (k =? 2 - 1)
                   (fold_left appendLine (firstn (k - 1) rs) (js "First part."))).
Proof.
  intros content r1 rs w.
  apply (summarizeNewsletter_carries_context content (js "Ledger") w unitTokenizer
           content 2 r1 (js "First part.") rs []).
  - reflexivity.
  - reflexivity.
  - lia.
  - apply Nat.ltb_lt. vm_compute. reflexivity.
  - apply Nat.leb_le. vm_compute. reflexivity.
  - reflexivity.
  - reflexivity.
  - vm_compute. reflexivity.
Defined.

(** ** A model call that fails *)

Lemma chat_create_reject (req : ChatRequest) (w : World) reason tape' :
  chatTape w = Reject reason :: tape' ->
  chat_completions_create req w
  = (Throw (Rejection reason), set_chat tape' (chatLog w ++ [req]) w).
Proof. intros H. unfold chat_completions_create. now rewrite H. Qed.

Lemma chunkIteration_reject enc tokens i fs ct (w : World) reason tape' :
  chatTape w = Reject reason :: tape' ->
  exists req,
    chunkIteration enc tokens i fs ct w
    = (Throw (Rejection reason), set_chat tape' (chatLog w ++ [req]) w).
Proof.
  intros Ht. unfold chunkIteration. eexists. unfold bind at 1.
  rewrite (chat_create_reject _ _ _ _ Ht). reflexivity.
Qed.

Lemma chunkLoop_reject enc tokens reason :
  forall rs fuel i fs ct (w : World) tape',
    0 < i ->
    List.length rs < fuel ->
    i + List.length rs * maxTokensPerChunk < List.length tokens ->
    chatTape w = map Resolve rs ++ Reject reason :: tape' ->
    exists w',
      chunkLoop fuel enc tokens i fs ct w = (Throw (Rejection reason), w')
      /\ chatTape w' = tape'
      /\ List.length (chatLog w') = List.length (chatLog w) + S (List.length rs)
      /\ console w' = console w.
Proof.
  induction rs as [|r rs IH]; intros fuel i fs ct w tape' Hi Hf Hlow Ht;
    (destruct fuel as [|fuel]; [simpl in Hf; lia|]).
  - simpl in Hlow, Ht. cbn [chunkLoop].
    assert (E : (i <? List.length tokens) = true) by (apply Nat.ltb_lt; lia).
    rewrite E. unfold bind.
    destruct (chunkIteration_reject enc tokens i fs ct w reason tape' Ht) as (req & Hstep).
    rewrite Hstep. eexists. split; [reflexivity|]. cbn.
    split; [reflexivity|]. split; [|reflexivity]. rewrite length_app. simpl. lia.
  - cbn [List.length] in Hlow. rewrite Nat.mul_succ_l in Hlow.
    simpl in Ht. cbn [chunkLoop].
    assert (E : (i <? List.length tokens) = true) by (apply Nat.ltb_lt; lia).
    rewrite E. unfold bind.
    rewrite (chunkIteration_next_request enc tokens i fs ct w r _ Hi Ht).
    cbn [fst snd].
    match goal with
    | |- context [chunkLoop fuel enc tokens _ _ _ ?w1] =>
        destruct (IH fuel (i + maxTokensPerChunk) (appendLine fs r) ct w1 tape')
          as (w' & Hrun & Htape & Hlog & Hcon)
    end.
    + lia.
    + simpl in Hf. lia.
    + lia.
    + reflexivity.
    + exists w'. split; [exact Hrun|]. split; [exact Htape|]. split.
      * rewrite Hlog. cbn [chatLog set_chat List.length]. rewrite length_app. simpl. lia.
      * rewrite Hcon. reflexivity.
Qed.

(** X7. A rejected model call is not absorbed.  When the answers to the
    first calls are [rs] and the next call, one that the content's length
    makes necessary, is rejected, [summarizeNewsletter] rejects with that
    very reason after exactly these calls, leaves the rest of the tape
    untouched, and its last console entry is the error report. *)
Theorem summarizeNewsletter_propagates_rejection
        (content source : JSString) (w : World) (enc : Tokenizer) (tokens : list N)
        (rs : list JSString) (reason : JSString) (tape' : list (Outcome JSString)) :
  gptTokenizer w = Resolve enc ->
  encode enc content = Resolve tokens ->
  rs = [] \/ List.length rs * maxTokensPerChunk < List.length tokens ->
  chatTape w = map Resolve rs ++ Reject reason :: tape' ->
  exists w' entries,
    summarizeNewsletter content source w = (Throw (Rejection reason), w')
    /\ chatTape w' = tape'
    /\ List.length (chatLog w') = List.length (chatLog w) + S (List.length rs)
    /\ console w'
       = entries ++ [ConsoleError (js "Error summarizing newsletter:") (Rejection reason)].
Proof.
  intros Hg He Hrs Ht.
  pose proof maxTokensPerChunk_pos as Hpos.
  unfold summarizeNewsletter, tryCatch.
  unfold bind at 1. unfold import_gpt_tokenizer. rewrite Hg. cbn [settle].
  unfold bind at 1. rewrite He. cbn [settle].
  destruct (List.length tokens <=? maxTokensPerChunk) eqn:E.
  - apply Nat.leb_le in E.
    assert (Hnil : rs = []).
    { destruct Hrs as [H|H]; [exact H|]. destruct rs as [|r rs]; [reflexivity|].
      cbn [List.length] in H. rewrite Nat.mul_succ_l in H. lia. }
    subst rs. simpl in Ht.
    unfold processSingleChunk, bind at 1.
    rewrite (chat_create_reject _ _ _ _ Ht).
    unfold bind at 1, console_error at 1, throw.
    eexists. eexists. split; [reflexivity|]. cbn.
    split; [reflexivity|]. split; [|reflexivity]. rewrite length_app. simpl. lia.
  - apply Nat.leb_gt in E.
    unfold bind at 1. unfold console_log at 1.
    remember (set_console _ w) as w1 eqn:Hw1.
    assert (Ht1 : chatTape w1 = map Resolve rs ++ Reject reason :: tape')
      by (subst w1; exact Ht).
    assert (Hl1 : chatLog w1 = chatLog w) by (subst w1; reflexivity).
    unfold bind at 1.
    destruct (List.length tokens) as [|n] eqn:Hn; [lia|].
    cbn [chunkLoop].
    assert (E0 : (0 <? List.length tokens) = true) by (apply Nat.ltb_lt; lia).
    rewrite E0. unfold bind at 1.
    destruct rs as [|r1 rs].
    + simpl in Ht1.
      destruct (chunkIteration_reject enc tokens 0 [] [] w1 reason tape' Ht1)
        as (req & Hstep).
      rewrite Hstep. unfold bind at 1, console_error at 1, throw.
      eexists. eexists. split; [reflexivity|]. cbn.
      split; [reflexivity|]. split; [|reflexivity].
      rewrite length_app, Hl1. simpl. lia.
    + simpl in Ht1.
      destruct (parseCategory_total r1) as (t & Hc).
      destruct (parseSummary_total r1) as (s & Hs).
      rewrite (chunkIteration_first enc tokens [] [] w1 r1 _ t s Ht1 Hc Hs).
      cbn [fst snd].
      assert (Hlow : S (List.length rs) * maxTokensPerChunk < S n)
        by (destruct Hrs as [H|H]; [discriminate|exact H]).
      rewrite Nat.mul_succ_l in Hlow.
      match goal with
      | |- context [chunkLoop n enc tokens _ _ _ ?w2] =>
          destruct (chunkLoop_reject enc tokens reason rs n (0 + maxTokensPerChunk)
                      s t w2 tape')
            as (w' & Hrun & Htape & Hlog & Hcon)
      end.
      * lia.
      * assert (List.length rs <= List.length rs * maxTokensPerChunk) by nia. lia.
      * rewrite Hn. lia.
      * reflexivity.
      * rewrite Hrun. unfold bind at 1, console_error at 1, throw.
        eexists. eexists. split; [reflexivity|]. cbn.
        split; [exact Htape|]. split; [|reflexivity].
        rewrite Hlog. cbn. rewrite length_app, Hl1. simpl. lia.
Qed.

Lemma summarizeNewsletter_propagates_rejection_witness :
  let content := repeat 97%N (N.to_nat 15001) in
  let w := exampleWorld
             (map Resolve [js "CATEGORY: BUSINESS" ++ LF ++ js "SUMMARY: First part."]
              ++ Reject (js "429 rate limit") :: [Resolve (js "unused")]) [] in
  exists w' entries,
    summarizeNewsletter content (js "Ledger") w
    = (Throw (Rejection (js "429 rate limit")), w')
    /\ chatTape w' = [Resolve (js "unused")]
    /\ List.length (chatLog w') = List.length (chatLog w) + 2
    /\ console w'
       = entries ++ [ConsoleError (js "Error summarizing newsletter:")
                       (Rejection (js "429 rate limit"))].
Proof.
  intros content w.
  apply (summarizeNewsletter_propagates_rejection content (js "Ledger") w unitTokenizer
           content [js "CATEGORY: BUSINESS" ++ LF ++ js "SUMMARY: First part."]
           (js "429 rate limit") [Resolve (js "unused")]).
  - reflexivity.
  - reflexivity.
  - right. apply Nat.ltb_lt. vm_compute. reflexivity.
  - reflexivity.
Defined.

(** ** truncateContent *)

(** X8. [truncateContent] never throws.  When the tokenizer cannot be
    loaded, or fails on the content, the result is the first
    [4 * maxTokens] code units of the content (all of it when it is
    shorter) and one warning is written; otherwise nothing is written. *)
Theorem truncateContent_never_throws
        (gpt : Outcome Tokenizer) (content : JSString) (maxTokens : option nat) :
  let budget := match maxTokens with Some n => n | None => N.to_nat 15000 end in
  let tokenized := match gpt with
                   | Resolve enc => match encode enc content with
                                    | Resolve _ => true
                                    | Reject _ => false
                                    end
                   | Reject _ => false
                   end in
  exists r,
    fst (truncateContent gpt content maxTokens) = Ok r
    /\ (tokenized = true -> snd (truncateContent gpt content maxTokens) = [])
    /\ (tokenized = false ->
        r = firstn (4 * budget) content
        /\ List.length r = Nat.min (4 * budget) (List.length content)
        /\ List.length (snd (truncateContent gpt content maxTokens)) = 1).
Proof.
  intros budget tokenized. unfold truncateContent. fold budget.
  destruct gpt as [enc|reason]; cbn [settle].
  - destruct (encode enc content) as [tokens|reason]; cbn [settle].
    + destruct (budget <? List.length tokens); eexists;
        (split; [reflexivity|]); (split; [reflexivity|discriminate]).
    + eexists. split; [reflexivity|]. split; [discriminate|]. intros _.
      unfold slice. rewrite Nat.sub_0_r, (Nat.mul_comm budget 4). cbn [skipn].
      split; [reflexivity|]. split; [apply length_firstn|reflexivity].
  - eexists. split; [reflexivity|]. split; [discriminate|]. intros _.
    unfold slice. rewrite Nat.sub_0_r, (Nat.mul_comm budget 4). cbn [skipn].
    split; [reflexivity|]. split; [apply length_firstn|reflexivity].
Qed.

(** X9. With a tokenizer that reads back the tokens it has decoded,
    content over the budget is cut to exactly [maxTokens] tokens, and
    truncating the result again returns it unchanged. *)
Theorem truncateContent_idempotent
        (enc : Tokenizer) (content : JSString) (budget : nat) (tokens : list N) :
  encode enc content = Resolve tokens ->
  budget < List.length tokens ->
  encode enc (decode enc (firstn budget tokens)) = Resolve (firstn budget tokens) ->
  let cut := decode enc (firstn budget tokens) in
  truncateContent (Resolve enc) content (Some budget) = (Ok cut, [])
  /\ (exists tokens', encode enc cut = Resolve tokens' /\ List.length tokens' = budget)
  /\ truncateContent (Resolve enc) cut (Some budget) = (Ok cut, []).
Proof.
  intros He Hlen Hback cut.
  assert (Hcut : List.length (firstn budget tokens) = budget)
    by (rewrite length_firstn; lia).
  split; [|split].
  - unfold truncateContent. cbn [settle]. rewrite He. cbn [settle].
    apply Nat.ltb_lt in Hlen. rewrite Hlen.
    unfold slice. rewrite Nat.sub_0_r. reflexivity.
  - exists (firstn budget tokens). split; [exact Hback|exact Hcut].
  - unfold truncateContent. cbn [settle]. fold cut in Hback. rewrite Hback.
    cbn [settle]. rewrite Hcut, Nat.ltb_irrefl. reflexivity.
Qed.

Lemma truncateContent_idempotent_witness :
  let cut := decode unitTokenizer (firstn 5 (js "Hello world")) in
  truncateContent (Resolve unitTokenizer) (js "Hello world") (Some 5) = (Ok cut, [])
  /\ (exists tokens', encode unitTokenizer cut = Resolve tokens' /\ List.length tokens' = 5)
  /\ truncateContent (Resolve unitTokenizer) cut (Some 5) = (Ok cut, []).
Proof.
  apply (truncateContent_idempotent unitTokenizer (js "Hello world") 5 (js "Hello world")).
  - reflexivity.
  - vm_compute. lia.
  - reflexivity.
Defined.

(** ** The topic buckets, further *)

Lemma obj_get_not_in_keys (obj : Buckets) (key : JSString) :
  ~ In key (map fst obj) -> obj_get obj key = None.
Proof.
  induction obj as [|[k v] obj IH]; simpl; [reflexivity|].
  intros H. destruct (JS.eqb k key) eqn:E.
  - apply eqb_eq in E. tauto.
  - apply IH. tauto.
Qed.

Lemma aggregateFrom_unknown :
  forall (results : list (Email * SummaryResult)) (b : Buckets),
    map fst b = TOPIC_CATEGORIES ->
    forallb (fun p => isKnownCategory (topic (snd p))) results = false ->
    aggregateFrom b results
    = Throw (TypeError (js "Cannot read properties of undefined (reading 'push')")).
Proof.
  induction results as [|[email r] results IH]; intros b Hkeys H; [discriminate|].
  cbn [forallb snd] in H. cbn [aggregateFrom]. unfold pushSummary.
  destruct (isKnownCategory (topic r)) eqn:Hk.
  - cbn [andb] in H. apply isKnownCategory_In in Hk. rewrite <- Hkeys in Hk.
    destruct (obj_get_in_keys b (topic r) Hk) as (arr & Harr). rewrite Harr.
    apply IH; [|exact H].
    rewrite (obj_set_keys _ _ _ _ Harr). exact Hkeys.
  - rewrite obj_get_not_in_keys; [reflexivity|].
    rewrite Hkeys. intros Hin. apply isKnownCategory_In in Hin. congruence.
Qed.

(** X10. The bucket loop completes exactly when every result's topic is a
    known category; otherwise it stops with the [TypeError] of the first
    [push] on a bucket that does not exist. *)
Theorem aggregate_completes_iff_known (results : list (Email * SummaryResult)) :
  ((exists buckets, aggregate results = Ok buckets)
   <-> forallb (fun p => isKnownCategory (topic (snd p))) results = true)
  /\ (forallb (fun p => isKnownCategory (topic (snd p))) results = false ->
      aggregate results
      = Throw (TypeError (js "Cannot read properties of undefined (reading 'push')"))).
Proof.
  assert (Hbad : forallb (fun p => isKnownCategory (topic (snd p))) results = false ->
                 aggregate results
                 = Throw (TypeError
                            (js "Cannot read properties of undefined (reading 'push')"))).
  { intros H. apply aggregateFrom_unknown; [apply initBuckets_keys|exact H]. }
  split; [|exact Hbad]. split.
  - intros (b & Hb).
    destruct (forallb (fun p => isKnownCategory (topic (snd p))) results) eqn:E;
      [reflexivity|].
    rewrite (Hbad eq_refl) in Hb. discriminate.
  - intros H. rewrite forallb_forall in H.
    destruct (aggregateFrom_spec results initBuckets) as (b & Hrun & _).
    + intros p Hp. rewrite initBuckets_keys. apply isKnownCategory_In. auto.
    + exists b. exact Hrun.
Qed.

Lemma allItems_obj_set (x : Item) :
  forall (b : Buckets) (key : JSString) (arr : list Item),
    obj_get b key = Some arr ->
    Permutation (allItems (obj_set b key (arr ++ [x]))) (x :: allItems b).
Proof.
  induction b as [|[k v] b IH]; intros key arr H; simpl in H; [discriminate|].
  unfold allItems in *. cbn [obj_set]. destruct (JS.eqb k key) eqn:E.
  - inversion H; subst v. cbn [map snd List.concat].
    rewrite <- app_assoc. cbn [app]. symmetry. apply Permutation_middle.
  - cbn [map snd List.concat].
    etransitivity; [apply Permutation_app_head, (IH key arr H)|].
    symmetry. apply Permutation_middle.
Qed.

Lemma aggregateFrom_items :
  forall (results : list (Email * SummaryResult)) (b b' : Buckets),
    aggregateFrom b results = Ok b' ->
    Permutation (allItems b') (map itemOf results ++ allItems b).
Proof.
  induction results as [|[email r] results IH]; intros b b' H.
  - inversion H; subst. reflexivity.
  - cbn [aggregateFrom] in H.
    destruct (pushSummary b email r) as [b1|e] eqn:Hp; [|discriminate].
    unfold pushSummary in Hp.
    destruct (obj_get b (topic r)) as [arr|] eqn:Harr; [|discriminate].
    inversion Hp; subst b1. clear Hp.
    etransitivity; [apply (IH _ _ H)|].
    cbn [map app]. etransitivity.
    + apply Permutation_app_head. apply (allItems_obj_set _ _ _ _ Harr).
    + symmetry. apply Permutation_middle.
Qed.

(** X11. When the bucket loop completes, the buckets hold, all together,
    exactly one item for each input, made from that input: nothing is
    lost, repeated or merged; in particular their sizes add up to the
    number of inputs. *)
Theorem aggregate_keeps_every_item
        (results : list (Email * SummaryResult)) (buckets : Buckets) :
  aggregate results = Ok buckets ->
  Permutation (allItems buckets) (map itemOf results)
  /\ list_sum (map (fun entry => List.length (snd entry)) buckets)
     = List.length results.
Proof.
  intros H. apply aggregateFrom_items in H.
  assert (Hperm : Permutation (allItems buckets) (map itemOf results)).
  { etransitivity; [exact H|]. change (allItems initBuckets) with (@nil Item).
    now rewrite app_nil_r. }
  split; [exact Hperm|].
  apply Permutation_length in Hperm. rewrite length_map in Hperm.
  rewrite <- Hperm. unfold allItems. rewrite length_concat, map_map. reflexivity.
Qed.

Lemma aggregate_keeps_every_item_witness :
  let mail (n s : JSString) :=
    {| email_id := n; subject := s; from := js "news@example.org";
       body := js "..."; date := js "2024-05-17" |} in
  let results :=
    [ (mail (js "1") (js "Chips"),
       {| topic := js "TECH_NEWS"; summary := js "New chips." |});
      (mail (js "2") (js "Breach"),
       {| topic := js "SECURITY"; summary := js "A breach." |});
      (mail (js "3") (js "Phones"),
       {| topic := js "TECH_NEWS"; summary := js "New phones." |}) ] in
  let buckets :=
    [ (js "TECH_NEWS", [itemOf (nth 0 results (mail [] [], {| topic := []; summary := [] |}));
                        itemOf (nth 2 results (mail [] [], {| topic := []; summary := [] |}))]);
      (js "BUSINESS", []);
      (js "SECURITY", [itemOf (nth 1 results (mail [] [], {| topic := []; summary := [] |}))]);
      (js "PRODUCT_UPDATES", []); (js "INDUSTRY_NEWS", []);
      (js "EDUCATIONAL", []); (js "OTHER", []) ] in
  Permutation (allItems buckets) (map itemOf results)
  /\ list_sum (map (fun entry => List.length (snd entry)) buckets)
     = List.length results.
Proof.
  intros mail results buckets.
  apply (aggregate_keeps_every_item results buckets).
  reflexivity.
Defined.

Lemma markEmailAsRead_inv (messageId : JSString) (w : World) r w' :
  markEmailAsRead messageId w = (r, w') ->
  (r = Ok tt /\ markedRead w' = markedRead w ++ [messageId])
  \/ ((exists e, r = Throw e) /\ markedRead w' = markedRead w).
Proof.
  unfold markEmailAsRead, tryCatch, bind at 1, gmail_messages_modify. intros H.
  destruct (markReadFault w messageId) as [reason|].
  - unfold bind at 1, console_error at 1, throw in H. inversion H; subst.
    right. split; [eauto|reflexivity].
  - unfold console_log in H. inversion H; subst. left. split; reflexivity.
Qed.

Lemma bucketLoop_marks :
  forall (newsletters : list Email) (b0 : Buckets) (w : World) r w',
    bucketLoop newsletters b0 w = (r, w') ->
    exists k,
      k <= List.length newsletters
      /\ markedRead w' = markedRead w ++ map email_id (firstn k newsletters)
      /\ (forall b, r = Ok b -> k = List.length newsletters).
Proof.
  induction newsletters as [|email newsletters IH]; intros b0 w r w' H.
  - inversion H; subst. exists 0. cbn. rewrite app_nil_r. auto.
  - cbn [bucketLoop] in H. unfold bind at 1, console_log at 1 in H.
    unfold bind at 1 in H.
    match type of H with
    | context [summarizeNewsletter ?c ?f ?w0] =>
        destruct (summarizeNewsletter c f w0) as [[x|e] w1] eqn:Hsum;
        apply summarizeNewsletter_inv in Hsum as (Hf & _);
        assert (Hm1 : markedRead w1 = markedRead w)
          by (destruct Hf as (_ & _ & _ & _ & _ & _ & _ & E & _); exact E)
    end.
    2:{ inversion H; subst. exists 0. cbn. rewrite app_nil_r.
        split; [lia|]. split; [exact Hm1|discriminate]. }
    unfold bind at 1, console_log at 1 in H. unfold bind at 1 in H.
    destruct (pushSummary b0 email x) as [b1|e] eqn:Hpush.
    2:{ inversion H; subst. exists 0. cbn. rewrite app_nil_r.
        split; [lia|]. split; [exact Hm1|discriminate]. }
    unfold bind at 1 in H.
    match type of H with
    | context [markEmailAsRead ?i ?w0] =>
        destruct (markEmailAsRead i w0) as [[u|e] w2] eqn:Hmark;
        apply markEmailAsRead_inv in Hmark as [(Hr & Hm2)|((e' & Hr) & Hm2)];
        try discriminate; cbn [markedRead set_console] in Hm2
    end.
    + apply IH in H as (k & Hk & Hm & Hall).
      exists (S k). split; [simpl; lia|]. split.
      * rewrite Hm, Hm2, Hm1, <- app_assoc. reflexivity.
      * intros b Hb. simpl. f_equal. eauto.
    + inversion H; subst. exists 0. cbn. rewrite app_nil_r.
      split; [lia|]. split; [congruence|discriminate].
Qed.

(** X12. However [runEnhancedSummarizer]'s loop over the newsletters ends,
    the messages it has marked as read are those of the first [k]
    newsletters, in order, for some [k]: a message is marked only after
    the summaries of all the messages up to it were put in their buckets,
    and when the loop completes every message has been marked. *)
Theorem processNewsletters_marks_in_order (newsletters : list Email) (w : World) :
  exists k,
    k <= List.length newsletters
    /\ markedRead (snd (processNewsletters newsletters w))
       = markedRead w ++ map email_id (firstn k newsletters)
    /\ (forall b, fst (processNewsletters newsletters w) = Ok b ->
                  k = List.length newsletters).
Proof.
  unfold processNewsletters, bind at 1 2, console_log at 1 2.
  match goal with
  | |- context [bucketLoop newsletters initBuckets ?w0] =>
      destruct (bucketLoop newsletters initBuckets w0) as [r w'] eqn:H
  end.
  apply bucketLoop_marks in H as (k & Hk & Hm & Hall).
  exists k. cbn [fst snd]. split; [exact Hk|]. split; [exact Hm|exact Hall].
Qed.

(** ** The speech script, further *)

Lemma star_some (p : N -> bool) (k : Cont) :
  (forall st, k st <> None) ->
  forall s pv c1, star p k pv s c1 <> None.
Proof.
  intros Hk. induction s as [|c t IH]; intros pv c1; simpl; [apply Hk|].
  destruct (p c); [|apply Hk].
  destruct (star p k (Some c) t c1) eqn:E; [discriminate|apply Hk].
Qed.

Lemma matchAt_gap_some (pv : option N) (s : JSString) :
  gapAt pv s = true ->
  exists m n, matchAt re_sentence_gap pv s = Some m
              /\ List.length s - List.length (rest m) = S n.
Proof.
  unfold gapAt, matchAt, re_sentence_gap. cbn [rmatch prev rest cap1].
  destruct pv as [x|]; [|discriminate].
  destruct s as [|c t]; [discriminate|]. intros H.
  apply andb_true_iff in H as [Hx Hc]. rewrite Hx, Hc.
  destruct (star isSpace Some (Some c) t None) as [m|] eqn:E.
  - apply star_split in E as (pre & s' & pv' & Ht & _ & Hk).
    inversion Hk; subst m. cbn [rest]. exists (mkMState pv' s' None).
    exists (List.length pre). split; [reflexivity|].
    subst t. cbn [rest List.length]. rewrite length_app. lia.
  - exfalso. revert E. apply star_some. discriminate.
Qed.

Lemma splitFrom_length (re : Regex) :
  forall s skip pv cur, 1 <= List.length (splitFrom re skip pv cur s).
Proof.
  induction s as [|c t IH]; intros skip pv cur; [simpl; lia|].
  cbn [splitFrom]. destruct skip as [|n]; [|apply IH].
  destruct (matchAt re pv (c :: t)) as [m|]; [|apply IH].
  destruct (List.length (c :: t) - List.length (rest m)) as [|n].
  - destruct cur; [apply IH|]. cbn [List.length]. lia.
  - cbn [List.length]. lia.
Qed.

Lemma splitFrom_gap :
  forall s pv cur,
    gapAt pv s || hasSentenceGap s = true ->
    2 <= List.length (splitFrom re_sentence_gap 0 pv cur s).
Proof.
  induction s as [|c t IH]; intros pv cur H.
  - destruct pv; discriminate.
  - cbn [splitFrom]. destruct (gapAt pv (c :: t)) eqn:Hg.
    + destruct (matchAt_gap_some pv (c :: t) Hg) as (m & n & Hm & Hn).
      rewrite Hm, Hn. cbn [List.length].
      pose proof (splitFrom_length re_sentence_gap t n (Some c) []). lia.
    + rewrite (matchAt_gap_none pv (c :: t) Hg).
      cbn [orb] in H. rewrite hasSentenceGap_cons in H. apply IH. exact H.
Qed.

(** X13. The sentence split of a summary has more than one part exactly
    when a period immediately followed by white space occurs in it; so an
    item gets the host's prompt and a second guest line in that case and in
    no other. *)
Theorem split_parts_iff_gap (s : JSString) (n index : nat) (item : Item) :
  (1 <? List.length (split re_sentence_gap s)) = hasSentenceGap s
  /\ List.length (filter isGuestLine (itemLines n item index))
     = (if hasSentenceGap (item_summary item) then 2 else 1)
  /\ (In (line host (js "That's interesting! What else did they mention?"))
         (itemLines n item index)
      <-> hasSentenceGap (item_summary item) = true).
Proof.
  assert (Hsplit : forall x, (1 <? List.length (split re_sentence_gap x))
                             = hasSentenceGap x).
  { intros x. destruct (hasSentenceGap x) eqn:E.
    - apply Nat.ltb_lt. destruct x as [|c t]; [discriminate|].
      unfold split. apply (splitFrom_gap (c :: t) None []). exact E.
    - now rewrite (split_no_gap x E). }
  split; [apply Hsplit|].
  unfold itemLines. rewrite Hsplit.
  destruct (hasSentenceGap (item_summary item)); destruct (index <? n - 1); cbn.
  - split; [reflexivity|]. split; [reflexivity|]. intros _. right. now left.
  - split; [reflexivity|]. split; [reflexivity|]. intros _. right. now left.
  - split; [reflexivity|]. split; [|discriminate].
    intros [H|[H|[]]]; discriminate.
  - split; [reflexivity|]. split; [|discriminate].
    intros [H|[]]; discriminate.
Qed.

Lemma itemLines_alternate (n : nat) (item : Item) (index : nat)
      (tail : list ScriptLine) :
  alternates guest (itemLines n item index ++ tail)
  = alternates (if index <? n - 1 then guest else host) tail.
Proof.
  unfold itemLines.
  destruct (1 <? List.length (split re_sentence_gap (item_summary item)));
    destruct (index <? n - 1); reflexivity.
Qed.

Lemma forEachItem_alternate (n : nat) (tail : list ScriptLine) :
  forall (items : list Item) (index : nat),
    items <> [] ->
    index + List.length items = n ->
    alternates guest (forEachItem n index items ++ tail) = alternates host tail.
Proof.
  induction items as [|item items IH]; intros index Hne Hn; [congruence|].
  cbn [forEachItem]. rewrite <- app_assoc, itemLines_alternate.
  cbn [List.length] in Hn. destruct items as [|item' items'].
  - cbn [forEachItem List.length app] in *.
    assert (E : (index <? n - 1) = false) by (apply Nat.ltb_ge; lia).
    now rewrite E.
  - assert (E : (index <? n - 1) = true)
      by (apply Nat.ltb_lt; cbn [List.length] in Hn; lia).
    rewrite E. apply IH; [discriminate|]. cbn [List.length] in *. lia.
Qed.

Lemma topics_alternate (tail : list ScriptLine) :
  forall entries : Buckets,
    alternates host
      (flat_map topicLines
         (filter (fun entry => 0 <? List.length (snd entry)) entries) ++ tail)
    = alternates host tail.
Proof.
  induction entries as [|[topic summaries] entries IH]; [reflexivity|].
  cbn [filter snd]. destruct (0 <? List.length summaries) eqn:E; [|exact IH].
  cbn [flat_map topicLines]. rewrite <- app_assoc.
  cbn [app alternates speaker line speaker_eqb andb otherSpeaker].
  rewrite forEachItem_alternate; [exact IH| |reflexivity].
  intros ->. discriminate.
Qed.

(** X14. In every script the speakers take turns: the host opens, host and
    guest alternate line by line through every topic, and the host has the
    last line. *)
Theorem createSpeechScript_alternates (timeNow : JSString) (summariesByTopic : Buckets) :
  alternates host (createSpeechScript timeNow summariesByTopic) = true
  /\ exists before,
       createSpeechScript timeNow summariesByTopic
       = before
         ++ [line host (js "Thanks for listening, and we'll catch you in the next summary!")].
Proof.
  split.
  - unfold createSpeechScript, openingLines.
    cbn [app alternates speaker line speaker_eqb andb otherSpeaker].
    rewrite topics_alternate. reflexivity.
  - unfold createSpeechScript, closingLines.
    eexists.
    match goal with
    | |- ?a ++ ?b ++ [?x; ?y; ?z] = _ =>
        change (a ++ b ++ [x; y; z]) with (a ++ b ++ [x; y] ++ [z])
    end.
    rewrite !app_assoc. reflexivity.
Qed.

Lemma itemLines_counts (n : nat) (item : Item) (index : nat) :
  List.length (filter isGuestLine (itemLines n item index))
  = (if hasSentenceGap (item_summary item) then 2 else 1)
  /\ filter isTopicTransition (itemLines n item index) = [].
Proof.
  unfold itemLines.
  assert (E : (1 <? List.length (split re_sentence_gap (item_summary item)))
              = hasSentenceGap (item_summary item)).
  { destruct (hasSentenceGap (item_summary item)) eqn:E.
    - apply Nat.ltb_lt. destruct (item_summary item) as [|c t]; [discriminate|].
      unfold split. apply (splitFrom_gap (c :: t) None []). exact E.
    - now rewrite (split_no_gap _ E). }
  rewrite E.
  destruct (hasSentenceGap (item_summary item)); destruct (index <? n - 1);
    split; reflexivity.
Qed.

Lemma forEachItem_counts (n : nat) :
  forall (items : list Item) (index : nat),
    List.length (filter isGuestLine (forEachItem n index items))
    = List.length items
      + List.length (filter (fun item => hasSentenceGap (item_summary item)) items)
    /\ filter isTopicTransition (forEachItem n index items) = [].
Proof.
  induction items as [|item items IH]; intros index; [split; reflexivity|].
  cbn [forEachItem]. rewrite !filter_app, length_app.
  destruct (itemLines_counts n item index) as (Hg & Ht).
  destruct (IH (S index)) as (IHg & IHt).
  rewrite Hg, Ht, IHg, IHt. cbn [filter List.length app].
  split; [|reflexivity].
  destruct (hasSentenceGap (item_summary item)); cbn [List.length]; lia.
Qed.

Lemma topics_counts :
  forall entries : Buckets,
    let lines := flat_map topicLines
                   (filter (fun entry => 0 <? List.length (snd entry)) entries) in
    List.length (filter isGuestLine lines)
    = List.length (allItems entries)
      + List.length (filter (fun item => hasSentenceGap (item_summary item))
                            (allItems entries))
    /\ List.length (filter isTopicTransition lines)
       = List.length (filter (fun entry => 0 <? List.length (snd entry)) entries).
Proof.
  induction entries as [|[topic summaries] entries IH]; [split; reflexivity|].
  cbn zeta in *. destruct IH as (IHg & IHt).
  unfold allItems in *. cbn [filter snd map List.concat].
  destruct (0 <? List.length summaries) eqn:E.
  - cbn [flat_map topicLines]. rewrite !filter_app, !length_app.
    destruct (forEachItem_counts (List.length summaries) summaries 0) as (Hg & Ht).
    rewrite IHg, IHt. split.
    + cbn [filter isGuestLine speaker line app]. rewrite Hg. lia.
    + assert (Hhead : isTopicTransition
                        (line host (js "Let's dive into "
                                    ++ replaceUnderscores (toLowerCase topic)
                                    ++ js ". What are the key updates in this area?"))
                      = true) by reflexivity.
      cbn [filter]. rewrite Hhead, Ht. cbn [List.length app]. reflexivity.
  - apply Nat.ltb_ge in E. destruct summaries; [|simpl in E; lia].
    cbn [app filter List.length]. split; assumption.
Qed.

(** X15. A script has one topic-transition line for each bucket that is
    not empty, and its guest lines are the two fixed ones plus one for each
    item and one more for each item whose summary has a period followed by
    white space; so there are at least two more guest lines than items and
    at most two more than twice as many. *)
Theorem createSpeechScript_line_counts (timeNow : JSString) (summariesByTopic : Buckets) :
  let script := createSpeechScript timeNow summariesByTopic in
  let items := allItems summariesByTopic in
  List.length (filter isTopicTransition script)
  = List.length (filter (fun entry => 0 <? List.length (snd entry)) summariesByTopic)
  /\ List.length (filter isGuestLine script)
     = 2 + List.length items
       + List.length (filter (fun item => hasSentenceGap (item_summary item)) items)
  /\ 2 + List.length items <= List.length (filter isGuestLine script)
     <= 2 + 2 * List.length items.
Proof.
  intros script items.
  destruct (topics_counts summariesByTopic) as (Hg & Ht). cbn zeta in Hg, Ht.
  assert (Hguest : List.length (filter isGuestLine script)
                   = 2 + List.length items
                     + List.length (filter (fun item => hasSentenceGap (item_summary item))
                                           items)).
  { unfold script, createSpeechScript. rewrite !filter_app, !length_app, Hg.
    fold items. cbn. lia. }
  split.
  - unfold script, createSpeechScript. rewrite !filter_app, !length_app, Ht.
    assert (Hopen : filter isTopicTransition (openingLines timeNow) = [])
      by reflexivity.
    assert (Hclose : filter isTopicTransition closingLines = []) by reflexivity.
    rewrite Hopen, Hclose. cbn [List.length]. lia.
  - split; [exact Hguest|]. rewrite Hguest.
    pose proof (filter_length_le (fun item => hasSentenceGap (item_summary item)) items).
    lia.
Qed.

(** ** The audio pipeline, further *)

Lemma digitsOf_inj : forall u u', digitsOf u = digitsOf u' -> u = u'.
Proof.
  induction u as [|u IH|u IH|u IH|u IH|u IH|u IH|u IH|u IH|u IH|u IH];
    intros [|u'|u'|u'|u'|u'|u'|u'|u'|u'|u'] H; simpl in H;
    try discriminate; try reflexivity;
    injection H as H; f_equal; apply IH; exact H.
Qed.

Lemma numberToString_inj (n n' : nat) :
  numberToString n = numberToString n' -> n = n'.
Proof.
  unfold numberToString. intros H. apply digitsOf_inj in H.
  now apply Unsigned.to_uint_inj.
Qed.

Lemma path_join_sep (dir : JSString) :
  exists sep, forall f, path_join dir f = dir ++ sep ++ f.
Proof.
  unfold path_join. destruct (rev dir) as [|c t].
  - exists (js "/"). reflexivity.
  - destruct c as [|p]; [exists (js "/"); reflexivity|].
    repeat (destruct p as [p|p|]; try (exists (js "/"); reflexivity)).
    exists []. reflexivity.
Qed.

Lemma path_join_inj (dir f f' : JSString) :
  path_join dir f = path_join dir f' -> f = f'.
Proof.
  destruct (path_join_sep dir) as (sep & E). rewrite !E. intros H.
  apply app_inv_head in H. now apply app_inv_head in H.
Qed.

Lemma segmentPath_inj (dir : JSString) (i j : nat) :
  segmentPath dir i = segmentPath dir j -> i = j.
Proof.
  unfold segmentPath. intros H. apply path_join_inj in H.
  apply app_inv_head in H. apply app_inv_tail in H.
  now apply numberToString_inj.
Qed.

Lemma segmentPath_not_final (dir date : JSString) (i : nat) :
  segmentPath dir i <> path_join dir (js "newsletter-summary-" ++ date ++ js ".mp3").
Proof.
  unfold segmentPath. intros H. apply path_join_inj in H. discriminate.
Qed.

Lemma segmentPaths_NoDup (dir : JSString) (start n : nat) :
  NoDup (map (segmentPath dir) (seq start n)).
Proof.
  revert start. induction n as [|n IH]; intros start; [constructor|].
  cbn [seq map]. constructor; [|apply IH].
  intros H. apply in_map_iff in H as (j & Hj & Hin).
  apply segmentPath_inj in Hj. subst j. apply in_seq in Hin. lia.
Qed.

(** X16. The segment files of a run have pairwise different paths, and none
    of them is the path of the artifact: no line's audio is written over
    another's, and the clean-up cannot reach the artifact. *)
Theorem segment_paths_distinct (w : World) (summariesByTopic : Buckets) :
  NoDup (segmentPathsOf w summariesByTopic)
  /\ ~ In (finalAudioPathOf w) (segmentPathsOf w summariesByTopic)
  /\ (forall i j, segmentPath (audioDirOf w) i = segmentPath (audioDirOf w) j -> i = j).
Proof.
  split; [apply segmentPaths_NoDup|]. split.
  - unfold segmentPathsOf, finalAudioPathOf. intros H.
    apply in_map_iff in H as (i & Hi & _).
    exact (segmentPath_not_final _ _ _ Hi).
  - intros i j. apply segmentPath_inj.
Qed.

Lemma file_content_missing (p : JSString) (fs : list (JSString * Bytes)) :
  file_exists p fs = false -> file_content p fs = [].
Proof.
  induction fs as [|[q d] fs IH]; simpl; [reflexivity|].
  destruct (JS.eqb q p); [discriminate|exact IH].
Qed.

Lemma file_content_app (p : JSString) (fs fs' : list (JSString * Bytes)) :
  file_content p (fs ++ fs')
  = if file_exists p fs then file_content p fs else file_content p fs'.
Proof.
  induction fs as [|[q d] fs IH]; simpl; [reflexivity|].
  destruct (JS.eqb q p); [reflexivity|exact IH].
Qed.

Lemma file_content_remove_other (p q : JSString) (fs : list (JSString * Bytes)) :
  q <> p -> file_content p (remove_file q fs) = file_content p fs.
Proof.
  intros Hne. induction fs as [|[k d] fs IH]; simpl; [reflexivity|].
  destruct (JS.eqb k q) eqn:E; simpl.
  - apply eqb_eq in E. subst k. apply eqb_neq in Hne. rewrite Hne. exact IH.
  - destruct (JS.eqb k p); [reflexivity|exact IH].
Qed.

Lemma file_content_writeTo_same (p : JSString) (d : Bytes)
      (fs : list (JSString * Bytes)) :
  file_content p (writeTo fs (p, d)) = d.
Proof.
  unfold writeTo. cbn [fst]. rewrite file_content_app, file_exists_remove_same.
  simpl. now rewrite eqb_refl.
Qed.

Lemma file_content_writeTo_other (p q : JSString) (d : Bytes)
      (fs : list (JSString * Bytes)) :
  q <> p -> file_content p (writeTo fs (q, d)) = file_content p fs.
Proof.
  intros Hne. unfold writeTo. cbn [fst]. rewrite file_content_app.
  rewrite (file_exists_remove_other _ _ _ Hne), (file_content_remove_other _ _ _ Hne).
  destruct (file_exists p fs) eqn:E; [reflexivity|].
  simpl. apply eqb_neq in Hne. rewrite Hne. symmetry. now apply file_content_missing.
Qed.

Lemma file_content_after_other_writes (p : JSString) :
  forall (pds : list (JSString * Bytes)) (fs : list (JSString * Bytes)),
    ~ In p (map fst pds) ->
    file_content p (fold_left writeTo pds fs) = file_content p fs.
Proof.
  induction pds as [|[q d] pds IH]; intros fs H; [reflexivity|].
  cbn [fold_left]. rewrite IH by (simpl in H; tauto).
  apply file_content_writeTo_other. simpl in H. tauto.
Qed.

Lemma file_content_after_writes (p : JSString) (d : Bytes) :
  forall (pds : list (JSString * Bytes)) (fs : list (JSString * Bytes)),
    NoDup (map fst pds) ->
    In (p, d) pds ->
    file_content p (fold_left writeTo pds fs) = d.
Proof.
  induction pds as [|[q d0] pds IH]; intros fs Hnd Hin; [contradiction|].
  cbn [map fst] in Hnd. inversion Hnd as [|? ? Hnotin Hnd']; subst.
  cbn [fold_left]. destruct Hin as [E|Hin].
  - inversion E; subst. rewrite file_content_after_other_writes by exact Hnotin.
    apply file_content_writeTo_same.
  - apply IH; assumption.
Qed.

Lemma combine_fst_length {A B : Type} :
  forall (l : list A) (l' : list B),
    List.length l = List.length l' -> map fst (combine l l') = l.
Proof.
  induction l as [|a l IH]; intros [|b l'] H; simpl in *; try discriminate; auto.
  f_equal. apply IH. lia.
Qed.

Lemma combine_segment_nth (dir : JSString) :
  forall n start (audios : list Bytes) i,
    List.length audios = n ->
    i < n ->
    nth_error (combine (map (segmentPath dir) (seq start n)) audios) i
    = Some (segmentPath dir (start + i), nth i audios []).
Proof.
  induction n as [|n IH]; intros start audios i Hlen Hi; [lia|].
  destruct audios as [|a audios]; [discriminate|]. injection Hlen as Hlen.
  destruct i as [|i]; cbn [seq map combine nth_error nth].
  - now rewrite Nat.add_0_r.
  - rewrite (IH (S start) audios i Hlen) by lia.
    now rewrite Nat.add_succ_r.
Qed.

Lemma segment_contents (dir : JSString) (n : nat) (audios : list Bytes)
      (fs : list (JSString * Bytes)) :
  List.length audios = n ->
  forall i, i < n ->
    file_content (segmentPath dir i)
      (fold_left writeTo (combine (map (segmentPath dir) (seq 0 n)) audios) fs)
    = nth i audios [].
Proof.
  intros Hlen i Hi.
  apply file_content_after_writes.
  - rewrite combine_fst_length by (rewrite length_map, length_seq; lia).
    apply segmentPaths_NoDup.
  - eapply nth_error_In. apply (combine_segment_nth dir n 0 audios i Hlen Hi).
Qed.

(** X17. When the synthesis phase goes through, at the moment the merge is
    started every segment file exists and the file of index [i] holds the
    audio the speech service returned for line [i]. *)
Theorem segments_hold_their_lines
        (summariesByTopic : Buckets) (w : World)
        (audios : list Bytes) (tape' : list (Outcome Bytes)) :
  synthesisResolves w summariesByTopic audios tape' ->
  let script := speechScriptOf w summariesByTopic in
  exists ws,
    (run console_log (js "Generating audio...");;
     run fs_mkdir (audioDirOf w);;
     synthesizeLoop (audioDirOf w) (List.length script) 0 script []) w
    = (Ok (segmentPathsOf w summariesByTopic), ws)
    /\ forall i, i < List.length script ->
         file_exists (segmentPath (audioDirOf w) i) (files ws) = true
         /\ file_content (segmentPath (audioDirOf w) i) (files ws) = nth i audios [].
Proof.
  intros Hready script.
  destruct (generateAudioSummary_synthesis summariesByTopic w audios tape' Hready)
    as (ws & Hsyn & _ & _ & Hfiles & _).
  destruct Hready as (_ & _ & _ & Hlen). fold script in Hlen.
  exists ws. split; [exact Hsyn|]. intros i Hi. rewrite Hfiles.
  unfold segmentPathsOf. fold script. split.
  - apply file_exists_after_writes. left.
    rewrite combine_fst_length by (rewrite length_map, length_seq; lia).
    apply in_map. apply in_seq. lia.
  - apply segment_contents; assumption.
Qed.

Lemma segments_hold_their_lines_witness :
  let audios := [[Byte.x01]; [Byte.x02]; [Byte.x03]; [Byte.x04]; [Byte.x05]] in
  let w := exampleWorld [] (map Resolve audios ++ []) in
  let script := speechScriptOf w initBuckets in
  exists ws,
    (run console_log (js "Generating audio...");;
     run fs_mkdir (audioDirOf w);;
     synthesizeLoop (audioDirOf w) (List.length script) 0 script []) w
    = (Ok (segmentPathsOf w initBuckets), ws)
    /\ forall i, i < List.length script ->
         file_exists (segmentPath (audioDirOf w) i) (files ws) = true
         /\ file_content (segmentPath (audioDirOf w) i) (files ws) = nth i audios [].
Proof.
  intros audios w.
  apply (segments_hold_their_lines initBuckets w audios []).
  unfold synthesisResolves. split; [reflexivity|]. split; [intros p; reflexivity|].
  split; reflexivity.
Defined.








Lemma tts_reject (request : TTSRequest) (w : World) reason tape' :
  ttsTape w = Reject reason :: tape' ->
  tts_synthesizeSpeech request w
  = (Throw (Rejection reason), set_tts tape' (ttsLog w ++ [request]) w).
Proof. intros H. unfold tts_synthesizeSpeech. now rewrite H. Qed.

Lemma synthesizeLoop_rejects (audioDir : JSString) (n : nat) (reason : JSString) :
  forall (audios : list Bytes) (segments : list ScriptLine) (index : nat)
         (audioPaths : list JSString) (w : World) (tape' : list (Outcome Bytes)),
    (forall p, writeFault w p = None) ->
    ttsTape w = map Resolve audios ++ Reject reason :: tape' ->
    List.length audios < List.length segments ->
    exists w',
      synthesizeLoop audioDir n index segments audioPaths w
      = (Throw (Rejection reason), w')
      /\ ttsLog w'
         = ttsLog w ++ map ttsRequest (firstn (S (List.length audios)) segments)
      /\ files w'
         = fold_left writeTo
             (combine (map (segmentPath audioDir) (seq index (List.length audios)))
                      audios)
             (files w)
      /\ ffmpegLog w' = ffmpegLog w
      /\ unlinkLog w' = unlinkLog w.
Proof.
  induction audios as [|audio audios IH];
    intros segments index audioPaths w tape' Hw Ht Hlen;
    (destruct segments as [|segment segments]; [simpl in Hlen; lia|]).
  - simpl in Ht. cbn [synthesizeLoop]. unfold bind at 1, console_log at 1.
    remember (set_console _ w) as w1 eqn:Hw1.
    assert (Ht1 : ttsTape w1 = Reject reason :: tape') by (subst w1; exact Ht).
    unfold bind at 1. rewrite (tts_reject _ w1 _ _ Ht1).
    eexists. split; [reflexivity|]. subst w1. cbn. repeat split; reflexivity.
  - simpl in Ht. cbn [List.length] in Hlen.
    cbn [synthesizeLoop]. unfold bind at 1, console_log at 1.
    remember (set_console _ w) as w1 eqn:Hw1.
    assert (Ht1 : ttsTape w1
                  = Resolve audio :: map Resolve audios ++ Reject reason :: tape')
      by (subst w1; exact Ht).
    unfold bind at 1. rewrite (tts_resolve _ w1 _ _ Ht1).
    remember (set_tts _ _ w1) as w2 eqn:Hw2.
    assert (Hw2f : writeFault w2 (segmentPath audioDir index) = None)
      by (subst w2 w1; exact (Hw _)).
    unfold bind at 1. rewrite (writeFile_ok _ _ w2 Hw2f).
    remember (set_files _ w2) as w3 eqn:Hw3.
    destruct (IH segments (S index) (audioPaths ++ [segmentPath audioDir index]) w3 tape')
      as (w' & Hrun & Hlog & Hfiles & Hff & Hul).
    + intros p. subst w3 w2 w1. exact (Hw p).
    + subst w3 w2 w1. reflexivity.
    + lia.
    + exists w'. split; [exact Hrun|]. split.
      { rewrite Hlog. subst w3 w2 w1. cbn. now rewrite <- app_assoc. }
      split.
      { rewrite Hfiles. subst w3 w2 w1. reflexivity. }
      split; [rewrite Hff; subst w3 w2 w1; reflexivity|].
      rewrite Hul. subst w3 w2 w1. reflexivity.
Qed.

(** X19. When the speech service answers the first [k] lines and rejects
    the next one, [generateAudioSummary] rejects with that reason after
    exactly [k + 1] speech requests; no merge is started, nothing is
    deleted, and the [k] segment files already written stay, each with its
    line's audio. *)
Theorem speech_rejection_stops_the_run
        (summariesByTopic : Buckets) (w : World) (audios : list Bytes)
        (reason : JSString) (tape' : list (Outcome Bytes)) :
  mkdirFault w = None ->
  (forall p, writeFault w p = None) ->
  ttsTape w = map Resolve audios ++ Reject reason :: tape' ->
  List.length audios < List.length (speechScriptOf w summariesByTopic) ->
  exists w',
    generateAudioSummary summariesByTopic w = (Throw (Rejection reason), w')
    /\ ttsLog w'
       = ttsLog w ++ map ttsRequest (firstn (S (List.length audios))
                                            (speechScriptOf w summariesByTopic))
    /\ ffmpegLog w' = ffmpegLog w
    /\ unlinkLog w' = unlinkLog w
    /\ forall i, i < List.length audios ->
         file_content (segmentPath (audioDirOf w) i) (files w') = nth i audios [].
Proof.
  intros Hmk Hwr Ht Hlen.
  rewrite generateAudioSummary_unfold. unfold tryCatch.
  unfold bind at 1. unfold bind at 1, console_log at 1.
  remember (set_console _ w) as w1 eqn:Hw1.
  unfold bind at 1, fs_mkdir.
  assert (Hmk1 : mkdirFault w1 = None) by (subst w1; exact Hmk).
  rewrite Hmk1.
  destruct (synthesizeLoop_rejects (audioDirOf w)
              (List.length (speechScriptOf w summariesByTopic)) reason audios
              (speechScriptOf w summariesByTopic) 0 [] w1 tape')
    as (ws & Hrun & Hlog & Hfiles & Hff & Hul).
  - intros p. subst w1. exact (Hwr p).
  - subst w1. exact Ht.
  - exact Hlen.
  - rewrite Hrun. unfold bind at 1, console_error at 1, throw.
    eexists. split; [reflexivity|]. cbn.
    split; [rewrite Hlog; subst w1; reflexivity|].
    split; [rewrite Hff; subst w1; reflexivity|].
    split; [rewrite Hul; subst w1; reflexivity|].
    intros i Hi. rewrite Hfiles. subst w1. cbn [files set_console].
    apply segment_contents; [reflexivity|exact Hi].
Qed.

Lemma speech_rejection_stops_the_run_witness :
  let audios := [[Byte.x01]; [Byte.x02]] in
  let w := exampleWorld [] (map Resolve audios ++ Reject (js "quota") :: []) in
  exists w',
    generateAudioSummary initBuckets w = (Throw (Rejection (js "quota")), w')
    /\ ttsLog w'
       = ttsLog w ++ map ttsRequest (firstn (S (List.length audios))
                                            (speechScriptOf w initBuckets))
    /\ ffmpegLog w' = ffmpegLog w
    /\ unlinkLog w' = unlinkLog w
    /\ forall i, i < List.length audios ->
         file_content (segmentPath (audioDirOf w) i) (files w') = nth i audios [].
Proof.
  intros audios w.
  apply (speech_rejection_stops_the_run initBuckets w audios (js "quota") []).
  - reflexivity.
  - intros p. reflexivity.
  - reflexivity.
  - vm_compute. lia.
Defined.

(** ** The audio summary leaves the chat service and the read marks alone *)

Lemma sameChatAndMarks_refl (w : World) : sameChatAndMarks w w.
Proof. repeat split. Qed.

Lemma sameChatAndMarks_trans (w1 w2 w3 : World) :
  sameChatAndMarks w1 w2 -> sameChatAndMarks w2 w3 -> sameChatAndMarks w1 w3.
Proof.
  unfold sameChatAndMarks.
  intros (a1 & a2 & a3 & a4) (b1 & b2 & b3 & b4). repeat split; congruence.
Qed.

Lemma keeps_bind {A B} (m : M A) (k : A -> M B) :
  (forall w r w', m w = (r, w') -> sameChatAndMarks w w') ->
  (forall a w r w', k a w = (r, w') -> sameChatAndMarks w w') ->
  forall w r w', bind m k w = (r, w') -> sameChatAndMarks w w'.
Proof.
  intros Hm Hk w r w' H. unfold bind in H.
  destruct (m w) as [[a|e] w1] eqn:E.
  - eapply sameChatAndMarks_trans; [exact (Hm _ _ _ E)|exact (Hk _ _ _ _ H)].
  - inversion H; subst. exact (Hm _ _ _ E).
Qed.

Lemma keeps_tryCatch {A} (m : M A) (h : Error -> M A) :
  (forall w r w', m w = (r, w') -> sameChatAndMarks w w') ->
  (forall e w r w', h e w = (r, w') -> sameChatAndMarks w w') ->
  forall w r w', tryCatch m h w = (r, w') -> sameChatAndMarks w w'.
Proof.
  intros Hm Hh w r w' H. unfold tryCatch in H.
  destruct (m w) as [[a|e] w1] eqn:E.
  - inversion H; subst. exact (Hm _ _ _ E).
  - eapply sameChatAndMarks_trans; [exact (Hm _ _ _ E)|exact (Hh _ _ _ _ H)].
Qed.

Lemma keeps_console_log (t : JSString) (w : World) r w' :
  console_log t w = (r, w') -> sameChatAndMarks w w'.
Proof. intros H. inversion H; subst. repeat split. Qed.

Lemma keeps_console_warn (t : JSString) (e : Error) (w : World) r w' :
  console_warn t e w = (r, w') -> sameChatAndMarks w w'.
Proof. intros H. inversion H; subst. repeat split. Qed.

Lemma keeps_console_error (t : JSString) (e : Error) (w : World) r w' :
  console_error t e w = (r, w') -> sameChatAndMarks w w'.
Proof. intros H. inversion H; subst. repeat split. Qed.

Lemma keeps_ret {A} (a : A) (w : World) r w' :
  ret a w = (r, w') -> sameChatAndMarks w w'.
Proof. intros H. inversion H; subst. repeat split. Qed.

Lemma keeps_throw {A} (e : Error) (w : World) (r : Res A) w' :
  throw e w = (r, w') -> sameChatAndMarks w w'.
Proof. intros H. inversion H; subst. repeat split. Qed.

Lemma keeps_fs_mkdir (d : JSString) (w : World) r w' :
  fs_mkdir d w = (r, w') -> sameChatAndMarks w w'.
Proof.
  unfold fs_mkdir. intros H.
  destruct (mkdirFault w); inversion H; subst; repeat split.
Qed.

Lemma keeps_fs_writeFile (p : JSString) (d : Bytes) (w : World) r w' :
  fs_writeFile p d w = (r, w') -> sameChatAndMarks w w'.
Proof.
  unfold fs_writeFile. intros H.
  destruct (writeFault w p); inversion H; subst; repeat split.
Qed.

Lemma keeps_fs_unlink (p : JSString) (w : World) r w' :
  fs_unlink p w = (r, w') -> sameChatAndMarks w w'.
Proof.
  unfold fs_unlink. intros H.
  destruct (unlinkFault w p); [|destruct (file_exists p (files w))];
    inversion H; subst; repeat split.
Qed.

Lemma keeps_tts (q : TTSRequest) (w : World) r w' :
  tts_synthesizeSpeech q w = (r, w') -> sameChatAndMarks w w'.
Proof.
  unfold tts_synthesizeSpeech. intros H.
  destruct (ttsTape w); inversion H; subst; repeat split.
Qed.

Lemma keeps_ffmpeg (i : list JSString) (o : JSString) (w : World) r w' :
  ffmpeg_concat i o w = (r, w') -> sameChatAndMarks w w'.
Proof.
  unfold ffmpeg_concat. intros H.
  destruct (ffmpegFault w); inversion H; subst; repeat split.
Qed.

Lemma keeps_synthesizeLoop (audioDir : JSString) (n : nat) :
  forall (segments : list ScriptLine) (index : nat) (audioPaths : list JSString)
         (w : World) r w',
    synthesizeLoop audioDir n index segments audioPaths w = (r, w') ->
    sameChatAndMarks w w'.
Proof.
  induction segments as [|segment segments IH]; intros index audioPaths; cbn [synthesizeLoop].
  - apply keeps_ret.
  - apply keeps_bind; [apply keeps_console_log|intros _].
    apply keeps_bind; [apply keeps_tts|intros response].
    apply keeps_bind; [apply keeps_fs_writeFile|intros _].
    apply IH.
Qed.

Lemma keeps_cleanupLoop :
  forall (audioPaths : list JSString) (w : World) r w',
    cleanupLoop audioPaths w = (r, w') -> sameChatAndMarks w w'.
Proof.
  induction audioPaths as [|p audioPaths IH]; cbn [cleanupLoop].
  - apply keeps_ret.
  - apply keeps_bind; [|intros _; exact IH].
    apply keeps_tryCatch; [apply keeps_fs_unlink|intros e; apply keeps_console_warn].
Qed.

Lemma keeps_mergeSegments (audioPaths : list JSString) (final : JSString)
      (w : World) r w' :
  mergeSegments audioPaths final w = (r, w') -> sameChatAndMarks w w'.
Proof.
  revert w r w'. unfold mergeSegments.
  apply keeps_bind.
  - apply keeps_tryCatch; [apply keeps_ffmpeg|intros e].
    apply keeps_bind; [apply keeps_console_error|intros _; apply keeps_throw].
  - intros _. apply keeps_bind; [apply keeps_console_log|intros _].
    apply keeps_cleanupLoop.
Qed.

Lemma keeps_generateAudioSummary (summariesByTopic : Buckets) (w : World) r w' :
  generateAudioSummary summariesByTopic w = (r, w') -> sameChatAndMarks w w'.
Proof.
  revert w r w'. unfold generateAudioSummary.
  apply keeps_tryCatch.
  - intros w. cbv beta zeta. revert w.
    assert (G : forall w0 w r w',
               (run console_log (js "Generating audio...");;
                run fs_mkdir (path_join (cwd w0) (js "audio"));;
                do audioPaths <- synthesizeLoop (path_join (cwd w0) (js "audio"))
                                   (List.length (createSpeechScript (localTime w0) summariesByTopic))
                                   0 (createSpeechScript (localTime w0) summariesByTopic) [];;
                run console_log (js "Merging audio segments...");;
                run mergeSegments audioPaths
                      (path_join (path_join (cwd w0) (js "audio"))
                                 (js "newsletter-summary-" ++ isoDate w0 ++ js ".mp3"));;
                run console_log
                      (js "Final audio saved to: "
                       ++ path_join (path_join (cwd w0) (js "audio"))
                                    (js "newsletter-summary-" ++ isoDate w0 ++ js ".mp3"));;
                ret (path_join (path_join (cwd w0) (js "audio"))
                               (js "newsletter-summary-" ++ isoDate w0 ++ js ".mp3"))) w
               = (r, w') -> sameChatAndMarks w w').
    { intros w0.
      apply keeps_bind; [apply keeps_console_log|intros _].
      apply keeps_bind; [apply keeps_fs_mkdir|intros _].
      apply keeps_bind; [apply keeps_synthesizeLoop|intros audioPaths].
      apply keeps_bind; [apply keeps_console_log|intros _].
      apply keeps_bind; [intros w r w'; apply keeps_mergeSegments|intros _].
      apply keeps_bind; [apply keeps_console_log|intros _].
      apply keeps_ret. }
    intros w r w'. apply (G w).
  - intros e. apply keeps_bind; [apply keeps_console_error|intros _; apply keeps_throw].
Qed.

(** X20. Whatever happens while the audio summary is generated, the chat
    service and the read marks are as they were: [generateAudioSummary]
    sends no chat request, consumes no chat response and marks or unmarks
    no message. *)
Theorem generateAudioSummary_keeps_chat_and_marks
        (summariesByTopic : Buckets) (w : World) :
  sameChatAndMarks w (snd (generateAudioSummary summariesByTopic w)).
Proof.
  destruct (generateAudioSummary summariesByTopic w) as [r w'] eqn:H.
  exact (keeps_generateAudioSummary _ _ _ _ H).
Qed.

(** X21. Once the loop over the newsletters has completed, every message
    stays marked as read however the generation of the audio summary
    ends: a failure of the speech service, of the file system or of
    ffmpeg after the loop does not undo the marks. *)
Theorem read_marks_outlive_the_audio
        (newsletters : list Email) (w : World) (summariesByTopic : Buckets) :
  fst (processNewsletters newsletters w) = Ok summariesByTopic ->
  markedRead (snd (summarizeAndNarrate newsletters w))
  = markedRead w ++ map email_id newsletters.
Proof.
  intros Hloop. unfold summarizeAndNarrate, bind at 1.
  destruct (processNewsletters newsletters w) as [r w1] eqn:Hp.
  cbn [fst] in Hloop. subst r.
  assert (Hmarks : markedRead w1 = markedRead w ++ map email_id newsletters).
  { unfold processNewsletters, bind at 1, console_log at 1 in Hp.
    apply bucketLoop_marks in Hp as (k & Hk & Hm & Hall).
    rewrite (Hall _ eq_refl), firstn_all in Hm. exact Hm. }
  unfold bind at 1, console_log at 1. unfold bind at 1.
  match goal with
  | |- context [generateAudioSummary summariesByTopic ?w0] =>
      destruct (generateAudioSummary summariesByTopic w0) as [[p|e] w2] eqn:Hg;
      apply keeps_generateAudioSummary in Hg as (_ & _ & Hm & _)
  end; cbn [snd markedRead set_console] in *.
  - unfold bind, console_log, ret. cbn [snd markedRead set_console].
    congruence.
  - congruence.
Qed.

Lemma read_marks_outlive_the_audio_witness :
  let newsletters :=
    [ {| email_id := js "18f2"; subject := js "Chips";
         from := js "news@example.org"; body := js "New chips were announced.";
         date := js "2024-05-17" |} ] in
  let w := exampleWorld
             [Resolve (js "CATEGORY: TECH_NEWS" ++ LF ++ js "SUMMARY: New chips.")] [] in
  fst (summarizeAndNarrate newsletters w) = Throw (Rejection (js "no response"))
  /\ markedRead (snd (summarizeAndNarrate newsletters w))
     = markedRead w ++ map email_id newsletters.
Proof.
  intros newsletters w. split; [vm_compute; reflexivity|].
  apply (read_marks_outlive_the_audio newsletters w
           match fst (processNewsletters newsletters w) with
           | Ok b => b
           | Throw _ => initBuckets
           end).
  vm_compute. reflexivity.
Defined.

(** ** Fetching the unread mail *)

Lemma isSubsequence_weaken (b : list JSString) :
  (forall x a, isSubsequence (x :: a) b = true -> isSubsequence a b = true)
  /\ (forall a y, isSubsequence a b = true -> isSubsequence a (y :: b) = true).
Proof.
  induction b as [|z b [IHtail IHcons]].
  - split.
    + intros x a H. discriminate.
    + intros [|x a] y H; [reflexivity|discriminate].
  - assert (Htail : forall x a, isSubsequence (x :: a) (z :: b) = true ->
                                isSubsequence a (z :: b) = true).
    { intros x a H. cbn [isSubsequence] in H.
      destruct (JS.eqb x z).
      - apply IHcons. exact H.
      - apply IHcons. exact (IHtail _ _ H). }
    split; [exact Htail|].
    intros [|x a] y H; [reflexivity|].
    change (isSubsequence (x :: a) (y :: z :: b))
      with (if JS.eqb x y then isSubsequence a (z :: b)
            else isSubsequence (x :: a) (z :: b)).
    destruct (JS.eqb x y); [exact (Htail _ _ H)|exact H].
Qed.

Lemma isExcluded_false (from : option JSString) :
  isExcluded from = false -> notExcluded from.
Proof.
  unfold isExcluded, notExcluded. intros H f sender Hf Hin.
  destruct (includes sender f) eqn:E; [|reflexivity].
  assert (Hex : existsb (fun sender => match from with
                                       | Some f => includes sender f
                                       | None => false
                                       end) EXCLUDED_SENDERS = true).
  { apply existsb_exists. exists sender. split; [exact Hin|]. rewrite Hf. exact E. }
  congruence.
Qed.

Lemma fetchLoop_inv (fromBase64 : JSString -> JSString) :
  forall (messages : list JSString) (acc : list Newsletter) (g : Mailbox) emails g',
    fetchLoop fromBase64 messages acc g = (Ok emails, g') ->
    exists news,
      emails = acc ++ news
      /\ Forall (fun e => newsletter_body e <> [] /\ notExcluded (newsletter_from e)) news
      /\ isSubsequence (map newsletter_id news) messages = true
      /\ getLog g' = getLog g ++ messages
      /\ listLog g' = listLog g.
Proof.
  intros ms. induction ms as [|id messages IH]; intros acc g emails g' H.
  - inversion H; subst. exists []. rewrite !app_nil_r. repeat split. constructor.
  - cbn [fetchLoop] in H. unfold gmail_messages_get in H.
    destruct (getTape g) as [|[email|reason] tape]; cbn [settle tl] in H;
      try discriminate.
    destruct (isExcluded (headerValue (js "From") (headers (payload email)))) eqn:Ex.
    { apply IH in H as (news & He & Hall & Hsub & Hlog & Hlist).
      exists news. split; [exact He|]. split; [exact Hall|]. split.
      - apply (proj2 (isSubsequence_weaken messages)). exact Hsub.
      - cbn [getLog listLog mail_log] in Hlog, Hlist.
        rewrite Hlog, <- app_assoc. split; [reflexivity|exact Hlist]. }
    destruct (extractEmailBody fromBase64 (payload email)) as [[|c body]|] eqn:Eb;
      cbn [truthy] in H.
    + apply IH in H as (news & He & Hall & Hsub & Hlog & Hlist).
      exists news. split; [exact He|]. split; [exact Hall|]. split.
      * apply (proj2 (isSubsequence_weaken messages)). exact Hsub.
      * cbn [getLog listLog] in Hlog, Hlist.
        rewrite Hlog, <- app_assoc. split; [reflexivity|exact Hlist].
    + apply IH in H as (news & He & Hall & Hsub & Hlog & Hlist).
      eexists (_ :: news). split; [rewrite He, <- app_assoc; reflexivity|].
      split; [|split].
      * constructor; [|exact Hall]. cbn [newsletter_body newsletter_from].
        split; [discriminate|]. apply isExcluded_false. exact Ex.
      * cbn [map newsletter_id isSubsequence]. rewrite eqb_refl. exact Hsub.
      * cbn [getLog listLog] in Hlog, Hlist.
        rewrite Hlog, <- app_assoc. split; [reflexivity|exact Hlist].
    + apply IH in H as (news & He & Hall & Hsub & Hlog & Hlist).
      exists news. split; [exact He|]. split; [exact Hall|]. split.
      * apply (proj2 (isSubsequence_weaken messages)). exact Hsub.
      * cbn [getLog listLog] in Hlog, Hlist.
        rewrite Hlog, <- app_assoc. split; [reflexivity|exact Hlist].
Qed.

(** X22. When [fetchUnreadEmails] returns, the messages were listed once,
    every listed message was fetched once, in the listed order, and the
    emails returned are some of the listed messages in that order, each
    with a non-empty body and with a sender that contains none of the
    excluded names. *)
Theorem fetchUnreadEmails_returns_usable_mail
        (fromBase64 : JSString -> JSString) (maxResults daysBack : nat)
        (g : Mailbox) (emails : list Newsletter) :
  fst (fetchUnreadEmails fromBase64 maxResults daysBack g) = Ok emails ->
  exists response,
    listOutcome g = Resolve response
    /\ isSubsequence (map newsletter_id emails)
                     (match response with Some l => l | None => [] end) = true
    /\ getLog (snd (fetchUnreadEmails fromBase64 maxResults daysBack g))
       = getLog g ++ match response with Some l => l | None => [] end
    /\ List.length (listLog (snd (fetchUnreadEmails fromBase64 maxResults daysBack g)))
       = S (List.length (listLog g))
    /\ Forall (fun e => newsletter_body e <> [] /\ notExcluded (newsletter_from e))
              emails.
Proof.
  unfold fetchUnreadEmails, gmail_messages_list. cbv zeta.
  cbn [mail_log listOutcome getTape listLog getLog mailConsole secondsDaysAgo].
  destruct (listOutcome g) as [response|reason] eqn:Hlist; cbn [settle].
  2:{ cbn [fst]. discriminate. }
  match goal with
  | |- context [fetchLoop fromBase64 ?ms ?acc ?g0] =>
      destruct (fetchLoop fromBase64 ms acc g0) as [[es|e] g'] eqn:Hloop
  end; cbn [fst snd]; [|discriminate].
  intros E. inversion E; subst es.
  apply fetchLoop_inv in Hloop as (news & He & Hall & Hsub & Hlog & Hll).
  cbn [app] in He. subst news. cbn [getLog listLog] in Hlog, Hll.
  exists response. split; [reflexivity|]. split; [exact Hsub|].
  split; [exact Hlog|]. split; [|exact Hall].
  rewrite Hll, length_app. simpl. lia.
Qed.

Lemma fetchUnreadEmails_returns_usable_mail_witness :
  let message (from : JSString) (ps : option (list Part)) (data : option JSString) :=
    Resolve {| payload := {| headers := [ {| header_name := js "Subject";
                                             header_value := js "Weekly" |};
                                          {| header_name := js "From";
                                             header_value := from |} ];
                             parts := ps;
                             payload_data := data |};
               internalDate := js "1715900000000" |} in
  let g :=
    {| listOutcome := Resolve (Some [js "a"; js "b"; js "c"]);
       getTape :=
         [ message (js "ByteByteGo <hi@bytebytego.com>") None (Some (js "aGk="));
           message (js "news@example.org")
                   (Some [ {| mimeType := js "text/html"; part_data := Some (js "PGI+") |} ])
                   (Some (js "aGk="));
           message (js "news@example.org") None (Some (js "aGk=")) ];
       listLog := []; getLog := []; mailConsole := [];
       secondsDaysAgo := fun _ => 4000 |} in
  let emails :=
    [ {| newsletter_id := js "c";
         newsletter_subject := Some (js "Weekly");
         newsletter_from := Some (js "news@example.org");
         newsletter_body := js "aGk=";
         newsletter_date := js "1715900000000" |} ] in
  exists response,
    listOutcome g = Resolve response
    /\ isSubsequence (map newsletter_id emails)
                     (match response with Some l => l | None => [] end) = true
    /\ getLog (snd (fetchUnreadEmails (fun data => data) 10 7 g))
       = getLog g ++ match response with Some l => l | None => [] end
    /\ List.length (listLog (snd (fetchUnreadEmails (fun data => data) 10 7 g)))
       = S (List.length (listLog g))
    /\ Forall (fun e => newsletter_body e <> [] /\ notExcluded (newsletter_from e))
              emails.
Proof.
  intros message g emails.
  apply (fetchUnreadEmails_returns_usable_mail (fun data => data) 10 7 g emails).
  vm_compute. reflexivity.
Defined.

Lemma fetchLoop_rejects (fromBase64 : JSString -> JSString) (reason : JSString)
      (tape' : list (Outcome Message)) :
  forall (msgs : list Message) (ids : list JSString) (acc : list Newsletter)
         (g : Mailbox),
    getTape g = map Resolve msgs ++ Reject reason :: tape' ->
    List.length msgs < List.length ids ->
    exists g',
      fetchLoop fromBase64 ids acc g = (Throw (Rejection reason), g')
      /\ getLog g' = getLog g ++ firstn (S (List.length msgs)) ids
      /\ getTape g' = tape'.
Proof.
  induction msgs as [|msg msgs IH]; intros ids acc g Htape Hlen.
  - destruct ids as [|id ids]; [simpl in Hlen; lia|].
    cbn [fetchLoop]. unfold gmail_messages_get. rewrite Htape.
    cbn [map app settle tl]. eexists. split; [reflexivity|].
    cbn [getLog getTape List.length firstn]. split; reflexivity.
  - destruct ids as [|id ids]; [simpl in Hlen; lia|].
    cbn [List.length] in Hlen.
    cbn [fetchLoop]. unfold gmail_messages_get. rewrite Htape.
    cbn [map app settle tl].
    assert (Hstep : forall acc' g1,
               getTape g1 = map Resolve msgs ++ Reject reason :: tape' ->
               getLog g1 = getLog g ++ [id] ->
               exists g',
                 fetchLoop fromBase64 ids acc' g1 = (Throw (Rejection reason), g')
                 /\ getLog g' = getLog g ++ firstn (S (List.length (msg :: msgs))) (id :: ids)
                 /\ getTape g' = tape').
    { intros acc' g1 Ht Hl.
      destruct (IH ids acc' g1 Ht) as (g' & Hrun & Hlog & Htl); [lia|].
      exists g'. split; [exact Hrun|]. split; [|exact Htl].
      rewrite Hlog, Hl, <- app_assoc. reflexivity. }
    destruct (isExcluded _); [apply Hstep; reflexivity|].
    destruct (truthy _); apply Hstep; reflexivity.
Qed.

(** X23. When a [messages.get] request is rejected, [fetchUnreadEmails] is
    rejected with the same reason: the emails gathered from the earlier
    messages are not returned, no later message is requested, and the last
    thing written to the console is the error. *)
Theorem fetchUnreadEmails_rejected_get
        (fromBase64 : JSString -> JSString) (maxResults daysBack : nat)
        (g : Mailbox) (ids : list JSString) (msgs : list Message)
        (reason : JSString) (tape' : list (Outcome Message)) :
  listOutcome g = Resolve (Some ids) ->
  getTape g = map Resolve msgs ++ Reject reason :: tape' ->
  List.length msgs < List.length ids ->
  exists g',
    fetchUnreadEmails fromBase64 maxResults daysBack g = (Throw (Rejection reason), g')
    /\ getLog g' = getLog g ++ firstn (S (List.length msgs)) ids
    /\ getTape g' = tape'
    /\ exists before,
         mailConsole g'
         = before ++ [ConsoleError (js "Error fetching emails:") (Rejection reason)].
Proof.
  intros Hlist Htape Hlen.
  unfold fetchUnreadEmails, gmail_messages_list. cbv zeta.
  cbn [mail_log listOutcome getTape listLog getLog mailConsole secondsDaysAgo].
  rewrite Hlist. cbn [settle].
  match goal with
  | |- context [fetchLoop fromBase64 ids [] ?g0] =>
      destruct (fetchLoop_rejects fromBase64 reason tape' msgs ids [] g0)
        as (g1 & Hrun & Hlog & Htl); [exact Htape|exact Hlen|];
      rewrite Hrun
  end.
  eexists. split; [reflexivity|].
  cbn [mail_log getLog getTape mailConsole] in *.
  split; [exact Hlog|]. split; [exact Htl|].
  eexists. reflexivity.
Qed.

Lemma fetchUnreadEmails_rejected_get_witness :
  let message :=
    {| payload := {| headers := [ {| header_name := js "From";
                                     header_value := js "news@example.org" |} ];
                     parts := None;
                     payload_data := Some (js "aGk=") |};
       internalDate := js "1715900000000" |} in
  let g :=
    {| listOutcome := Resolve (Some [js "a"; js "b"; js "c"]);
       getTape := [Resolve message; Reject (js "rate limit"); Resolve message];
       listLog := []; getLog := []; mailConsole := [];
       secondsDaysAgo := fun _ => 4000 |} in
  exists g',
    fetchUnreadEmails (fun data => data) 10 7 g
    = (Throw (Rejection (js "rate limit")), g')
    /\ getLog g' = getLog g ++ firstn (S (List.length [message])) [js "a"; js "b"; js "c"]
    /\ getTape g' = [Resolve message]
    /\ exists before,
         mailConsole g'
         = before ++ [ConsoleError (js "Error fetching emails:")
                                   (Rejection (js "rate limit"))].
Proof.
  intros message g.
  apply (fetchUnreadEmails_rejected_get (fun data => data) 10 7 g
           [js "a"; js "b"; js "c"] [message] (js "rate limit") [Resolve message]).
  - reflexivity.
  - reflexivity.
  - simpl. lia.
Defined.

Lemma firstPlainPart_none (fromBase64 : JSString -> JSString) (ps : list Part) :
  firstPlainPart fromBase64 ps = None
  <-> forall part, In part ps -> mimeType part = js "text/plain" ->
                   truthy (part_data part) = false.
Proof.
  induction ps as [|part ps IH]; cbn [firstPlainPart].
  - split; [intros _ part []|reflexivity].
  - destruct (JS.eqb (mimeType part) (js "text/plain")) eqn:Em; cbn [andb].
    + destruct (truthy (part_data part)) eqn:Et.
      * split.
        -- destruct (part_data part); [discriminate|discriminate].
        -- intros H. apply eqb_eq in Em.
           specialize (H part (or_introl eq_refl) Em). congruence.
      * rewrite IH. split.
        -- intros H q [<-|Hq] Hm; [exact Et|exact (H q Hq Hm)].
        -- intros H q Hq. apply H. right. exact Hq.
    + rewrite IH. split.
      * intros H q [<-|Hq] Hm.
        -- apply eqb_neq in Em. contradiction.
        -- exact (H q Hq Hm).
      * intros H q Hq. apply H. right. exact Hq.
Qed.

(** X24. For a payload that has parts, [extractEmailBody] returns [null]
    exactly when no part of type [text/plain] carries data: the data of
    the payload's own body and the parts of other types are never used, so
    a message with an HTML part only has no body. *)
Theorem extractEmailBody_multipart_needs_plain_text
        (fromBase64 : JSString -> JSString) (p : Payload) (ps : list Part) :
  parts p = Some ps ->
  (extractEmailBody fromBase64 p = None
   <-> forall part, In part ps -> mimeType part = js "text/plain" ->
                    truthy (part_data part) = false).
Proof.
  intros Hp. unfold extractEmailBody. rewrite Hp. apply firstPlainPart_none.
Qed.

Lemma extractEmailBody_multipart_needs_plain_text_witness :
  let ps := [ {| mimeType := js "text/html"; part_data := Some (js "PGI+") |} ] in
  let p := {| headers := []; parts := Some ps; payload_data := Some (js "aGk=") |} in
  extractEmailBody (fun data => data) p = None
  <-> forall part, In part ps -> mimeType part = js "text/plain" ->
                   truthy (part_data part) = false.
Proof.
  intros ps p.
  apply (extractEmailBody_multipart_needs_plain_text (fun data => data) p ps).
  reflexivity.
Defined.
